(** * Ansatz builders and the Heisenberg model: a shallow embedding

    The repository builds parametrised quantum circuits on top of an external
    SDK (qiskit).  This development embeds the repository's three source files

      - [custom_ansatz.py]    (classes [RVB] and [HVAnsatz]),
      - [pulse_ansatz.py]     (classes [AnsatzBuilder], [PulseAnsatz], [CRAnsatz]),
      - [heisenberg_model.py] (class [HeisenbergModel]),

    as Rocq functions and proves properties of them.

    Conventions of the embedding:
      - a Python [int] is a [Z]; a [float] is idealised as a rational [Qc]
        (no statement below depends on rounding);
      - a method that mutates [self] is a state transformer over a record
        holding the attributes of [self]; the state survives an exception,
        as the attributes of a Python object do;
      - an exception is the [Raise] outcome of a computation;
      - a circuit that a method mutates in place is threaded through the
        computation and returned. *)

From Stdlib Require Import ZArith QArith Qcanon Qround Ascii Lia.
From stdpp Require Import numbers sorting strings pretty gmap option list.

Local Open Scope string_scope.
Local Open Scope list_scope.
Local Open Scope Z_scope.

(** ** The Python layer: exceptions, state, loops, [range], [str] *)

Module Py.

(** The exception classes that the embedded code can raise or meet. *)
Inductive exn : Type :=
| CircuitError (msg : string)
| ValueError (msg : string)
| NameError (msg : string)
| UnboundLocalError (msg : string)
| IndexError (msg : string)
| BackendError (msg : string).

Inductive outcome (A : Type) : Type :=
| Return (a : A)
| Raise (e : exn).
Global Arguments Return {A} a.
Global Arguments Raise {A} e.

(** A computation over the attributes [S] of [self]. *)
Definition M (S A : Type) : Type := S → outcome A * S.

Definition ret {S A} (a : A) : M S A := λ s, (Return a, s).
Definition raise {S A} (e : exn) : M S A := λ s, (Raise e, s).
Definition bind {S A B} (c : M S A) (k : A → M S B) : M S B :=
  λ s, match c s with
       | (Return a, s') => k a s'
       | (Raise e, s') => (Raise e, s')
       end.
Definition get {S} : M S S := λ s, (Return s, s).
Definition put {S} (s : S) : M S unit := λ _, (Return tt, s).
(** A call into code that has no access to [self]. *)
Definition lift {S A} (o : outcome A) : M S A := λ s, (o, s).

(** [for x in xs: body], with the objects the body mutates as accumulator. *)
Fixpoint for_in {S X A} (xs : list X) (a : A) (body : X → A → M S A) : M S A :=
  match xs with
  | [] => ret a
  | x :: xs' => bind (body x a) (λ a', for_in xs' a' body)
  end.

(** [len(range(start, stop, step))] as CPython computes it. *)
Definition range_len (start stop step : Z) : nat :=
  Z.to_nat (if decide (0 < step) then (stop - start + step - 1) `div` step
            else if decide (step < 0) then (start - stop - step - 1) `div` (- step)
            else 0).

(** [range(start, stop, step)]; the code never passes a zero step. *)
Definition range (start stop step : Z) : list Z :=
  (λ k : nat, start + Z.of_nat k * step) <$> seq 0 (range_len start stop step).

(** [str(n)] of a non-negative [int], and of any [int]. *)
Definition str_nat (n : nat) : string := pretty n.
Definition str (z : Z) : string := pretty z.

(** [xs[i]] on a tuple or list, for a non-negative index. *)
Definition subscript {A} (xs : list A) (i : nat) : outcome A :=
  match xs !! i with
  | Some a => Return a
  | None => Raise (IndexError "index out of range")
  end.

End Py.
Import Py.

Declare Scope py_scope.
Delimit Scope py_scope with py.
Notation "x <- c ;; k" := (bind c (λ x, k))
  (at level 100, c at next level, right associativity) : py_scope.
Notation "c ;;; k" := (bind c (λ _, k))
  (at level 100, right associativity) : py_scope.
Local Open Scope py_scope.

(** ** The SDK objects the builders manipulate

    The circuit classes belong to the SDK.  They are modelled as far as the
    builders observe them: a circuit is a qubit count, a name, the sequence of
    instructions appended so far and the calibrations attached to it.
    Appending checks the qubit arguments as the SDK does (index range,
    arity, duplicates) and raises [CircuitError] when a check fails; the
    messages of the SDK's own errors are abbreviated. *)

Module Qiskit.

(** The SDK's [Parameter] class: a named symbol, identified here by its
    name. *)
Record Param : Type := mkParam { name : string }.

Global Instance Param_eq_dec : EqDecision Param.
Proof. solve_decision. Defined.

(** What can stand as a gate parameter: a type whose values hold free
    parameters and into which a parameter embeds. *)
Class Parametric (P : Type) : Type := {
  free_parameters : P → list Param;
  of_parameter : Param → P
}.

(** Symbolic expressions over one parameter, as [custom_ansatz.py] builds
    them: [p], [-e], [e / d]. *)
Inductive ParameterExpression : Type :=
| Sym (p : Param)
| Neg (e : ParameterExpression)
| DivBy (e : ParameterExpression) (d : Z).

Fixpoint expression_parameters (e : ParameterExpression) : list Param :=
  match e with
  | Sym p => [p]
  | Neg e' => expression_parameters e'
  | DivBy e' _ => expression_parameters e'
  end.

Global Instance ParameterExpression_parametric : Parametric ParameterExpression :=
  {| free_parameters := expression_parameters; of_parameter := Sym |}.

(** A gate parameter of the pulse ansatz: a bound number or a bare
    parameter. *)
Inductive GateParam : Type :=
| Number (v : Qc)
| Symbol (p : Param).

Global Instance GateParam_parametric : Parametric GateParam :=
  {| free_parameters := λ g, match g with Number _ => [] | Symbol p => [p] end;
     of_parameter := Symbol |}.

(** [Gate(name, num_qubits, params)], with the instructions of its
    definition when it was made from a circuit by [to_gate]. *)
#[local] Unset Elimination Schemes.
Inductive Gate (P : Type) : Type :=
  mkGate (gate_name : string) (gate_num_qubits : nat) (gate_params : list P)
         (gate_definition : list (Gate P * list Z)).
#[local] Set Elimination Schemes.
Global Arguments mkGate {P} gate_name gate_num_qubits gate_params gate_definition.

Definition CircuitInstruction (P : Type) : Type := (Gate P * list Z)%type.

Section Circuit.
Context {P : Type} `{Parametric P}.

Definition gate_name (g : Gate P) : string := let 'mkGate n _ _ _ := g in n.
Definition gate_num_qubits (g : Gate P) : nat := let 'mkGate _ k _ _ := g in k.
Definition gate_params (g : Gate P) : list P := let 'mkGate _ _ ps _ := g in ps.
Definition gate_definition (g : Gate P) : list (CircuitInstruction P) :=
  let 'mkGate _ _ _ d := g in d.

Definition operation (inst : CircuitInstruction P) : Gate P := inst.1.
Definition qubits (inst : CircuitInstruction P) : list Z := inst.2.

(** Pulse-level content of a calibration. *)
Inductive Channel : Type :=
| DriveChannel (index : Z)
| ControlChannel (index : Z).

Inductive Pulse : Type :=
| Drag (duration : Z) (amp : P) (sigma beta : Qc)
| GaussianSquare (duration amp : P) (sigma risefall_sigma_ratio : Z).

Record Schedule : Type := mkSchedule {
  schedule_name : option string;
  plays : list (Pulse * Channel)
}.

Record Calibration : Type := mkCalibration {
  cal_gate : string;
  cal_qubits : list Z;
  cal_schedule : Schedule;
  cal_params : list P
}.

Record QuantumCircuit : Type := mkQuantumCircuit {
  num_qubits : Z;
  circuit_name : option string;
  data : list (CircuitInstruction P);
  calibrations : list Calibration
}.

(** [QuantumCircuit(n, name=...)]: a register cannot have negative size. *)
Definition new_circuit (n : Z) (nm : option string) : outcome QuantumCircuit :=
  if decide (n < 0) then Raise (CircuitError "Register size must be non-negative")
  else Return (mkQuantumCircuit n nm [] []).

(** An integer qubit specifier indexes the list of qubits as a Python
    list subscript does: negative specifiers count from the end. *)
Definition resolve_qubit (circuit : QuantumCircuit) (q : Z) : option Z :=
  let n := num_qubits circuit in
  if decide (0 ≤ q < n) then Some q
  else if decide (- n ≤ q < 0) then Some (n + q)
  else None.

Definition resolve_qubits (circuit : QuantumCircuit) (qargs : list Z) : option (list Z) :=
  mapM (resolve_qubit circuit) qargs.

(** [circuit.append(gate, qargs)]. *)
Definition append (gate : Gate P) (qargs : list Z) (circuit : QuantumCircuit)
  : outcome QuantumCircuit :=
  match resolve_qubits circuit qargs with
  | None => Raise (CircuitError "Index out of range")
  | Some qs =>
      if negb (bool_decide (length qs = gate_num_qubits gate)) then
        Raise (CircuitError
                 "The amount of qubit arguments does not match the gate expectation")
      else if negb (bool_decide (NoDup qs)) then
        Raise (CircuitError "duplicate qubit arguments")
      else
        Return (mkQuantumCircuit (num_qubits circuit) (circuit_name circuit)
                  (data circuit ++ [(gate, qs)]) (calibrations circuit))
  end.

(** [circuit.parameters]: the distinct parameters of the instructions,
    sorted by name. *)
Definition instruction_parameters (inst : CircuitInstruction P) : list Param :=
  flat_map free_parameters (gate_params (operation inst)).

Definition name_le (p q : Param) : Prop := String.le (name p) (name q).
Global Instance name_le_dec : RelDecision name_le.
Proof. intros p q. unfold name_le. apply _. Defined.

Definition parameters (circuit : QuantumCircuit) : list Param :=
  merge_sort name_le (remove_dups (flat_map instruction_parameters (data circuit))).

(** [circuit.to_gate()]; an unnamed circuit carries a name generated by
    the SDK, which the embedding leaves out. *)
Definition to_gate (circuit : QuantumCircuit) : Gate P :=
  mkGate (default "circuit" (circuit_name circuit)) (Z.to_nat (num_qubits circuit))
         (of_parameter <$> parameters circuit) (data circuit).

(** [circuit.compose(other, inplace=True)] for circuits without
    classical bits: [other] may not be wider than [circuit]. *)
Definition compose (other circuit : QuantumCircuit) : outcome QuantumCircuit :=
  if decide (num_qubits circuit < num_qubits other) then
    Raise (CircuitError "Trying to compose with another QuantumCircuit which has more 'in' edges.")
  else
    Return (mkQuantumCircuit (num_qubits circuit) (circuit_name circuit)
              (data circuit ++ data other)
              (calibrations circuit ++ calibrations other)).

(** [circuit.add_calibration(gate, qubits, schedule, params)]. *)
Definition add_calibration (gate : string) (qs : list Z) (schedule : Schedule)
    (params : list P) (circuit : QuantumCircuit) : QuantumCircuit :=
  mkQuantumCircuit (num_qubits circuit) (circuit_name circuit) (data circuit)
    (calibrations circuit ++ [mkCalibration gate qs schedule params]).

(** The named gate methods of a circuit. *)
Definition x (qubit : Z) := append (mkGate "x" 1 [] []) [qubit].
Definition h (qubit : Z) := append (mkGate "h" 1 [] []) [qubit].
Definition cx (control target : Z) := append (mkGate "cx" 2 [] []) [control; target].
Definition cnot := cx.
Definition crx (theta : P) (control target : Z) :=
  append (mkGate "crx" 2 [theta] []) [control; target].
Definition rx (theta : P) (qubit : Z) := append (mkGate "rx" 1 [theta] []) [qubit].
Definition rz (phi : P) (qubit : Z) := append (mkGate "rz" 1 [phi] []) [qubit].
Definition rzz (theta : P) (q1 q2 : Z) := append (mkGate "rzz" 2 [theta] []) [q1; q2].
Definition ryy (theta : P) (q1 q2 : Z) := append (mkGate "ryy" 2 [theta] []) [q1; q2].
Definition rxx (theta : P) (q1 q2 : Z) := append (mkGate "rxx" 2 [theta] []) [q1; q2].

End Circuit.

Global Arguments QuantumCircuit P : clear implicits.
Global Arguments Schedule P : clear implicits.
Global Arguments Calibration P : clear implicits.
Global Arguments Pulse P : clear implicits.

End Qiskit.
Import Qiskit.

(** ** [custom_ansatz.py] *)

(** *** class [RVB] *)

Module RVB.

Record self : Type := mkSelf {
  _params : list Param;
  _num_qubits : Z;
  _reps : Z
}.

Definition __init__ (num_qubits reps : Z) : self := mkSelf [] num_qubits reps.

(** [new_param(paramstr)]; the default [paramstr] is ["phi"]. *)
Definition new_param (paramstr : string) : M self Param :=
  s <- get;;
  let param := mkParam (paramstr +:+ str_nat (length (_params s))) in
  put (mkSelf (_params s ++ [param]) (_num_qubits s) (_reps s));;;
  ret param.

Definition add_eSWAP : M self (Gate ParameterExpression) :=
  circ <- lift (new_circuit 2 (Some "eSWAP"));;
  circ <- lift (cnot 1 0 circ);;
  theta <- new_param "phi";;
  circ <- lift (crx (Sym theta) 0 1 circ);;
  circ <- lift (x 0 circ);;
  phi <- new_param "phi";;
  circ <- lift (rz (DivBy (Neg (Sym phi)) 2) 0 circ);;
  circ <- lift (cnot 1 0 circ);;
  ret (to_gate circ).

Definition circuit : M self (QuantumCircuit ParameterExpression) :=
  s <- get;;
  let n := _num_qubits s in
  if negb (n `mod` 2 =? 0) then
    raise (CircuitError "The number of qubits should be even!")
  else
    ansatz <- lift (new_circuit n (Some "RVB"));;
    (* build initial state *)
    ansatz <- for_in (range 0 n 1) ansatz (λ i ansatz, lift (x i ansatz));;
    (* build bell state *)
    ansatz <- for_in (range 0 n 1) ansatz (λ j ansatz,
                if j `mod` 2 =? 0 then
                  (ansatz <- lift (h j ansatz);;
                   lift (cx j (j + 1) ansatz))
                else ret ansatz);;
    ansatz <- for_in (range 0 (_reps s) 1) ansatz (λ k ansatz,
                ansatz <- for_in (range (n - 1) 0 (-2)) ansatz (λ l ansatz,
                            if l <? n - 1 then
                              (g <- add_eSWAP;; lift (append g [l; l + 1] ansatz))
                            else
                              (g <- add_eSWAP;; lift (append g [l; 0] ansatz)));;
                for_in (range 0 (n - 1) 2) ansatz (λ l ansatz,
                  g <- add_eSWAP;; lift (append g [l; l + 1] ansatz)));;
    ret ansatz.

End RVB.

(** *** class [HVAnsatz] *)

Module HVAnsatz.

Record self : Type := mkSelf {
  _params : list Param;
  _num_qubits : Z;
  _reps : Z
}.

Definition __init__ (num_qubits reps : Z) : self := mkSelf [] num_qubits reps.

(** [new_param(paramstr)]; the default [paramstr] is ["phi"]. *)
Definition new_param (paramstr : string) : M self Param :=
  s <- get;;
  let param := mkParam (paramstr +:+ str_nat (length (_params s))) in
  put (mkSelf (_params s ++ [param]) (_num_qubits s) (_reps s));;;
  ret param.

(** Reading a local variable that a [for] loop may have left unbound. *)
Definition local (var : string) (binding : option Z) : M self Z :=
  match binding with
  | Some v => ret v
  | None => raise (UnboundLocalError var)
  end.

(** The three rotations of one pair of a layer, which [circuit] writes out
    in each branch of its two layer loops. *)
Definition rotations (paramstr : string) (q1 q2 : Z)
    (ansatz : QuantumCircuit ParameterExpression)
  : M self (QuantumCircuit ParameterExpression) :=
  p <- new_param paramstr;;
  ansatz <- lift (rzz (Sym p) q1 q2 ansatz);;
  p <- new_param paramstr;;
  ansatz <- lift (ryy (Sym p) q1 q2 ansatz);;
  p <- new_param paramstr;;
  lift (rxx (Sym p) q1 q2 ansatz).

(** The loop "build initial state" of [circuit]; it returns the circuit and
    the binding in which it leaves its loop variable [i]. *)
Definition initial_state (n : Z) (ansatz : QuantumCircuit ParameterExpression)
  : M self (QuantumCircuit ParameterExpression * option Z) :=
  for_in (range 0 n 1) (ansatz, None) (λ i '(ansatz, _),
    ansatz <- lift (x i ansatz);; ret (ansatz, Some i)).

(** The loop "build bell state" of [circuit]: its test reads [i], the
    variable of the loop before it, not its own variable [j]. *)
Definition bell_state (n : Z) (i : option Z) (ansatz : QuantumCircuit ParameterExpression)
  : M self (QuantumCircuit ParameterExpression) :=
  for_in (range 0 n 1) ansatz (λ j ansatz,
    i <- local "i" i;;
    if i `mod` 2 =? 0 then
      (ansatz <- lift (h j ansatz);;
       lift (cx j (j + 1) ansatz))
    else ret ansatz).

Definition circuit : M self (QuantumCircuit ParameterExpression) :=
  s <- get;;
  let n := _num_qubits s in
  if negb (n `mod` 2 =? 0) then
    raise (CircuitError "The number of qubits should be even!")
  else
    (* Build a custom ansatz from scratch *)
    ansatz <- lift (new_circuit n (Some "HVA"));;
    (* build initial state *)
    r <- initial_state n ansatz;;
    let '(ansatz, i) := r in
    (* build bell state *)
    ansatz <- bell_state n i ansatz;;
    (* loop for number of layer *)
    ansatz <- for_in (range 0 (_reps s) 1) ansatz (λ j ansatz,
                (* odd Hamiltonian *)
                ansatz <- for_in (range (n - 1) 0 (-2)) ansatz (λ i ansatz,
                            if i <? n - 1 then rotations "phi" i (i + 1) ansatz
                            else rotations "phi" i 0 ansatz);;
                (* even Hamiltonian *)
                for_in (range 0 n 2) ansatz (λ i ansatz,
                  rotations "gamma" i (i + 1) ansatz));;
    ret ansatz.

End HVAnsatz.

(** ** [pulse_ansatz.py] *)

(** *** class [AnsatzBuilder] *)

Module AnsatzBuilder.

(** What the builder asks of a backend.  [backend_control_channel] is the
    [control_channel] method when the backend has one, returning the
    channels of a qubit tuple; [backend_configuration] is [None] without a
    [configuration] method, [Some None] when the configuration has no
    [control_channels] attribute, and that dictionary otherwise;
    [backend_x_pulse] is the pulse (duration, sigma, beta) of the first
    instruction of the default [x] schedule of a qubit tuple. *)
Record Backend : Type := mkBackend {
  backend_control_channel : option (list Z → outcome (list Channel));
  backend_configuration : option (option (gmap (list Z) (list Channel)));
  backend_x_pulse : list Z → outcome (Z * Qc * Qc)
}.

(** A wrapper-config entry: wrapper tag, coefficients, label. *)
Definition WrapperEntry : Type := (string * (Qc * Qc * Qc * Qc) * string)%type.

Record self : Type := mkSelf {
  _params : list Param;
  _backend : Backend;
  _physical_qubits_map : list Z;
  _control_channels : gmap (list Z) Channel;
  _wrapper_config : gmap nat WrapperEntry;
  _max_duration : Qc;
  _max_freq_shift : option (gmap Z (Qc * Qc))
}.

Definition __init__ (backend : Backend) (physical_qubits : list Z)
    (frequency_shift_ranges : option (gmap Z (Qc * Qc))) (max_duration : Qc) : self :=
  mkSelf [] backend physical_qubits ∅ ∅ max_duration frequency_shift_ranges.

Definition set_params (ps : list Param) (s : self) : self :=
  mkSelf ps (_backend s) (_physical_qubits_map s) (_control_channels s)
         (_wrapper_config s) (_max_duration s) (_max_freq_shift s).
Definition set_control_channels (cc : gmap (list Z) Channel) (s : self) : self :=
  mkSelf (_params s) (_backend s) (_physical_qubits_map s) cc
         (_wrapper_config s) (_max_duration s) (_max_freq_shift s).
Definition set_wrapper_config (wc : gmap nat WrapperEntry) (s : self) : self :=
  mkSelf (_params s) (_backend s) (_physical_qubits_map s) (_control_channels s)
         wc (_max_duration s) (_max_freq_shift s).

Definition wrapper_config (s : self) : gmap nat WrapperEntry := _wrapper_config s.

(** The two kinds of entry: [("SinWrapper", (1, 1, 0, 0), label)] and
    [("SinDurationWrapper",
      (max_duration / 2, 1, max_duration / 2 + 4 * 64, 160), label)]. *)
Definition sin_wrapper (label : string) : WrapperEntry :=
  ("SinWrapper", (1, 1, 0, 0)%Qc, label).
Definition sin_duration_wrapper (max_duration : Qc) (label : string) : WrapperEntry :=
  ("SinDurationWrapper",
   (max_duration / Qc_of_Z 2, 1, max_duration / Qc_of_Z 2 + Qc_of_Z (4 * 64),
    Qc_of_Z 160)%Qc,
   label).

(** The self-made control channel of the last part of
    [_get_control_channel]. *)
Definition self_made_channel (qs : list Z) : M self Channel :=
  s <- get;;
  (if decide (_control_channels s !! qs = None) then
     let max_chan := Z.of_nat (size (_control_channels s)) in
     put (set_control_channels (<[qs := ControlChannel (max_chan + 1)]> (_control_channels s)) s)
   else ret tt);;;
  s <- get;;
  match _control_channels s !! qs with
  | Some chan => ret chan
  | None => raise (BackendError "KeyError")
  end.

Definition _get_control_channel (qs : list Z) : M self Channel :=
  s <- get;;
  match backend_control_channel (_backend s) with
  | Some control_channel =>
      chans <- lift (control_channel qs);;
      lift (subscript chans 0)
  | None =>
      match backend_configuration (_backend s) with
      | Some (Some control_channels) =>
          match control_channels !! qs with
          | Some chans => lift (subscript chans 0)
          | None => self_made_channel qs
          end
      | _ => self_made_channel qs
      end
  end.

(** [new_param(paramstr)]; the default [paramstr] is ["p"]. *)
Definition new_param (paramstr : string) : M self Param :=
  s <- get;;
  let param := mkParam (paramstr +:+ str_nat (length (_params s))) in
  put (set_params (_params s ++ [param]) s);;;
  ret param.

Definition add_rx (circuit : QuantumCircuit GateParam) (qubit : Z)
  : M self (QuantumCircuit GateParam) :=
  param <- new_param "phi";;
  lift (rx (Symbol param) qubit circuit).

Definition add_cr (circuit : QuantumCircuit GateParam) (qs : Z * Z)
    (duration : option Param) : M self (QuantumCircuit GateParam) :=
  duration <- match duration with
              | None => new_param "t"
              | Some d => ret d
              end;;
  phi <- new_param "phi";;
  lift (append (mkGate "cr" 2 [Symbol duration; Symbol phi] []) [qs.1; qs.2] circuit).

(** [repr] of the view that [circuit.parameters] returns. *)
Definition repr_parameters (ps : list Param) : string :=
  "ParameterView([" +:+
    String.concat ", " ((λ p, "Parameter(" +:+ name p +:+ ")") <$> ps) +:+ "])".

(** The loop of [_param_idx] over [enumerate(circuit.parameters)]. *)
Fixpoint _param_idx_loop (idx : nat) (circ_params : list Param) (param : Param)
  : option nat :=
  match circ_params with
  | [] => None
  | circ_param :: rest =>
      if decide (circ_param = param) then Some idx
      else _param_idx_loop (S idx) rest param
  end.

Definition _param_idx (circuit : QuantumCircuit GateParam) (param : Param) : outcome nat :=
  match _param_idx_loop 0 (parameters circuit) param with
  | Some idx => Return idx
  | None =>
      Raise (ValueError ("Parameter " +:+ name param +:+ " not found in " +:+
                         repr_parameters (parameters circuit) +:+ "."))
  end.

(** [int(v)] of a number: truncation towards zero. *)
Definition int (v : Qc) : Z :=
  if decide (0 ≤ v)%Qc then Qfloor v else Qceiling v.

Definition add_rx_schedule (params : list GateParam) (pqubits : list Z)
    (circuit : QuantumCircuit GateParam) : M self (QuantumCircuit GateParam) :=
  (* Parameter wrapper for the amplitude of the pulse. If it is a float do
     not add a wrapper. *)
  p0 <- lift (subscript params 0);;
  amp <- match p0 with
         | Number v => ret (Number v)
         | Symbol p =>
             idx <- lift (_param_idx circuit p);;
             s <- get;;
             put (set_wrapper_config
                    (<[idx := sin_wrapper ("amp[" +:+ name p +:+ "]")]>
                       (_wrapper_config s)) s);;;
             ret (Symbol p)
         end;;
  s <- get;;
  x_pulse <- lift (backend_x_pulse (_backend s) pqubits);;
  let '(duration, sigma, beta) := x_pulse in
  q0 <- lift (subscript pqubits 0);;
  let x_sched := mkSchedule (Some "rx") [(Drag duration amp sigma beta, DriveChannel q0)] in
  ret (add_calibration "rx" pqubits x_sched [amp] circuit).

Definition add_cr_schedule (params : list GateParam) (pqubits : list Z)
    (circuit : QuantumCircuit GateParam) : M self (QuantumCircuit GateParam) :=
  (* Duration parameter wrapper. If it can be converted to float do not add
     a wrapper. *)
  p0 <- lift (subscript params 0);;
  duration <- match p0 with
              | Number v => ret (Number (Qc_of_Z (int v)))
              | Symbol p =>
                  idx <- lift (_param_idx circuit p);;
                  s <- get;;
                  put (set_wrapper_config
                         (<[idx := sin_duration_wrapper (_max_duration s)
                                    ("dur[" +:+ name p +:+ "]")]>
                            (_wrapper_config s)) s);;;
                  ret (Symbol p)
              end;;
  (* Amplitude parameter wrapper. If it can be converted to float do not
     add a wrapper. *)
  p1 <- lift (subscript params 1);;
  amp <- match p1 with
         | Number v => ret (Number v)
         | Symbol p =>
             idx <- lift (_param_idx circuit p);;
             s <- get;;
             put (set_wrapper_config
                    (<[idx := sin_wrapper ("amp[" +:+ name p +:+ "]")]>
                       (_wrapper_config s)) s);;;
             ret (Symbol p)
         end;;
  u_chan <- _get_control_channel pqubits;;
  let cr_sched := mkSchedule None [(GaussianSquare duration amp 64 2, u_chan)] in
  ret (add_calibration "cr" pqubits cr_sched [duration; amp] circuit).

Definition add_schedules (circuit : QuantumCircuit GateParam)
  : M self (QuantumCircuit GateParam) :=
  (* [circuit.qregs[0]]: a circuit without qubits has no register *)
  (if decide (num_qubits circuit = 0) then raise (IndexError "list index out of range")
   else ret tt);;;
  for_in (data circuit) circuit (λ inst circuit,
    let nm := gate_name (operation inst) in
    if bool_decide (nm ∈ ["ccr"; "cr"; "rx"]) then
      let params := gate_params (operation inst) in
      s <- get;;
      pqubits <- lift (match mapM (λ q, _physical_qubits_map s !! Z.to_nat q) (qubits inst) with
                       | Some pq => Return pq
                       | None => Raise (IndexError "tuple index out of range")
                       end);;
      circuit <- (if bool_decide (nm = "cr") then add_cr_schedule params pqubits circuit
                  else ret circuit);;
      (if bool_decide (nm = "rx") then add_rx_schedule params pqubits circuit
       else ret circuit)
    else ret circuit).

End AnsatzBuilder.

(** *** classes [PulseAnsatz] and [CRAnsatz]

    An ansatz holds a reference to its builder, the only object its methods
    mutate: the methods are computations over the builder's attributes. *)

Module PulseAnsatz.

(** [entanglement: Union[str, List[Tuple]]], and any other value. *)
Inductive Entanglement : Type :=
| EntStr (s : string)
| EntList (pairs : list (Z * Z))
| EntOther.

Record self : Type := mkSelf {
  _num_qubits : Z;
  _reps : Z;
  _entanglement : Entanglement;
  _add_rz : bool;
  _final_rx : bool
}.

(** [entanglement == s] for a string [s]: only a string equals a string. *)
Definition equals_str (e : Entanglement) (s : string) : bool :=
  match e with
  | EntStr s' => bool_decide (s' = s)
  | _ => false
  end.

(** [circuit()], over the abstract method [_layer]. *)
Definition circuit (this : self)
    (_layer : M AnsatzBuilder.self (QuantumCircuit GateParam))
  : M AnsatzBuilder.self (QuantumCircuit GateParam) :=
  ansatz <- lift (new_circuit (_num_qubits this) None);;
  ansatz <- for_in (range 0 (_reps this) 1) ansatz (λ _ ansatz,
              layer <- _layer;; lift (compose layer ansatz));;
  ansatz <- (if _final_rx this then
               for_in (range 0 (_num_qubits this) 1) ansatz (λ qubit ansatz,
                 AnsatzBuilder.add_rx ansatz qubit)
             else ret ansatz);;
  ret ansatz.

End PulseAnsatz.

Module CRAnsatz.
Import PulseAnsatz.

Definition _layer (this : self) : M AnsatzBuilder.self (QuantumCircuit GateParam) :=
  ansatz <- lift (new_circuit (_num_qubits this) None);;
  ansatz <- for_in (range 0 (_num_qubits this) 1) ansatz (λ qubit ansatz,
              ansatz <- AnsatzBuilder.add_rx ansatz qubit;;
              if _add_rz this then
                (phi <- AnsatzBuilder.new_param "phi";;
                 lift (rz (Symbol phi) qubit ansatz))
              else ret ansatz);;
  ansatz <- (if equals_str (_entanglement this) "interleaved" then
               ansatz <- for_in (range 0 (_num_qubits this) 2) ansatz (λ qubit ansatz,
                           AnsatzBuilder.add_cr ansatz (qubit, qubit + 1) None);;
               for_in (range 1 (_num_qubits this - 1) 2) ansatz (λ qubit ansatz,
                 AnsatzBuilder.add_cr ansatz (qubit, qubit + 1) None)
             else ret ansatz);;
  ansatz <- match _entanglement this with
            | EntList pairs =>
                for_in pairs ansatz (λ pair ansatz, AnsatzBuilder.add_cr ansatz pair None)
            | _ => ret ansatz
            end;;
  ret ansatz.

Definition circuit (this : self) : M AnsatzBuilder.self (QuantumCircuit GateParam) :=
  PulseAnsatz.circuit this (_layer this).

End CRAnsatz.

(** ** [heisenberg_model.py] *)

Module HeisenbergModel.

Section Model.
(** The type of the edge weights (complex numbers in the SDK); the model
    only copies them. *)
Context {W : Type}.

Record Lattice : Type := mkLattice {
  weighted_edge_list : list (Z * Z * W);
  num_nodes : Z
}.

(** [SpinOp(ham, spin=..., register_length=...)] as the data handed to
    the SDK's constructor. *)
Record SpinOp : Type := mkSpinOp {
  spin_terms : list (string * W);
  spin : Qc;
  register_length : Z
}.

Record self : Type := mkSelf { _lattice : Lattice }.

(** One iteration of the loop over the weighted edges. *)
Definition kinetic_term (ham : list (string * W)) (edge : Z * Z * W)
  : list (string * W) :=
  let '(node_a, node_b, weight) := edge in
  if decide (node_a = node_b) then
    let index := node_a in
    ham ++ [("X_" +:+ str index, weight)]
  else
    let index_left := node_a in
    let index_right := node_b in
    let coupling_parameter := weight in
    let ham := ham ++ [("X_" +:+ str index_left +:+ " X_" +:+ str index_right,
                        coupling_parameter)] in
    let ham := ham ++ [("Y_" +:+ str index_left +:+ " Y_" +:+ str index_right,
                        coupling_parameter)] in
    ham ++ [("Z_" +:+ str index_left +:+ " Z_" +:+ str index_right,
             coupling_parameter)].

(** [second_q_ops(display_format)].  The module never defines the name
    [logger] that the warning branch uses. *)
Definition second_q_ops (this : self) (display_format : option string)
  : outcome SpinOp :=
  match display_format with
  | Some _ => Raise (NameError "name 'logger' is not defined")
  | None =>
      let weighted_edge_list := weighted_edge_list (_lattice this) in
      let register_length := num_nodes (_lattice this) in
      (* kinetic terms *)
      let ham := foldl kinetic_term [] weighted_edge_list in
      Return (mkSpinOp ham (1 / Qc_of_Z 2)%Qc register_length)
  end.

(** The terms that the specification assigns to one weighted edge. *)
Definition edge_terms (edge : Z * Z * W) : list (string * W) :=
  let '(a, b, w) := edge in
  if decide (a = b) then [("X_" +:+ str a, w)]
  else [("X_" +:+ str a +:+ " X_" +:+ str b, w);
        ("Y_" +:+ str a +:+ " Y_" +:+ str b, w);
        ("Z_" +:+ str a +:+ " Z_" +:+ str b, w)].

End Model.

Global Arguments Lattice W : clear implicits.
Global Arguments SpinOp W : clear implicits.
Global Arguments self W : clear implicits.

End HeisenbergModel.

(** ** Vocabulary of the statements *)

(** The number of instructions of a circuit whose gate has a given name. *)
Definition count_gates {P} (nm : string) (circuit : QuantumCircuit P) : nat :=
  length (filter (λ inst : CircuitInstruction P, gate_name (operation inst) = nm)
            (data circuit)).

(** Every instruction of the circuit applies a gate named in [names]. *)
Definition only_gates {P} (names : list string) (circuit : QuantumCircuit P) : Prop :=
  Forall (λ inst : CircuitInstruction P, gate_name (operation inst) ∈ names) (data circuit).

(** A circuit on [n] qubits holding only the gates that [HVAnsatz.circuit]
    leaves when the Bell-pair loop adds none. *)
Definition hva_invariant (n : Z) (c : QuantumCircuit ParameterExpression) : Prop :=
  num_qubits c = n ∧ only_gates ["x"; "rzz"; "ryy"; "rxx"] c.

(** The name and the qubits of each instruction, in order. *)
Definition layout {P} (circuit : QuantumCircuit P) : list (string * list Z) :=
  (λ inst : CircuitInstruction P, (gate_name (operation inst), qubits inst)) <$> data circuit.

(** [idx] is the position of the first occurrence of [a] in [l]. *)
Definition first_index {A} (l : list A) (a : A) (idx : nat) : Prop :=
  l !! idx = Some a ∧ ∀ j, (j < idx)%nat → l !! j ≠ Some a.

(** Decimal digits, and strings made of them or ending in one. *)
Definition is_digit (c : ascii) : bool :=
  match c with
  | "0" | "1" | "2" | "3" | "4" | "5" | "6" | "7" | "8" | "9" => true
  | _ => false
  end%char.

Fixpoint all_digits (s : string) : bool :=
  match s with
  | "" => true
  | String c s' => is_digit c && all_digits s'
  end.

Fixpoint ends_in_digit (s : string) : bool :=
  match s with
  | "" => false
  | String c "" => is_digit c
  | String _ s' => ends_in_digit s'
  end.

(** A client calling [new_param] once per prefix, collecting the parameters
    it is handed. *)
Definition new_params {S} (new_param : string → M S Param) (prefixes : list string)
  : M S (list Param) :=
  for_in prefixes [] (λ paramstr created,
    param <- new_param paramstr;; ret (created ++ [param])).

(** The names [prefix + index] of a sequence of calls. *)
Definition indexed_names (prefixes : list string) : list string :=
  imap (λ k paramstr, paramstr +:+ str_nat k) prefixes.

(** The three rotations that a layer of [HVAnsatz] puts on the pair
    [(q1, q2)], with the parameters [prefix + k], [prefix + (k+1)],
    [prefix + (k+2)]. *)
Definition pair_rotations (paramstr : string) (k : nat) (pair : Z * Z)
  : list (CircuitInstruction ParameterExpression) :=
  [(mkGate "rzz" 2 [Sym (mkParam (paramstr +:+ str_nat k))] [], [pair.1; pair.2]);
   (mkGate "ryy" 2 [Sym (mkParam (paramstr +:+ str_nat (k + 1)))] [], [pair.1; pair.2]);
   (mkGate "rxx" 2 [Sym (mkParam (paramstr +:+ str_nat (k + 2)))] [], [pair.1; pair.2])].

(** A layer over a list of pairs, the first parameter having index [k]. *)
Fixpoint layer_rotations (paramstr : string) (k : nat) (pairs : list (Z * Z))
  : list (CircuitInstruction ParameterExpression) :=
  match pairs with
  | [] => []
  | pq :: pairs' =>
      pair_rotations paramstr k pq ++ layer_rotations paramstr (k + 3) pairs'
  end.

(** The pairs that the two layer loops of [HVAnsatz.circuit] visit. *)
Definition odd_layer_pairs (n : Z) : list (Z * Z) :=
  (λ i, if i <? n - 1 then (i, i + 1) else (i, 0)) <$> range (n - 1) 0 (-2).
Definition even_layer_pairs (n : Z) : list (Z * Z) :=
  (λ i, (i, i + 1)) <$> range 0 n 2.

(** The rotations of one qubit in a layer of [CRAnsatz]. *)
Definition qubit_rotations (add_rz : bool) (qubit : Z) : list (string * list Z) :=
  ("rx", [qubit]) :: (if add_rz then [("rz", [qubit])] else []).

(** A computation keeps the relation [R] between the state it starts from
    and the state it leaves, whether it returns or raises. *)
Definition preserves {S A} (R : S → S → Prop) (c : M S A) : Prop :=
  ∀ s, R s (c s).2.

(** *** Vocabulary of the pulse ansatz *)

(** A pair of distinct qubits of a circuit on [n] qubits. *)
Definition valid_pair (n : Z) (pq : Z * Z) : Prop :=
  0 ≤ pq.1 < n ∧ 0 ≤ pq.2 < n ∧ pq.1 ≠ pq.2.

(** The cross-resonance gates on a list of pairs, as layout entries. *)
Definition cr_entries (pairs : list (Z * Z)) : list (string * list Z) :=
  (λ pq : Z * Z, ("cr", [pq.1; pq.2])) <$> pairs.

(** The pairs of the two interleaved passes, in the order of the loops. *)
Definition interleaved_pairs (n : Z) : list (Z * Z) :=
  ((λ q, (q, q + 1)) <$> range 0 n 2) ++ ((λ q, (q, q + 1)) <$> range 1 (n - 1) 2).

(** The pairs that a layer of [CRAnsatz] entangles. *)
Definition entangling_pairs (this : PulseAnsatz.self) : list (Z * Z) :=
  match PulseAnsatz._entanglement this with
  | PulseAnsatz.EntStr str =>
      if bool_decide (str = "interleaved")
      then interleaved_pairs (PulseAnsatz._num_qubits this) else []
  | PulseAnsatz.EntList pairs => pairs
  | PulseAnsatz.EntOther => []
  end.

(** The layout of one layer and the number of parameters it creates. *)
Definition layer_layout (this : PulseAnsatz.self) : list (string * list Z) :=
  flat_map (qubit_rotations (PulseAnsatz._add_rz this))
    (range 0 (PulseAnsatz._num_qubits this) 1)
  ++ cr_entries (entangling_pairs this).

Definition layer_param_count (this : PulseAnsatz.self) : nat :=
  (range_len 0 (PulseAnsatz._num_qubits this) 1
     * (if PulseAnsatz._add_rz this then 2 else 1)
   + 2 * length (entangling_pairs this))%nat.

(** The layout of the whole ansatz: the layers, then the closing rotations. *)
Definition ansatz_layout (this : PulseAnsatz.self) : list (string * list Z) :=
  concat (replicate (range_len 0 (PulseAnsatz._reps this) 1) (layer_layout this))
  ++ (if PulseAnsatz._final_rx this
      then flat_map (qubit_rotations false) (range 0 (PulseAnsatz._num_qubits this) 1)
      else []).

(** The backend has no control channel to offer for the qubits [qs]: it has
    no [control_channel] method and its configuration, if any, does not list
    them. *)
Definition backend_silent (backend : AnsatzBuilder.Backend) (qs : list Z) : Prop :=
  AnsatzBuilder.backend_control_channel backend = None ∧
  match AnsatzBuilder.backend_configuration backend with
  | Some (Some control_channels) => control_channels !! qs = None
  | _ => True
  end.

(** The channels of a cache are numbered from 1 to its size and no two
    qubit tuples share one. *)
Definition cache_ok (cc : gmap (list Z) Channel) : Prop :=
  (∀ qs chan, cc !! qs = Some chan →
     ∃ i, chan = ControlChannel i ∧ 1 ≤ i ≤ Z.of_nat (size cc)) ∧
  (∀ qs1 qs2 chan, cc !! qs1 = Some chan → cc !! qs2 = Some chan → qs1 = qs2).

(** The cache of the later state holds every entry of the earlier one, and
    is well numbered if the earlier one is. *)
Definition cache_grows (s s' : AnsatzBuilder.self) : Prop :=
  AnsatzBuilder._control_channels s ⊆ AnsatzBuilder._control_channels s' ∧
  (cache_ok (AnsatzBuilder._control_channels s) →
   cache_ok (AnsatzBuilder._control_channels s')).

(** What building a circuit may do to the builder: append parameters. *)
Definition only_appends_params (s s' : AnsatzBuilder.self) : Prop :=
  AnsatzBuilder._params s `prefix_of` AnsatzBuilder._params s' ∧
  AnsatzBuilder._backend s' = AnsatzBuilder._backend s ∧
  AnsatzBuilder._physical_qubits_map s' = AnsatzBuilder._physical_qubits_map s ∧
  AnsatzBuilder._control_channels s' = AnsatzBuilder._control_channels s ∧
  AnsatzBuilder._wrapper_config s' = AnsatzBuilder._wrapper_config s ∧
  AnsatzBuilder._max_duration s' = AnsatzBuilder._max_duration s.

(** What attaching schedules may do to the builder: add wrapper entries and
    cache channels. *)
Definition only_records (s s' : AnsatzBuilder.self) : Prop :=
  AnsatzBuilder._params s' = AnsatzBuilder._params s ∧
  AnsatzBuilder._backend s' = AnsatzBuilder._backend s ∧
  AnsatzBuilder._physical_qubits_map s' = AnsatzBuilder._physical_qubits_map s ∧
  AnsatzBuilder._max_duration s' = AnsatzBuilder._max_duration s ∧
  dom (AnsatzBuilder._wrapper_config s) ⊆ dom (AnsatzBuilder._wrapper_config s').

(** The two labels under which a parameter is recorded. *)
Definition amp_entry (p : Param) : AnsatzBuilder.WrapperEntry :=
  AnsatzBuilder.sin_wrapper ("amp[" +:+ name p +:+ "]").
Definition dur_entry (max_duration : Qc) (p : Param) : AnsatzBuilder.WrapperEntry :=
  AnsatzBuilder.sin_duration_wrapper max_duration ("dur[" +:+ name p +:+ "]").

(** The parameter [p] of the circuit has a wrapper entry under its index. *)
Definition wrapped (wc : gmap nat AnsatzBuilder.WrapperEntry) (max_duration : Qc)
    (circuit : QuantumCircuit GateParam) (p : Param) : Prop :=
  ∃ k, first_index (parameters circuit) p k ∧
       (wc !! k = Some (amp_entry p) ∨ wc !! k = Some (dur_entry max_duration p)).

(** Every wrapper entry of the later state is an entry of the earlier one or
    is the entry of a parameter of [ps], stored under its index in [ps]. *)
Definition recorded_soundly (ps : list Param) (s s' : AnsatzBuilder.self) : Prop :=
  AnsatzBuilder._max_duration s' = AnsatzBuilder._max_duration s ∧
  AnsatzBuilder._backend s' = AnsatzBuilder._backend s ∧
  AnsatzBuilder._physical_qubits_map s' = AnsatzBuilder._physical_qubits_map s ∧
  ∀ k e, AnsatzBuilder._wrapper_config s' !! k = Some e →
    AnsatzBuilder._wrapper_config s !! k = Some e ∨
    ∃ p, first_index ps p k ∧
         (e = amp_entry p ∨ e = dur_entry (AnsatzBuilder._max_duration s) p).

(** The exception [e] is raised by a lookup of the backend. *)
Definition backend_raises (backend : AnsatzBuilder.Backend) (e : exn) : Prop :=
  (∃ qs, AnsatzBuilder.backend_x_pulse backend qs = Raise e) ∨
  (∃ control_channel qs,
     AnsatzBuilder.backend_control_channel backend = Some control_channel ∧
     control_channel qs = Raise e).

(** The number of instructions of a circuit that get a calibration. *)
Definition scheduled_count (circuit : QuantumCircuit GateParam) : nat :=
  (count_gates "rx" circuit + count_gates "cr" circuit)%nat.

(** The body of the loop of [add_schedules], for one instruction. *)
Definition schedule_instruction (inst : CircuitInstruction GateParam)
    (circuit : QuantumCircuit GateParam)
  : M AnsatzBuilder.self (QuantumCircuit GateParam) :=
  let nm := gate_name (operation inst) in
  if bool_decide (nm ∈ ["ccr"; "cr"; "rx"]) then
    let params := gate_params (operation inst) in
    s <- get;;
    pqubits <- lift (match mapM (λ q, AnsatzBuilder._physical_qubits_map s !! Z.to_nat q)
                             (qubits inst) with
                     | Some pq => Return pq
                     | None => Raise (IndexError "tuple index out of range")
                     end);;
    circuit <- (if bool_decide (nm = "cr")
                then AnsatzBuilder.add_cr_schedule params pqubits circuit
                else ret circuit);;
    (if bool_decide (nm = "rx") then AnsatzBuilder.add_rx_schedule params pqubits circuit
     else ret circuit)
  else ret circuit.

(** The symbolic parameters that [add_schedules] reads off an instruction:
    the amplitude of an [rx], the duration and the amplitude of a [cr]. *)
Definition scheduled_parameters (inst : CircuitInstruction GateParam) : list Param :=
  let params := gate_params (operation inst) in
  let symbols (ps : list GateParam) :=
    flat_map (λ g, match g with Symbol p => [p] | Number _ => [] end) ps in
  if bool_decide (gate_name (operation inst) = "rx") then symbols (take 1 params)
  else if bool_decide (gate_name (operation inst) = "cr") then symbols (take 2 params)
  else [].

(** Whenever the computation returns, what it returns satisfies [I]. *)
Definition yields {S A} (I : A → Prop) (c : M S A) : Prop :=
  ∀ s, match (c s).1 with
       | Return a => I a
       | Raise _ => True
       end.

(** The instructions of a [CRAnsatz] on [n] qubits: a rotation with one
    symbolic angle on a qubit of the register ([rz] only when [add_rz] is
    set), or a cross-resonance gate with a symbolic duration and a symbolic
    amplitude on two qubits of the register. *)
Definition ansatz_instruction (add_rz : bool) (n : Z)
    (inst : CircuitInstruction GateParam) : Prop :=
  (∃ nm p q, (nm = "rx" ∨ (nm = "rz" ∧ add_rz = true)) ∧ 0 ≤ q < n ∧
             inst = (mkGate nm 1 [Symbol p] [], [q])) ∨
  (∃ d p q1 q2, 0 ≤ q1 < n ∧ 0 ≤ q2 < n ∧
                inst = (mkGate "cr" 2 [Symbol d; Symbol p] [], [q1; q2])).

Definition ansatz_circuit (add_rz : bool) (n : Z) (c : QuantumCircuit GateParam) : Prop :=
  num_qubits c = n ∧ Forall (ansatz_instruction add_rz n) (data c).



(** *** Vocabulary of the custom ansatzes *)

(** The layout entries of gates of one name on a list of pairs. *)
Definition pair_entries (nm : string) (pairs : list (Z * Z)) : list (string * list Z) :=
  (λ pq : Z * Z, (nm, [pq.1; pq.2])) <$> pairs.

(** The pairs of the two passes of a repetition of [RVB.circuit]. *)
Definition rvb_pairs (n : Z) : list (Z * Z) :=
  odd_layer_pairs n ++ ((λ l, (l, l + 1)) <$> range 0 (n - 1) 2).

(** The Bell pairs of [RVB.circuit]: a Hadamard and a CNOT from every even
    qubit. *)
Definition bell_entries (n : Z) : list (string * list Z) :=
  flat_map (λ j, if j `mod` 2 =? 0 then [("h", [j]); ("cx", [j; j + 1])] else [])
           (range 0 n 1).

Definition rvb_layout (n reps : Z) : list (string * list Z) :=
  ((λ i, ("x", [i])) <$> range 0 n 1) ++ bell_entries n ++
  concat (replicate (Z.to_nat reps) (pair_entries "eSWAP" (rvb_pairs n))).

(** The three rotations of [HVAnsatz] on each pair of a list. *)
Definition rotation_entries (pairs : list (Z * Z)) : list (string * list Z) :=
  flat_map (λ pq : Z * Z,
              [("rzz", [pq.1; pq.2]); ("ryy", [pq.1; pq.2]); ("rxx", [pq.1; pq.2])]) pairs.

Definition hva_layout (n reps : Z) : list (string * list Z) :=
  ((λ i, ("x", [i])) <$> range 0 n 1) ++
  concat (replicate (Z.to_nat reps)
            (rotation_entries (odd_layer_pairs n ++ even_layer_pairs n))).

(** *** Vocabulary of the Heisenberg model *)

(** A label of the Hamiltonian: an operator letter, an underscore, a node,
    and what follows the node. *)
Definition spin_label (k : ascii) (node : Z) (rest : string) : string :=
  String k (String "_" (str node +:+ rest)).

(** A string that does not go on with a digit. *)
Definition no_digit_head (s : string) : Prop :=
  match s with
  | "" => True
  | String c _ => is_digit c = false
  end.

(** Edges between nodes with non-negative indices, no two of them from the
    same node to the same node. *)
Definition simple_edges {W} (edges : list (Z * Z * W)) : Prop :=
  Forall (λ e, 0 ≤ e.1.1 ∧ 0 ≤ e.1.2) edges ∧ NoDup ((λ e, e.1) <$> edges).

(** ** Lemmas on the Python layer *)

Section Loops.
Context {S X A : Type}.
Implicit Types (xs : list X) (body : X → A → M S A).

Lemma for_in_app xs ys a body s :
  for_in (xs ++ ys) a body s = bind (for_in xs a body) (λ a', for_in ys a' body) s.
Proof.
  revert a s. induction xs as [|x0 xs IH]; intros a s; simpl.
  - reflexivity.
  - unfold bind in *. destruct (body x0 a s) as [[a'|e] s']; [apply IH | reflexivity].
Qed.

(** Total correctness of a loop from an invariant on the iterations done. *)
Lemma for_in_ind (I : list X → A → S → Prop) xs body a s :
  I [] a s →
  (∀ done x rest a s, xs = done ++ x :: rest → I done a s →
     ∃ a' s', body x a s = (Return a', s') ∧ I (done ++ [x]) a' s') →
  ∃ a' s', for_in xs a body s = (Return a', s') ∧ I xs a' s'.
Proof.
  revert I a s. induction xs as [|x0 xs IH]; intros I a s H0 Hstep; simpl.
  - by exists a, s.
  - destruct (Hstep [] x0 xs a s eq_refl H0) as (a1 & s1 & Hb & H1).
    unfold bind. rewrite Hb.
    apply (IH (λ done, I (x0 :: done))); [exact H1|].
    intros done x1 rest a2 s2 -> H2.
    apply (Hstep (x0 :: done) x1 rest a2 s2); [reflexivity | exact H2].
Qed.

(** The same with an invariant that does not look at the iterations. *)
Lemma for_in_inv (I : A → S → Prop) xs body a s :
  I a s →
  (∀ x a s, x ∈ xs → I a s → ∃ a' s', body x a s = (Return a', s') ∧ I a' s') →
  ∃ a' s', for_in xs a body s = (Return a', s') ∧ I a' s'.
Proof.
  intros H0 Hstep. apply (for_in_ind (λ _, I)); [exact H0|].
  intros done x1 rest a1 s1 -> H1. apply Hstep; [|exact H1].
  apply elem_of_app. right. apply elem_of_cons. by left.
Qed.
(** Partial correctness of a loop: an invariant on the iterations done when
    it returns, a property of the exception and the state when it raises. *)
Lemma for_in_partial (I : list X → A → S → Prop) (J : exn → S → Prop) xs body a s :
  I [] a s →
  (∀ done x rest a s, xs = done ++ x :: rest → I done a s →
     match body x a s with
     | (Return a', s') => I (done ++ [x]) a' s'
     | (Raise e, s') => J e s'
     end) →
  match for_in xs a body s with
  | (Return a', s') => I xs a' s'
  | (Raise e, s') => J e s'
  end.
Proof.
  revert I a s. induction xs as [|x0 xs IH]; intros I a s H0 Hstep; simpl.
  - exact H0.
  - specialize (Hstep [] x0 xs a s eq_refl H0) as Hb. unfold bind.
    destruct (body x0 a s) as [[a1|e] s1]; [|exact Hb].
    apply (IH (λ done, I (x0 :: done))); [exact Hb|].
    intros done x1 rest a2 s2 -> H2.
    apply (Hstep (x0 :: done) x1 rest a2 s2); [reflexivity | exact H2].
Qed.
End Loops.

Section Range.

Lemma elem_of_range x start stop step :
  x ∈ range start stop step ↔
  ∃ k : nat, (k < range_len start stop step)%nat ∧ x = start + Z.of_nat k * step.
Proof.
  unfold range. rewrite list_elem_of_fmap. split.
  - intros (k & -> & Hk). apply elem_of_seq in Hk. exists k. split; [lia | done].
  - intros (k & Hk & ->). exists k. split; [done|]. apply elem_of_seq. lia.
Qed.

Lemma length_range start stop step :
  length (range start stop step) = range_len start stop step.
Proof. unfold range. by rewrite length_fmap, length_seq. Qed.

Lemma range_len_1 start stop : range_len start stop 1 = Z.to_nat (stop - start).
Proof.
  unfold range_len. destruct (decide (0 < 1)) as [_|?]; [|lia].
  f_equal. rewrite Z.div_1_r. lia.
Qed.

Lemma elem_of_range_1 x start stop : x ∈ range start stop 1 ↔ start ≤ x < stop.
Proof.
  rewrite elem_of_range, range_len_1. split.
  - intros (k & Hk & ->). lia.
  - intros Hx. exists (Z.to_nat (x - start)). lia.
Qed.

Lemma elem_of_range_up2 x start stop :
  x ∈ range start stop 2 → start ≤ x < stop ∧ (x - start) `mod` 2 = 0.
Proof.
  rewrite elem_of_range. intros (k & Hk & ->). unfold range_len in Hk.
  destruct (decide (0 < 2)) as [_|?]; [|lia].
  assert (Z.of_nat k < (stop - start + 2 - 1) `div` 2) as Hlt by lia.
  split; [|].
  - pose proof (Z.mul_div_le (stop - start + 2 - 1) 2 ltac:(lia)). lia.
  - replace (start + Z.of_nat k * 2 - start) with (Z.of_nat k * 2) by lia.
    apply Z.mod_mul. lia.
Qed.

Lemma elem_of_range_down2 x start stop :
  x ∈ range start stop (-2) → stop < x ≤ start ∧ (start - x) `mod` 2 = 0.
Proof.
  rewrite elem_of_range. intros (k & Hk & ->). unfold range_len in Hk.
  destruct (decide (0 < -2)) as [?|_]; [lia|].
  destruct (decide (-2 < 0)) as [_|?]; [|lia].
  assert (Z.of_nat k < (start - stop - -2 - 1) `div` (- -2)) as Hlt by lia.
  change (- -2) with 2 in Hlt.
  split; [|].
  - pose proof (Z.mul_div_le (start - stop - -2 - 1) 2 ltac:(lia)). lia.
  - replace (start - (start + Z.of_nat k * -2)) with (Z.of_nat k * 2) by lia.
    apply Z.mod_mul. lia.
Qed.

Lemma range_1_snoc n : 0 < n → range 0 n 1 = range 0 (n - 1) 1 ++ [n - 1].
Proof.
  intros Hn. unfold range. rewrite !range_len_1.
  replace (Z.to_nat (n - 0)) with (Datatypes.S (Z.to_nat (n - 1 - 0))) by lia.
  rewrite seq_S, fmap_app. simpl. do 2 f_equal. lia.
Qed.

Lemma range_nil start stop step :
  range_len start stop step = 0%nat → range start stop step = [].
Proof. intros Hlen. unfold range. by rewrite Hlen. Qed.

End Range.

(** ** Lemmas on the circuit model *)

Section CircuitLemmas.
Context {P : Type} `{Parametric P}.
Implicit Types (circuit : QuantumCircuit P) (gate : Gate P).

Lemma resolve_qubits_in_range circuit qs :
  Forall (λ q, 0 ≤ q < num_qubits circuit) qs → resolve_qubits circuit qs = Some qs.
Proof.
  intros Hqs. unfold resolve_qubits. apply mapM_Some_2.
  induction Hqs as [|q qs Hq _ IH]; constructor; [|exact IH].
  unfold resolve_qubit. by rewrite decide_True.
Qed.

(** Appending a gate on distinct qubits of the circuit succeeds and adds
    one instruction. *)
Lemma append_ok gate qs circuit :
  Forall (λ q, 0 ≤ q < num_qubits circuit) qs →
  length qs = gate_num_qubits gate →
  NoDup qs →
  append gate qs circuit =
    Return (mkQuantumCircuit (num_qubits circuit) (circuit_name circuit)
              (data circuit ++ [(gate, qs)]) (calibrations circuit)).
Proof.
  intros Hqs Hlen Hnd. unfold append.
  rewrite (resolve_qubits_in_range _ _ Hqs).
  rewrite (bool_decide_eq_true_2 _ Hlen), (bool_decide_eq_true_2 _ Hnd).
  reflexivity.
Qed.

Lemma append_1 gate q circuit :
  gate_num_qubits gate = 1%nat → 0 ≤ q < num_qubits circuit →
  append gate [q] circuit =
    Return (mkQuantumCircuit (num_qubits circuit) (circuit_name circuit)
              (data circuit ++ [(gate, [q])]) (calibrations circuit)).
Proof.
  intros Hg Hq. apply append_ok; [by repeat apply Forall_cons_2 | by rewrite Hg |].
  apply NoDup_singleton.
Qed.

Lemma append_2 gate q1 q2 circuit :
  gate_num_qubits gate = 2%nat →
  0 ≤ q1 < num_qubits circuit → 0 ≤ q2 < num_qubits circuit → q1 ≠ q2 →
  append gate [q1; q2] circuit =
    Return (mkQuantumCircuit (num_qubits circuit) (circuit_name circuit)
              (data circuit ++ [(gate, [q1; q2])]) (calibrations circuit)).
Proof.
  intros Hg Hq1 Hq2 Hne.
  apply append_ok; [by repeat apply Forall_cons_2 | by rewrite Hg |].
  apply NoDup_cons_2; [|apply NoDup_singleton].
  rewrite list_elem_of_singleton. exact Hne.
Qed.

(** A qubit index beyond the register is refused. *)
Lemma append_out_of_range gate q1 q2 circuit :
  0 ≤ q1 < num_qubits circuit → num_qubits circuit ≤ q2 →
  append gate [q1; q2] circuit = Raise (CircuitError "Index out of range").
Proof.
  intros Hq1 Hq2.
  assert (resolve_qubit circuit q1 = Some q1) as E1.
  { unfold resolve_qubit. by rewrite decide_True. }
  assert (resolve_qubit circuit q2 = None) as E2.
  { unfold resolve_qubit. rewrite decide_False by lia. by rewrite decide_False by lia. }
  unfold append, resolve_qubits. simpl. rewrite E1, E2. reflexivity.
Qed.

Lemma count_gates_snoc nm circuit gate qs n nm' cals :
  count_gates nm (mkQuantumCircuit n nm' (data circuit ++ [(gate, qs)]) cals) =
    (count_gates nm circuit + (if decide (gate_name gate = nm) then 1 else 0))%nat.
Proof.
  unfold count_gates. simpl. rewrite filter_app, length_app. f_equal.
  rewrite filter_cons, filter_nil. unfold operation. simpl.
  by destruct (decide (gate_name gate = nm)).
Qed.

End CircuitLemmas.

(** ** Running the computations *)

(** Closes a decidable goal on closed terms by evaluating its decision. *)
Ltac by_decide := apply (bool_decide_unpack _); exact I.

Lemma bind_Return {S A B} (c : M S A) (k : A → M S B) s a s' :
  c s = (Return a, s') → bind c k s = k a s'.
Proof. intros Hc. unfold bind. by rewrite Hc. Qed.

Lemma bind_Raise {S A B} (c : M S A) (k : A → M S B) s e s' :
  c s = (Raise e, s') → bind c k s = (Raise e, s').
Proof. intros Hc. unfold bind. by rewrite Hc. Qed.

Lemma lift_Return {S A} (o : outcome A) (a : A) (s : S) :
  o = Return a → lift o s = (Return a, s).
Proof. by intros ->. Qed.

Lemma new_circuit_ok {P} n nm :
  0 ≤ n → @new_circuit P n nm = Return (mkQuantumCircuit n nm [] []).
Proof. intros Hn. unfold new_circuit. by rewrite decide_False by lia. Qed.

Lemma parity_test_even n : n `mod` 2 = 0 → negb (n `mod` 2 =? 0) = false.
Proof. intros ->. reflexivity. Qed.

Lemma parity_test_odd n : n `mod` 2 ≠ 0 → negb (n `mod` 2 =? 0) = true.
Proof. intros Hn. apply negb_true_iff, Z.eqb_neq, Hn. Qed.

(** *** [RVB] *)

Lemma RVB_new_param_run paramstr s :
  RVB.new_param paramstr s =
    (Return (mkParam (paramstr +:+ str_nat (length (RVB._params s)))),
     RVB.mkSelf (RVB._params s ++ [mkParam (paramstr +:+ str_nat (length (RVB._params s)))])
       (RVB._num_qubits s) (RVB._reps s)).
Proof. reflexivity. Qed.

(** A block always builds: its gate has two qubits and the name [eSWAP],
    and building it creates two parameters. *)
Lemma RVB_add_eSWAP_ok s :
  ∃ g p1 p2,
    RVB.add_eSWAP s =
      (Return g, RVB.mkSelf (RVB._params s ++ [p1; p2]) (RVB._num_qubits s) (RVB._reps s)) ∧
    gate_num_qubits g = 2%nat ∧ gate_name g = "eSWAP".
Proof.
  unfold RVB.add_eSWAP.
  erewrite bind_Return by (apply lift_Return, new_circuit_ok; lia).
  erewrite bind_Return by (apply lift_Return; unfold cnot, cx; apply append_2; simpl; lia).
  erewrite bind_Return by apply RVB_new_param_run.
  erewrite bind_Return by (apply lift_Return; unfold crx; apply append_2; simpl; lia).
  erewrite bind_Return by (apply lift_Return; unfold x; apply append_1; simpl; lia).
  erewrite bind_Return by apply RVB_new_param_run.
  erewrite bind_Return by (apply lift_Return; unfold rz; apply append_1; simpl; lia).
  erewrite bind_Return by (apply lift_Return; unfold cnot, cx; apply append_2; simpl; lia).
  unfold ret. simpl. rewrite <- app_assoc. simpl.
  eexists _, _, _. split; [reflexivity|]. split; reflexivity.
Qed.

Lemma even_succ_lt j n : j `mod` 2 = 0 → n `mod` 2 = 0 → j < n → j + 1 < n.
Proof.
  intros Hj Hn Hlt.
  pose proof (Z.div_mod j 2 ltac:(lia)). pose proof (Z.div_mod n 2 ltac:(lia)). lia.
Qed.

(** Runs the loop at the head of the goal under the invariant [I]: the
    first goal left is [I] before the loop, the second its preservation by
    the body, the third the rest of the computation after the loop. *)
Ltac run_loop I :=
  match goal with
  | |- context [bind (for_in ?xs ?a ?body) ?k ?s] =>
      let a' := fresh "c" in
      let s' := fresh "s" in
      let E := fresh "E" in
      let HI := fresh "HI" in
      destruct (for_in_inv I xs body a s) as (a' & s' & E & HI);
      [ | | rewrite (bind_Return (for_in xs a body) k s a' s' E) ]
  end.

(** For an even, non-negative qubit count every gate of [RVB.circuit] lands
    on qubits of the circuit, so the construction returns. *)
Lemma RVB_circuit_even s :
  RVB._num_qubits s `mod` 2 = 0 → 0 ≤ RVB._num_qubits s →
  ∃ c s', RVB.circuit s = (Return c, s') ∧ num_qubits c = RVB._num_qubits s.
Proof.
  intros Heven Hn. unfold RVB.circuit.
  erewrite bind_Return by reflexivity. cbv beta zeta.
  rewrite (parity_test_even _ Heven).
  set (n := RVB._num_qubits s) in *.
  erewrite bind_Return by (apply lift_Return, new_circuit_ok, Hn).
  pose (I := λ (c : QuantumCircuit ParameterExpression) (_ : RVB.self), num_qubits c = n).
  (* build initial state *)
  run_loop I; [reflexivity | |].
  { intros i c s0 Hi Hc. apply elem_of_range_1 in Hi.
    eexists _, _. split; [|shelve].
    apply lift_Return. unfold x. apply append_1; [reflexivity | unfold I in Hc; lia].
    Unshelve. exact Hc. }
  (* build bell state *)
  run_loop I; [exact HI | |].
  { intros j c' s' Hj Hc. apply elem_of_range_1 in Hj. unfold I in Hc.
    destruct (Z.eqb_spec (j `mod` 2) 0) as [Hje|_]; [|by eexists _, _].
    pose proof (even_succ_lt j n Hje Heven ltac:(lia)).
    erewrite bind_Return by (apply lift_Return; unfold h; apply append_1; [reflexivity | lia]).
    eexists _, _. split; [|shelve].
    apply lift_Return. unfold cx. apply append_2; simpl; [reflexivity | lia..].
    Unshelve. exact Hc. }
  (* the repetitions *)
  run_loop I; [exact HI0 | |].
  { intros k c' s' _ Hc.
    run_loop I; [exact Hc | |].
    { intros l c'' s'' Hl Hc'. apply elem_of_range_down2 in Hl as [Hl _]. unfold I in Hc'.
      destruct (RVB_add_eSWAP_ok s'') as (g & p1 & p2 & Eg & Hg & _).
      destruct (Z.ltb_spec l (n - 1)).
      - erewrite bind_Return by exact Eg. eexists _, _. split; [|shelve].
        apply lift_Return. apply append_2; [exact Hg | lia..].
        Unshelve. exact Hc'.
      - erewrite bind_Return by exact Eg. eexists _, _. split; [|shelve].
        apply lift_Return. apply append_2; [exact Hg | lia..].
        Unshelve. exact Hc'. }
    apply for_in_inv; [exact HI1|].
    intros l c'' s'' Hl Hc'. apply elem_of_range_up2 in Hl as [Hl _]. unfold I in Hc'.
    destruct (RVB_add_eSWAP_ok s'') as (g & p1 & p2 & Eg & Hg & _).
    erewrite bind_Return by exact Eg. eexists _, _. split; [|shelve].
    apply lift_Return. apply append_2; [exact Hg | lia..].
    Unshelve. exact Hc'. }
  by eexists _, _.
Qed.

(** For an odd qubit count the guard of [RVB.circuit] raises before any
    circuit exists, and leaves the builder as it was. *)
Lemma RVB_circuit_odd s :
  RVB._num_qubits s `mod` 2 ≠ 0 →
  RVB.circuit s = (Raise (CircuitError "The number of qubits should be even!"), s).
Proof.
  intros Hodd. unfold RVB.circuit.
  erewrite bind_Return by reflexivity. cbv beta zeta.
  by rewrite (parity_test_odd _ Hodd).
Qed.

(** *** [HVAnsatz] *)

Lemma only_gates_count {P} names nm (c : QuantumCircuit P) :
  only_gates names c → nm ∉ names → count_gates nm c = 0%nat.
Proof.
  unfold only_gates, count_gates. intros Hall Hnm.
  induction Hall as [|inst l Hin _ IH]; [reflexivity|].
  rewrite filter_cons. destruct (decide (gate_name (operation inst) = nm)) as [<-|_]; [|exact IH].
  by destruct Hnm.
Qed.

Lemma only_gates_snoc {P} names (c : QuantumCircuit P) gate qs n nm cals :
  only_gates names c → gate_name gate ∈ names →
  only_gates names (mkQuantumCircuit n nm (data c ++ [(gate, qs)]) cals).
Proof.
  unfold only_gates. simpl. intros Hall Hg. apply Forall_app. split; [exact Hall|].
  by apply Forall_singleton.
Qed.

Lemma HVA_new_param_run paramstr s :
  HVAnsatz.new_param paramstr s =
    (Return (mkParam (paramstr +:+ str_nat (length (HVAnsatz._params s)))),
     HVAnsatz.mkSelf
       (HVAnsatz._params s ++ [mkParam (paramstr +:+ str_nat (length (HVAnsatz._params s)))])
       (HVAnsatz._num_qubits s) (HVAnsatz._reps s)).
Proof. reflexivity. Qed.

(** The rotations on a pair of distinct qubits of the circuit are appended,
    with three new parameters. *)
Lemma HVA_rotations_ok paramstr q1 q2 c s :
  0 ≤ q1 < num_qubits c → 0 ≤ q2 < num_qubits c → q1 ≠ q2 →
  ∃ c' s', HVAnsatz.rotations paramstr q1 q2 c s = (Return c', s') ∧
    num_qubits c' = num_qubits c ∧
    data c' = data c ++ pair_rotations paramstr (length (HVAnsatz._params s)) (q1, q2) ∧
    length (HVAnsatz._params s') = (length (HVAnsatz._params s) + 3)%nat.
Proof.
  intros Hq1 Hq2 Hne. unfold HVAnsatz.rotations.
  erewrite bind_Return by apply HVA_new_param_run.
  erewrite bind_Return
    by (apply lift_Return; unfold rzz; apply append_2; [reflexivity | assumption..]).
  erewrite bind_Return by apply HVA_new_param_run.
  erewrite bind_Return
    by (apply lift_Return; unfold ryy; apply append_2; [reflexivity | assumption..]).
  erewrite bind_Return by apply HVA_new_param_run.
  eexists _, _.
  split; [apply lift_Return; unfold rxx; apply append_2; [reflexivity | assumption..]|].
  simpl. rewrite !length_app. simpl.
  split; [reflexivity|]. split; [|lia].
  rewrite <- !app_assoc. simpl. unfold pair_rotations. simpl.
  by replace (length (HVAnsatz._params s) + 1 + 1)%nat
    with (length (HVAnsatz._params s) + 2)%nat by lia.
Qed.

Lemma HVA_rotations_inv n paramstr q1 q2 c s :
  hva_invariant n c → 0 ≤ q1 < n → 0 ≤ q2 < n → q1 ≠ q2 →
  ∃ c' s', HVAnsatz.rotations paramstr q1 q2 c s = (Return c', s') ∧ hva_invariant n c'.
Proof.
  intros [Hn Hg] Hq1 Hq2 Hne.
  destruct (HVA_rotations_ok paramstr q1 q2 c s) as (c' & s' & E & Hn' & Hd & _);
    [lia | lia | done |].
  exists c', s'. split; [exact E|]. split; [lia|].
  unfold only_gates in *. rewrite Hd. apply Forall_app. split; [exact Hg|].
  unfold pair_rotations. repeat apply Forall_cons_2; try apply Forall_nil_2;
    unfold operation; simpl; by_decide.
Qed.

(** The initialisation loop puts an [x] on every qubit and leaves its loop
    variable bound to the last index, [n - 1], when it ran at all. *)
Lemma HVA_initial_state_ok n c s :
  hva_invariant n c →
  ∃ c', HVAnsatz.initial_state n c s = (Return (c', last (range 0 n 1)), s) ∧
        hva_invariant n c'.
Proof.
  intros Hc. unfold HVAnsatz.initial_state.
  destruct (for_in_ind (S:=HVAnsatz.self)
              (λ done (a : QuantumCircuit ParameterExpression * option Z) s',
                 hva_invariant n a.1 ∧ a.2 = last done ∧ s' = s)
              (range 0 n 1)
              (λ i '(ansatz, _), ansatz <- lift (x i ansatz);; ret (ansatz, Some i))
              (c, None) s) as ([c' i'] & s' & E & Hc' & Hi & ->).
  - done.
  - intros done i rest [c0 i0] s0 Hsplit (Hc0 & _ & ->). simpl in Hc0.
    assert (i ∈ range 0 n 1) as Hi.
    { rewrite Hsplit. apply elem_of_app. right. apply elem_of_cons. by left. }
    apply elem_of_range_1 in Hi. destruct Hc0 as [Hn Hg].
    erewrite bind_Return by (apply lift_Return; unfold x; apply append_1; [reflexivity | lia]).
    eexists _, _. split; [reflexivity|]. simpl. rewrite last_snoc.
    split; [|split; reflexivity]. split; [exact Hn|].
    apply only_gates_snoc; [exact Hg|]. simpl. by_decide.
  - simpl in *. subst i'. by exists c'.
Qed.

Lemma last_range_1 n : 0 < n → last (range 0 n 1) = Some (n - 1).
Proof. intros Hn. by rewrite (range_1_snoc n Hn), last_snoc. Qed.

(** When the variable [i] that the Bell-pair loop tests is odd, the loop
    adds nothing, whatever its own variable [j] is. *)
Lemma HVA_bell_state_skips n i c s :
  i `mod` 2 ≠ 0 → HVAnsatz.bell_state n (Some i) c s = (Return c, s).
Proof.
  intros Hi. unfold HVAnsatz.bell_state.
  induction (range 0 n 1) as [|j js IH]; [reflexivity|].
  simpl. erewrite bind_Return; [exact IH|].
  simpl. erewrite bind_Return by reflexivity.
  by destruct (Z.eqb_spec (i `mod` 2) 0).
Qed.

Lemma odd_pred n : n `mod` 2 = 0 → (n - 1) `mod` 2 ≠ 0.
Proof.
  intros Hn. pose proof (Z.div_mod n 2 ltac:(lia)).
  replace (n - 1) with (1 + (n `div` 2 - 1) * 2) by lia.
  rewrite Z.mod_add by lia. done.
Qed.

(** For an even, non-negative qubit count [HVAnsatz.circuit] returns, and
    the circuit holds only [x] gates and two-qubit rotations. *)
Lemma HVA_circuit_even s :
  HVAnsatz._num_qubits s `mod` 2 = 0 → 0 ≤ HVAnsatz._num_qubits s →
  ∃ c s', HVAnsatz.circuit s = (Return c, s') ∧
          hva_invariant (HVAnsatz._num_qubits s) c.
Proof.
  intros Heven Hn. unfold HVAnsatz.circuit.
  erewrite bind_Return by reflexivity. cbv beta zeta.
  rewrite (parity_test_even _ Heven).
  set (n := HVAnsatz._num_qubits s) in *.
  erewrite bind_Return by (apply lift_Return, new_circuit_ok, Hn).
  destruct (HVA_initial_state_ok n (mkQuantumCircuit n (Some "HVA") [] []) s)
    as (c1 & E1 & I1); [split; [reflexivity | apply Forall_nil_2]|].
  erewrite bind_Return by exact E1. cbv beta iota zeta.
  assert (HVAnsatz.bell_state n (last (range 0 n 1)) c1 s = (Return c1, s)) as E2.
  { destruct (decide (n = 0)) as [->|Hn0]; [reflexivity|].
    rewrite last_range_1 by lia. apply HVA_bell_state_skips, odd_pred, Heven. }
  erewrite bind_Return by exact E2.
  pose (I := λ (c : QuantumCircuit ParameterExpression) (_ : HVAnsatz.self),
               hva_invariant n c).
  run_loop I; [exact I1 | |].
  { intros j c' s' _ Hc.
    run_loop I; [exact Hc | |].
    { intros i c'' s'' Hi Hc'. apply elem_of_range_down2 in Hi as [Hi _].
      destruct (Z.ltb_spec i (n - 1)); apply HVA_rotations_inv; try exact Hc'; lia. }
    apply for_in_inv; [exact HI|].
    intros i c'' s'' Hi Hc'. apply elem_of_range_up2 in Hi as [Hi Hie].
    rewrite Z.sub_0_r in Hie. pose proof (even_succ_lt i n Hie Heven ltac:(lia)).
    apply HVA_rotations_inv; try exact Hc'; lia. }
  by eexists _, _.
Qed.

Lemma HVA_circuit_odd s :
  HVAnsatz._num_qubits s `mod` 2 ≠ 0 →
  HVAnsatz.circuit s = (Raise (CircuitError "The number of qubits should be even!"), s).
Proof.
  intros Hodd. unfold HVAnsatz.circuit.
  erewrite bind_Return by reflexivity. cbv beta zeta.
  by rewrite (parity_test_odd _ Hodd).
Qed.

(** ** [custom_ansatz.py]: the claims *)

(** What [RVB(4, 1).circuit()] builds: four eSWAP blocks, on the pairs
    (3,0), (1,2), (0,1), (2,3), each with two parameters of its own. *)
Lemma RVB_circuit_4_1 :
  ∃ c s', RVB.circuit (RVB.__init__ 4 1) = (Return c, s') ∧
    num_qubits c = 4 ∧
    count_gates "eSWAP" c = 4%nat ∧
    qubits <$> filter (λ inst, gate_name (operation inst) = "eSWAP") (data c)
      = [[3; 0]; [1; 2]; [0; 1]; [2; 3]] ∧
    Forall (λ inst, gate_name (operation inst) = "eSWAP" →
                    length (instruction_parameters inst) = 2%nat) (data c) ∧
    length (parameters c) = 8%nat ∧
    NoDup (parameters c) ∧
    RVB._params s' = parameters c.
Proof.
  eexists _, _. split; [vm_compute; reflexivity|].
  split; [vm_compute; reflexivity|].
  split; [vm_compute; reflexivity|].
  split; [vm_compute; reflexivity|].
  split; [apply (bool_decide_unpack _); vm_compute; exact I|].
  split; [vm_compute; reflexivity|].
  split; [apply (bool_decide_unpack _); vm_compute; exact I|].
  vm_compute; reflexivity.
Qed.

(** C1, as stated, fails: the circuit of [RVB] with qubit count 4 and
    repetition count 1 does not hold exactly 3 eSWAP blocks and 6
    parameters. *)
Lemma C1_three_blocks_refuted :
  ¬ (∃ c s', RVB.circuit (RVB.__init__ 4 1) = (Return c, s') ∧
       count_gates "eSWAP" c = 3%nat ∧
       length (parameters c) = 6%nat ∧
       num_qubits c = 4).
Proof.
  intros (c & s' & E & H3 & _).
  destruct RVB_circuit_4_1 as (c0 & s0 & E0 & _ & H4 & _).
  rewrite E0 in E. injection E as -> _. rewrite H4 in H3. discriminate H3.
Qed.

(** C1, amended: for [RVB] with qubit count 4 and repetition count 1,
    [circuit()] returns a circuit on 4 qubits with exactly 4 eSWAP blocks
    (the descending pass on the pairs (3,0) and (1,2), the ascending pass on
    (0,1) and (2,3)) and exactly 8 distinct parameters, 2 per block. *)
Theorem C1_rvb_four_blocks :
  ∃ c s', RVB.circuit (RVB.__init__ 4 1) = (Return c, s') ∧
    num_qubits c = 4 ∧
    count_gates "eSWAP" c = 4%nat ∧
    qubits <$> filter (λ inst, gate_name (operation inst) = "eSWAP") (data c)
      = [[3; 0]; [1; 2]; [0; 1]; [2; 3]] ∧
    Forall (λ inst, gate_name (operation inst) = "eSWAP" →
                    length (instruction_parameters inst) = 2%nat) (data c) ∧
    length (parameters c) = (2 * count_gates "eSWAP" c)%nat ∧
    length (parameters c) = 8%nat ∧
    NoDup (parameters c).
Proof.
  destruct RVB_circuit_4_1 as (c & s' & E & Hn & H4 & Hq & H2 & H8 & Hnd & _).
  exists c, s'.
  split; [exact E|]. split; [exact Hn|]. split; [exact H4|]. split; [exact Hq|].
  split; [exact H2|]. split; [|split; [exact H8 | exact Hnd]].
  transitivity 8%nat; [exact H8|]. apply (f_equal (Nat.mul 2)) in H4. symmetry. exact H4.
Qed.

(** C3: in [HVAnsatz.circuit] the Bell-pair loop tests the variable [i] that
    the initialisation loop left at [n - 1], not its own variable [j]; so for
    every even qubit count [n ≥ 2] the loop adds nothing, and the circuit
    returned holds no Hadamard and no CNOT gate. *)
Theorem C3_bell_pairs_never_built (s : HVAnsatz.self) :
  HVAnsatz._num_qubits s `mod` 2 = 0 → 2 ≤ HVAnsatz._num_qubits s →
  let n := HVAnsatz._num_qubits s in
  (∃ c1, HVAnsatz.initial_state n (mkQuantumCircuit n (Some "HVA") [] []) s
         = (Return (c1, Some (n - 1)), s)) ∧
  (∀ c s0, HVAnsatz.bell_state n (Some (n - 1)) c s0 = (Return c, s0)) ∧
  (∃ c s', HVAnsatz.circuit s = (Return c, s') ∧
           count_gates "h" c = 0%nat ∧ count_gates "cx" c = 0%nat).
Proof.
  intros Heven Hn n. split; [|split].
  - destruct (HVA_initial_state_ok n (mkQuantumCircuit n (Some "HVA") [] []) s)
      as (c1 & E1 & _); [split; [reflexivity | apply Forall_nil_2]|].
    exists c1. rewrite E1. by rewrite last_range_1 by (unfold n; lia).
  - intros c s0. apply HVA_bell_state_skips, odd_pred, Heven.
  - destruct (HVA_circuit_even s Heven ltac:(lia)) as (c & s' & E & _ & Hg).
    exists c, s'. split; [exact E|].
    split; apply (only_gates_count _ _ _ Hg); by_decide.
Qed.

Lemma C3_bell_pairs_never_built_witness :
  ∃ c s', HVAnsatz.circuit (HVAnsatz.__init__ 4 1) = (Return c, s') ∧
          count_gates "h" c = 0%nat ∧ count_gates "cx" c = 0%nat.
Proof.
  apply (C3_bell_pairs_never_built (HVAnsatz.__init__ 4 1)); [reflexivity | simpl; lia].
Defined.

(** C4: for every even qubit count [RVB.circuit()] and [HVAnsatz.circuit()]
    return a circuit; for every odd qubit count both raise the
    [CircuitError] of the parity guard, before a circuit is made or a
    parameter created. *)
Theorem C4_even_builds_odd_raises (r : RVB.self) (v : HVAnsatz.self) :
  (RVB._num_qubits r `mod` 2 = 0 → 0 ≤ RVB._num_qubits r →
     ∃ c r', RVB.circuit r = (Return c, r') ∧ num_qubits c = RVB._num_qubits r) ∧
  (HVAnsatz._num_qubits v `mod` 2 = 0 → 0 ≤ HVAnsatz._num_qubits v →
     ∃ c v', HVAnsatz.circuit v = (Return c, v') ∧ num_qubits c = HVAnsatz._num_qubits v) ∧
  (RVB._num_qubits r `mod` 2 ≠ 0 →
     RVB.circuit r = (Raise (CircuitError "The number of qubits should be even!"), r)) ∧
  (HVAnsatz._num_qubits v `mod` 2 ≠ 0 →
     HVAnsatz.circuit v = (Raise (CircuitError "The number of qubits should be even!"), v)).
Proof.
  split; [|split; [|split]].
  - apply RVB_circuit_even.
  - intros Heven Hn. destruct (HVA_circuit_even v Heven Hn) as (c & v' & E & Hc & _).
    by exists c, v'.
  - apply RVB_circuit_odd.
  - apply HVA_circuit_odd.
Qed.

Lemma C4_even_builds_odd_raises_witness :
  (∃ c r', RVB.circuit (RVB.__init__ 6 2) = (Return c, r') ∧ num_qubits c = 6) ∧
  (∃ c v', HVAnsatz.circuit (HVAnsatz.__init__ 6 2) = (Return c, v') ∧ num_qubits c = 6) ∧
  RVB.circuit (RVB.__init__ 5 2)
    = (Raise (CircuitError "The number of qubits should be even!"), RVB.__init__ 5 2) ∧
  HVAnsatz.circuit (HVAnsatz.__init__ 5 2)
    = (Raise (CircuitError "The number of qubits should be even!"), HVAnsatz.__init__ 5 2).
Proof.
  split; [|split; [|split]].
  - apply (C4_even_builds_odd_raises (RVB.__init__ 6 2) (HVAnsatz.__init__ 6 2));
      [reflexivity | simpl; lia].
  - apply (C4_even_builds_odd_raises (RVB.__init__ 6 2) (HVAnsatz.__init__ 6 2));
      [reflexivity | simpl; lia].
  - apply (C4_even_builds_odd_raises (RVB.__init__ 5 2) (HVAnsatz.__init__ 5 2)).
    simpl. discriminate.
  - apply (C4_even_builds_odd_raises (RVB.__init__ 5 2) (HVAnsatz.__init__ 5 2)).
    simpl. discriminate.
Defined.

(** C5: for [HVAnsatz] with qubit count 4 and repetition count 1, the odd
    layer visits the pairs (3,0), (1,2) and the even layer the pairs (0,1),
    (2,3); each visited pair receives its [rzz], [ryy], [rxx] with three
    parameters created for it, [phi0..phi5] in the odd layer and
    [gamma6..gamma11] in the even layer. *)
Theorem C5_hva_three_parameters_per_pair :
  ∃ c s', HVAnsatz.circuit (HVAnsatz.__init__ 4 1) = (Return c, s') ∧
    odd_layer_pairs 4 = [(3, 0); (1, 2)] ∧
    even_layer_pairs 4 = [(0, 1); (2, 3)] ∧
    data c = ((λ i, (mkGate "x" 1 [] [], [i])) <$> range 0 4 1)
             ++ layer_rotations "phi" 0 (odd_layer_pairs 4)
             ++ layer_rotations "gamma" (3 * length (odd_layer_pairs 4))
                  (even_layer_pairs 4) ∧
    name <$> HVAnsatz._params s'
      = indexed_names (replicate (3 * length (odd_layer_pairs 4)) "phi"
                       ++ replicate (3 * length (even_layer_pairs 4)) "gamma") ∧
    parameters c = merge_sort name_le (HVAnsatz._params s') ∧
    NoDup (HVAnsatz._params s').
Proof.
  eexists _, _. split; [vm_compute; reflexivity|].
  split; [vm_compute; reflexivity|].
  split; [vm_compute; reflexivity|].
  split; [vm_compute; reflexivity|].
  split; [vm_compute; reflexivity|].
  split; [vm_compute; reflexivity|].
  apply (bool_decide_unpack _); vm_compute; exact I.
Qed.

(** ** Parameter names *)

Section Digits.

Lemma append_nil_l d : "" +:+ d = d.
Proof. reflexivity. Qed.

Lemma append_cons c p d : String c p +:+ d = String c (p +:+ d).
Proof. reflexivity. Qed.

Lemma append_nil_r d : d +:+ "" = d.
Proof. induction d as [|c d IHd]; [done|]. by rewrite append_cons, IHd. Qed.

Lemma append_assoc p q r : p +:+ q +:+ r = (p +:+ q) +:+ r.
Proof.
  induction p as [|c p IHp]; [done|]. by rewrite !append_cons, IHp.
Qed.

Lemma all_digits_app p d :
  all_digits (p +:+ d) = all_digits p && all_digits d.
Proof.
  induction p as [|c p IH]; [done|].
  rewrite append_cons. simpl. by rewrite IH, andb_assoc.
Qed.

Lemma is_digit_pretty_N_char x : is_digit (pretty_N_char x) = true.
Proof. unfold pretty_N_char. by repeat case_match. Qed.

Lemma pretty_N_go_digits x s :
  ∃ d, pretty_N_go x s = d +:+ s ∧ all_digits d = true ∧ ((0 < x)%N → d ≠ "").
Proof.
  revert s. induction (N.lt_wf_0 x) as [x _ IH]. intros s.
  destruct (decide (x = 0%N)) as [->|Hx].
  - exists "". rewrite pretty_N_go_0. split; [done|]. split; [done|]. lia.
  - rewrite pretty_N_go_step by lia.
    pose proof (is_digit_pretty_N_char (x `mod` 10)) as Hch.
    set (ch := pretty_N_char (x `mod` 10)) in *. clearbody ch.
    destruct (IH (x `div` 10)%N ltac:(apply N.div_lt; lia) (String ch s))
      as (d & -> & Hd & _).
    exists (d +:+ String ch "").
    split; [|split].
    + by rewrite <- append_assoc.
    + rewrite all_digits_app, Hd. simpl. by rewrite Hch.
    + intros _. by destruct d.
Qed.

(** [str] of a natural number is a non-empty string of digits. *)
Lemma str_nat_digits k : all_digits (str_nat k) = true ∧ str_nat k ≠ "".
Proof.
  unfold str_nat, pretty, pretty_nat, pretty, pretty_N.
  destruct (decide (N.of_nat k = 0%N)) as [_|Hk]; [done|].
  destruct (pretty_N_go_digits (N.of_nat k) "") as (d & -> & Hd & Hne).
  rewrite append_nil_r.
  split; [exact Hd | apply Hne; lia].
Qed.

Lemma all_digits_ends_in_digit p :
  all_digits p = true → p ≠ "" → ends_in_digit p = true.
Proof.
  induction p as [|c p IH]; [done|]. simpl.
  intros [Hc Hp]%andb_true_iff _. destruct p as [|c' p]; [exact Hc|].
  by apply IH.
Qed.

Lemma ends_in_digit_tail c p : ends_in_digit (String c p) = false → ends_in_digit p = false.
Proof. destruct p as [|c' p]; [done|]. simpl. done. Qed.

(** A prefix that does not end in a digit is recovered from the name: the
    name splits in one way only into such a prefix and a number. *)
Lemma prefix_digits_unique p1 p2 d1 d2 :
  ends_in_digit p1 = false → ends_in_digit p2 = false →
  all_digits d1 = true → all_digits d2 = true →
  p1 +:+ d1 = p2 +:+ d2 → p1 = p2 ∧ d1 = d2.
Proof.
  revert p2. induction p1 as [|c1 p1 IH]; intros [|c2 p2] H1 H2 Hd1 Hd2 Heq.
  - done.
  - rewrite append_nil_l in Heq. subst d1.
    rewrite all_digits_app in Hd1. apply andb_true_iff in Hd1 as [Hd1 _].
    rewrite (all_digits_ends_in_digit _ Hd1 ltac:(done)) in H2. done.
  - rewrite append_nil_l in Heq. subst d2.
    rewrite all_digits_app in Hd2. apply andb_true_iff in Hd2 as [Hd2 _].
    rewrite (all_digits_ends_in_digit _ Hd2 ltac:(done)) in H1. done.
  - rewrite !append_cons in Heq. injection Heq as -> Heq.
    destruct (IH p2 (ends_in_digit_tail _ _ H1) (ends_in_digit_tail _ _ H2) Hd1 Hd2 Heq)
      as [-> ->].
    done.
Qed.

Lemma indexed_name_inj p1 p2 k1 k2 :
  ends_in_digit p1 = false → ends_in_digit p2 = false →
  p1 +:+ str_nat k1 = p2 +:+ str_nat k2 → p1 = p2 ∧ k1 = k2.
Proof.
  intros H1 H2 Heq.
  destruct (prefix_digits_unique p1 p2 (str_nat k1) (str_nat k2) H1 H2
              (proj1 (str_nat_digits k1)) (proj1 (str_nat_digits k2)) Heq) as [-> Hk].
  split; [done|]. unfold str_nat in Hk. by apply (inj pretty) in Hk.
Qed.

(** With the same prefix, different indices give different names. *)
Lemma same_prefix_name_inj p k1 k2 : p +:+ str_nat k1 = p +:+ str_nat k2 → k1 = k2.
Proof.
  intros Heq. apply (inj (String.append p)) in Heq. unfold str_nat in Heq.
  by apply (inj pretty) in Heq.
Qed.

Lemma indexed_names_lookup prefixes k :
  indexed_names prefixes !! k = (λ p, p +:+ str_nat k) <$> prefixes !! k.
Proof. unfold indexed_names. apply list_lookup_imap. Qed.

Lemma indexed_names_NoDup prefixes :
  Forall (λ p, ends_in_digit p = false) prefixes → NoDup (indexed_names prefixes).
Proof.
  intros Hall. apply NoDup_alt. intros i j nm Hi Hj.
  rewrite indexed_names_lookup in Hi, Hj.
  destruct (prefixes !! i) as [p1|] eqn:E1; [|done].
  destruct (prefixes !! j) as [p2|] eqn:E2; [|done].
  simpl in Hi, Hj. injection Hi as <-. injection Hj as Hj.
  rewrite Forall_lookup in Hall.
  by destruct (indexed_name_inj p2 p1 j i (Hall _ _ E2) (Hall _ _ E1) Hj) as [_ ->].
Qed.

Lemma indexed_names_NoDup_same_prefix p prefixes :
Forall (λ q, q = p) prefixes → NoDup (indexed_names prefixes).
Proof.
intros Hall. apply NoDup_alt. intros i j nm Hi Hj.
rewrite indexed_names_lookup in Hi, Hj.
destruct (prefixes !! i) as [p1|] eqn:E1; [|done].
destruct (prefixes !! j) as [p2|] eqn:E2; [|done].
simpl in Hi, Hj. injection Hi as <-. injection Hj as Hj.
rewrite Forall_lookup in Hall.
rewrite (Hall _ _ E1), (Hall _ _ E2) in Hj.
symmetry. by apply (same_prefix_name_inj p).
Qed.

End Digits.

(** A sequence of [new_param] calls on any builder whose [new_param] names
    its parameter [prefix + len(_params)] and appends it to [_params]. *)
Section NewParams.
Context {S : Type} (params_of : S → list Param) (new_param : string → M S Param).
Hypothesis new_param_run : ∀ paramstr s, ∃ s',
  new_param paramstr s
    = (Return (mkParam (paramstr +:+ str_nat (length (params_of s)))), s') ∧
  params_of s' = params_of s ++ [mkParam (paramstr +:+ str_nat (length (params_of s)))].

Lemma new_params_run prefixes s :
  ∃ ps s', new_params new_param prefixes s = (Return ps, s') ∧
    name <$> ps = imap (λ k p, p +:+ str_nat (length (params_of s) + k)) prefixes ∧
    params_of s' = params_of s ++ ps.
Proof.
  unfold new_params.
  apply (for_in_ind
           (λ done created s1,
              name <$> created
                = imap (λ k p, p +:+ str_nat (length (params_of s) + k)) done ∧
              params_of s1 = params_of s ++ created)).
  - split; [reflexivity | by rewrite app_nil_r].
  - intros done paramstr rest created s1 _ [Hnames Hparams].
    destruct (new_param_run paramstr s1) as (s2 & E & Hs2).
    erewrite bind_Return by exact E.
    eexists _, _. split; [reflexivity|].
    assert (length created = length done) as Hlen.
    { apply (f_equal length) in Hnames. by rewrite length_fmap, length_imap in Hnames. }
    split.
    + rewrite fmap_app, imap_app, Hnames. simpl.
      by rewrite Hparams, length_app, Hlen, Nat.add_0_r.
    + rewrite Hs2, Hparams, <- app_assoc. reflexivity.
Qed.

(** From a builder without parameters the names are [prefix + index]. *)
Lemma new_params_fresh prefixes s :
  params_of s = [] →
  ∃ ps s', new_params new_param prefixes s = (Return ps, s') ∧
    name <$> ps = indexed_names prefixes ∧ params_of s' = ps.
Proof.
  intros Hs. destruct (new_params_run prefixes s) as (ps & s' & E & Hnames & Hps).
  exists ps, s'. rewrite Hs in *. split; [exact E|]. split; [|exact Hps].
  rewrite Hnames. unfold indexed_names. apply imap_ext. intros k p _. reflexivity.
Qed.
End NewParams.

Lemma AnsatzBuilder_new_param_run paramstr s :
  AnsatzBuilder.new_param paramstr s =
    (Return (mkParam (paramstr +:+ str_nat (length (AnsatzBuilder._params s)))),
     AnsatzBuilder.set_params
       (AnsatzBuilder._params s
          ++ [mkParam (paramstr +:+ str_nat (length (AnsatzBuilder._params s)))]) s).
Proof. reflexivity. Qed.

(** C8, as stated, fails: a prefix may end in a digit.  On one [RVB]
    instance, [new_param("phi1")] followed by ten calls [new_param("phi")]
    hands out the name [phi10] twice, to the first parameter and to the
    last. *)
Lemma C8_names_collide :
  ∃ ps s',
    new_params RVB.new_param ("phi1" :: replicate 10 "phi") (RVB.__init__ 4 1)
      = (Return ps, s') ∧
    name <$> ps !! 0%nat = Some "phi10" ∧
    name <$> ps !! 10%nat = Some "phi10" ∧
    ¬ NoDup (name <$> ps).
Proof.
  eexists _, _. split; [vm_compute; reflexivity|].
  split; [vm_compute; reflexivity|].
  split; [vm_compute; reflexivity|].
  intros Hnd. rewrite NoDup_alt in Hnd.
  specialize (Hnd 0%nat 10%nat "phi10"). simpl in Hnd.
  assert (0 = 10)%nat as Habs by (apply Hnd; vm_compute; reflexivity).
  discriminate Habs.
Qed.

(** C8, amended: on one builder instance ([RVB], [HVAnsatz] or
    [AnsatzBuilder]) the name that [new_param] generates is the given prefix
    followed by the number of parameters created before it; the names are
    pairwise distinct when every call passes the same prefix, and when no
    prefix passed ends in a decimal digit, as is the case of the prefixes
    the repository uses. *)
Theorem C8_names_prefix_index (prefixes : list string)
    (r : RVB.self) (v : HVAnsatz.self) (b : AnsatzBuilder.self) :
  RVB._params r = [] → HVAnsatz._params v = [] → AnsatzBuilder._params b = [] →
  (∃ ps r', new_params RVB.new_param prefixes r = (Return ps, r') ∧
            name <$> ps = indexed_names prefixes ∧ RVB._params r' = ps) ∧
  (∃ ps v', new_params HVAnsatz.new_param prefixes v = (Return ps, v') ∧
            name <$> ps = indexed_names prefixes ∧ HVAnsatz._params v' = ps) ∧
  (∃ ps b', new_params AnsatzBuilder.new_param prefixes b = (Return ps, b') ∧
            name <$> ps = indexed_names prefixes ∧ AnsatzBuilder._params b' = ps) ∧
  (∀ k paramstr, prefixes !! k = Some paramstr →
     indexed_names prefixes !! k = Some (paramstr +:+ str_nat k)) ∧
  (∀ p, Forall (λ q, q = p) prefixes → NoDup (indexed_names prefixes)) ∧
  (Forall (λ p, ends_in_digit p = false) prefixes → NoDup (indexed_names prefixes)) ∧
  Forall (λ p, ends_in_digit p = false) ["phi"; "gamma"; "t"; "p"].
Proof.
  intros Hr Hv Hb. split; [|split; [|split; [|split; [|split; [|split]]]]].
  - apply (new_params_fresh RVB._params); [|exact Hr].
    intros paramstr s. eexists. split; [apply RVB_new_param_run | reflexivity].
  - apply (new_params_fresh HVAnsatz._params); [|exact Hv].
    intros paramstr s. eexists. split; [apply HVA_new_param_run | reflexivity].
  - apply (new_params_fresh AnsatzBuilder._params); [|exact Hb].
    intros paramstr s. eexists. split; [apply AnsatzBuilder_new_param_run | reflexivity].
  - intros k paramstr Hk. by rewrite indexed_names_lookup, Hk.
  - intros p. apply indexed_names_NoDup_same_prefix.
  - apply indexed_names_NoDup.
  - by repeat apply Forall_cons_2.
Qed.

Lemma C8_names_prefix_index_witness :
  (∃ ps r', new_params RVB.new_param ["phi"; "gamma"; "phi"] (RVB.__init__ 4 1)
              = (Return ps, r') ∧
            name <$> ps = ["phi0"; "gamma1"; "phi2"] ∧ RVB._params r' = ps) ∧
  NoDup (indexed_names ["phi"; "gamma"; "phi"]).
Proof.
  destruct (C8_names_prefix_index ["phi"; "gamma"; "phi"] (RVB.__init__ 4 1)
              (HVAnsatz.__init__ 4 1)
              (AnsatzBuilder.__init__
                 (AnsatzBuilder.mkBackend None None (λ _, Raise (BackendError "")))
                 [] None (Qc_of_Z 800))
              eq_refl eq_refl eq_refl) as (Hrvb & _ & _ & _ & _ & Hnodup & _).
  split; [exact Hrvb|]. apply Hnodup. by repeat apply Forall_cons_2.
Defined.

(** ** [heisenberg_model.py]: the claim *)

Section Heisenberg.
Context {W : Type}.
Import HeisenbergModel.

(** The loop over the edges appends the terms of each edge, in order. *)
Lemma foldl_kinetic_term (ham : list (string * W)) edges :
  foldl kinetic_term ham edges = ham ++ flat_map edge_terms edges.
Proof.
  revert ham. induction edges as [|[[a b] w] edges IH]; intros ham; simpl.
  - by rewrite app_nil_r.
  - rewrite IH. unfold kinetic_term, edge_terms.
    destruct (decide (a = b)); by rewrite <- ?app_assoc.
Qed.

Lemma length_flat_map_edge_terms (edges : list (Z * Z * W)) :
  length (flat_map edge_terms edges)
    = (length (filter (λ e, e.1.1 = e.1.2) edges)
       + 3 * length (filter (λ e, e.1.1 ≠ e.1.2) edges))%nat.
Proof.
  induction edges as [|[[a b] w] edges IH]; [reflexivity|].
  simpl. rewrite length_app, IH, !filter_cons. unfold edge_terms. simpl.
  destruct (decide (a = b)) as [Hab|Hab].
  - rewrite decide_False by (intros Hne; by apply Hne). simpl. lia.
  - rewrite decide_True by done. simpl. lia.
Qed.

End Heisenberg.

(** C6: [second_q_ops] turns the weighted edges of the lattice, in order,
    into the terms of the Hamiltonian: a self-loop [(a, a, w)] gives the one
    term [X_a] with coefficient [w], an edge [(a, b, w)] between distinct
    nodes gives the three terms [X_a X_b], [Y_a Y_b], [Z_a Z_b], each with
    coefficient [w]; there are no other terms. *)
Theorem C6_heisenberg_terms {W : Type} (lattice : HeisenbergModel.Lattice W) :
  let edges := HeisenbergModel.weighted_edge_list lattice in
  HeisenbergModel.second_q_ops (HeisenbergModel.mkSelf lattice) None
    = Return (HeisenbergModel.mkSpinOp
                (flat_map HeisenbergModel.edge_terms edges)
                (1 / Qc_of_Z 2)%Qc (HeisenbergModel.num_nodes lattice)) ∧
  (∀ a (w : W), HeisenbergModel.edge_terms (a, a, w) = [("X_" +:+ str a, w)]) ∧
  (∀ a b (w : W), a ≠ b →
     HeisenbergModel.edge_terms (a, b, w)
       = [("X_" +:+ str a +:+ " X_" +:+ str b, w);
          ("Y_" +:+ str a +:+ " Y_" +:+ str b, w);
          ("Z_" +:+ str a +:+ " Z_" +:+ str b, w)]) ∧
  length (flat_map HeisenbergModel.edge_terms edges)
    = (length (filter (λ e, e.1.1 = e.1.2) edges)
       + 3 * length (filter (λ e, e.1.1 ≠ e.1.2) edges))%nat.
Proof.
  intros edges. split; [|split; [|split]].
  - unfold HeisenbergModel.second_q_ops. simpl.
    by rewrite foldl_kinetic_term.
  - intros a w. unfold HeisenbergModel.edge_terms. by rewrite decide_True.
  - intros a b w Hab. unfold HeisenbergModel.edge_terms. by rewrite decide_False.
  - apply length_flat_map_edge_terms.
Qed.

Lemma C6_heisenberg_terms_witness :
  HeisenbergModel.second_q_ops
    (HeisenbergModel.mkSelf (HeisenbergModel.mkLattice [(0, 0, 5); (0, 1, 7)] 2)) None
    = Return (HeisenbergModel.mkSpinOp
                [("X_0", 5); ("X_0 X_1", 7); ("Y_0 Y_1", 7); ("Z_0 Z_1", 7)]
                (1 / Qc_of_Z 2)%Qc 2) ∧
  HeisenbergModel.edge_terms (0, 1, 7)
    = [("X_0 X_1", 7); ("Y_0 Y_1", 7); ("Z_0 Z_1", 7)].
Proof.
  destruct (C6_heisenberg_terms (HeisenbergModel.mkLattice [(0, 0, 5); (0, 1, 7)] 2))
    as (Hrun & _ & Hcross & _).
  split; [exact Hrun|]. apply (Hcross 0 1 7). discriminate.
Defined.

(** A call with a display format never reaches the loop: the name [logger]
    of the warning is not defined in the module. *)
Lemma second_q_ops_display_format {W : Type} (this : HeisenbergModel.self W) fmt :
  HeisenbergModel.second_q_ops this (Some fmt)
    = Raise (NameError "name 'logger' is not defined").
Proof. reflexivity. Qed.

(** ** [pulse_ansatz.py]: parameter lookup and the wrapper config *)

Section ParamIdx.
Import AnsatzBuilder.

Lemma first_index_here {A} (l : list A) a : first_index (a :: l) a 0.
Proof. split; [reflexivity | intros j Hj; lia]. Qed.

Lemma first_index_head {A} (l : list A) a k : first_index (a :: l) a k → k = 0%nat.
Proof.
  intros [_ Hfirst]. destruct k as [|k]; [reflexivity|].
  by destruct (Hfirst 0%nat ltac:(lia)).
Qed.

Lemma first_index_later {A} (l : list A) a c k :
  c ≠ a → first_index (c :: l) a k ↔ ∃ k', k = Datatypes.S k' ∧ first_index l a k'.
Proof.
  intros Hne. split.
  - intros [Hk Hfirst]. destruct k as [|k]; [simpl in Hk; congruence|].
    exists k. split; [reflexivity|]. split; [exact Hk|].
    intros j Hj. apply (Hfirst (Datatypes.S j)). lia.
  - intros (k' & -> & Hk & Hfirst). split; [exact Hk|].
    intros [|j] Hj; simpl; [congruence|]. apply Hfirst. lia.
Qed.

Lemma first_index_unique {A} (l : list A) a k1 k2 :
  first_index l a k1 → first_index l a k2 → k1 = k2.
Proof.
  intros [H1 F1] [H2 F2].
  destruct (Nat.lt_trichotomy k1 k2) as [Hlt|[Heq|Hlt]]; [|exact Heq|].
  - by destruct (F2 k1 Hlt).
  - by destruct (F1 k2 Hlt).
Qed.

Lemma first_index_elem_of {A} (l : list A) a k : first_index l a k → a ∈ l.
Proof. intros [Hk _]. by apply list_elem_of_lookup_2 in Hk. Qed.

(** The loop returns the position of the first parameter equal to
    [param], counted from [idx], and falls through when there is none. *)
Lemma _param_idx_loop_Some idx circ_params param found :
  _param_idx_loop idx circ_params param = Some found ↔
  ∃ k, found = (idx + k)%nat ∧ first_index circ_params param k.
Proof.
  revert idx. induction circ_params as [|c rest IH]; intros idx; simpl.
  - split; [discriminate|]. by intros (k & _ & [Hk _]).
  - destruct (decide (c = param)) as [->|Hne].
    + split.
      * intros [= <-]. exists 0%nat. split; [lia | apply first_index_here].
      * intros (k & -> & Hk). apply first_index_head in Hk as ->. f_equal. lia.
    + rewrite IH. split.
      * intros (k & -> & Hk). exists (Datatypes.S k). split; [lia|].
        apply first_index_later; [exact Hne|]. by exists k.
      * intros (k & -> & Hk). apply first_index_later in Hk as (k' & -> & Hk'); [|exact Hne].
        exists k'. split; [lia | exact Hk'].
Qed.

Lemma _param_idx_loop_None idx circ_params param :
  _param_idx_loop idx circ_params param = None ↔ param ∉ circ_params.
Proof.
  revert idx. induction circ_params as [|c rest IH]; intros idx; simpl.
  - split; [intros _; apply not_elem_of_nil | done].
  - destruct (decide (c = param)) as [->|Hne].
    + split; [discriminate|]. intros Hnot. destruct Hnot. apply elem_of_cons. by left.
    + rewrite IH, not_elem_of_cons. split; [by intros ? | by intros [_ ?]].
Qed.

Lemma _param_idx_Return circuit param idx :
  _param_idx circuit param = Return idx ↔ first_index (parameters circuit) param idx.
Proof.
  unfold _param_idx.
  destruct (_param_idx_loop 0 (parameters circuit) param) as [found|] eqn:E.
  - apply _param_idx_loop_Some in E as (k & -> & Hk). simpl. split.
    + by intros [= <-].
    + intros Hidx. f_equal. apply (first_index_unique _ _ _ _ Hk Hidx).
  - split; [discriminate|]. intros Hidx.
    apply _param_idx_loop_None in E. by apply first_index_elem_of in Hidx.
Qed.

Lemma _param_idx_Raise circuit param e :
  _param_idx circuit param = Raise e ↔
  (param ∉ parameters circuit) ∧
  e = ValueError ("Parameter " +:+ name param +:+ " not found in " +:+
                  repr_parameters (parameters circuit) +:+ ".").
Proof.
  unfold _param_idx.
  destruct (_param_idx_loop 0 (parameters circuit) param) as [found|] eqn:E.
  - split; [discriminate|]. intros [Hnot _].
    apply _param_idx_loop_Some in E as (k & _ & Hk). by apply first_index_elem_of in Hk.
  - apply _param_idx_loop_None in E. split.
    + by intros [= <-].
    + by intros [_ ->].
Qed.

End ParamIdx.

(** C9: [_param_idx] returns the position of the given parameter in the
    circuit's parameter list when the parameter is there, and raises a
    [ValueError] exactly when it is not. *)
Theorem C9_param_idx (circuit : QuantumCircuit GateParam) (param : Param) :
  (∀ idx, AnsatzBuilder._param_idx circuit param = Return idx ↔
          first_index (parameters circuit) param idx) ∧
  ((param ∈ parameters circuit) ↔
     (∃ idx, AnsatzBuilder._param_idx circuit param = Return idx)) ∧
  ((param ∉ parameters circuit) ↔
     (∃ msg, AnsatzBuilder._param_idx circuit param = Raise (ValueError msg))).
Proof.
  split; [|split].
  - intros idx. apply _param_idx_Return.
  - split.
    + intros Hin. destruct (AnsatzBuilder._param_idx circuit param) as [idx|e] eqn:E.
      * by exists idx.
      * apply _param_idx_Raise in E as [Hnot _]. by destruct Hnot.
    + intros [idx E]. apply _param_idx_Return in E. by apply first_index_elem_of in E.
  - split.
    + intros Hnot. eexists. apply _param_idx_Raise. split; [exact Hnot | reflexivity].
    + intros [msg E]. by apply _param_idx_Raise in E as [Hnot _].
Qed.

Section WrapperConfig.
Import AnsatzBuilder.

Lemma _get_control_channel_config qs s :
  wrapper_config (_get_control_channel qs s).2 = wrapper_config s.
Proof.
  assert (∀ s0, wrapper_config (self_made_channel qs s0).2 = wrapper_config s0) as Hmade.
  { intros s0. unfold self_made_channel, bind, get, put, ret, raise. simpl.
    destruct (decide (_control_channels s0 !! qs = None)); simpl;
      by repeat case_match. }
  unfold _get_control_channel, bind, get, lift. simpl.
  destruct (backend_control_channel (_backend s)) as [f|].
  - destruct (f qs) as [chans|e]; [|done]. by destruct (subscript chans 0).
  - destruct (backend_configuration (_backend s)) as [[cc|]|]; [|apply Hmade..].
    destruct (cc !! qs) as [chans|]; [|apply Hmade].
    by destruct (subscript chans 0).
Qed.

(** The wrapper config after [add_rx_schedule]: one entry more, keyed by
    [_param_idx], when the amplitude is a parameter of the circuit. *)
Lemma add_rx_schedule_config params pqubits circuit s :
  wrapper_config (add_rx_schedule params pqubits circuit s).2 =
    match params !! 0%nat with
    | Some (Symbol p) =>
        match _param_idx circuit p with
        | Return idx => <[idx := sin_wrapper ("amp[" +:+ name p +:+ "]")]> (wrapper_config s)
        | Raise _ => wrapper_config s
        end
    | _ => wrapper_config s
    end.
Proof.
  unfold add_rx_schedule, subscript, bind, lift, get, put, ret.
  destruct (params !! 0%nat) as [[v|p]|]; simpl; [| |done].
  - destruct (backend_x_pulse (_backend s) pqubits) as [[[d sg] bt]|e]; [|done].
    by destruct (pqubits !! 0%nat).
  - destruct (_param_idx circuit p) as [idx|e]; [|done]. simpl.
    destruct (backend_x_pulse (_backend s) pqubits) as [[[d sg] bt]|e]; [|done].
    by destruct (pqubits !! 0%nat).
Qed.

(** The amplitude step of [add_cr_schedule] and what follows it. *)
Lemma add_cr_schedule_config params pqubits circuit s :
  wrapper_config (add_cr_schedule params pqubits circuit s).2 =
    let after_duration :=
      match params !! 0%nat with
      | Some (Symbol p) =>
          match _param_idx circuit p with
          | Return idx =>
              Some (<[idx := sin_duration_wrapper (_max_duration s)
                               ("dur[" +:+ name p +:+ "]")]> (wrapper_config s))
          | Raise _ => None
          end
      | Some (Number _) => Some (wrapper_config s)
      | None => None
      end in
    match after_duration with
    | None => wrapper_config s
    | Some wc =>
        match params !! 1%nat with
        | Some (Symbol p) =>
            match _param_idx circuit p with
            | Return idx => <[idx := sin_wrapper ("amp[" +:+ name p +:+ "]")]> wc
            | Raise _ => wc
            end
        | _ => wc
        end
    end.
Proof.
  unfold add_cr_schedule, subscript, bind, lift, get, put, ret.
  destruct (params !! 0%nat) as [[v0|p0]|]; [| |reflexivity];
    [|destruct (_param_idx circuit p0) as [idx0|e0]; [|reflexivity]];
    (destruct (params !! 1%nat) as [[v1|p1]|]; [| |reflexivity];
     [|destruct (_param_idx circuit p1) as [idx1|e1]; [|reflexivity]]);
    cbn -[_get_control_channel];
    match goal with
    | |- context [_get_control_channel ?q ?st] =>
        pose proof (_get_control_channel_config q st) as Hcc;
        destruct (_get_control_channel q st) as [[chan|e] s2]
    end; exact Hcc.
Qed.

End WrapperConfig.

(** C7: an entry that [add_rx_schedule] or [add_cr_schedule] records for a
    symbolic parameter is stored under the index of that parameter in
    [circuit.parameters] as it is when the entry is recorded; and for a
    symbolic parameter of the circuit the entry is recorded. *)
Theorem C7_wrapper_key_is_param_index
    (params : list GateParam) (pqubits : list Z) (circuit : QuantumCircuit GateParam)
    (s : AnsatzBuilder.self) :
  let before := AnsatzBuilder.wrapper_config s in
  let after_rx :=
    AnsatzBuilder.wrapper_config (AnsatzBuilder.add_rx_schedule params pqubits circuit s).2 in
  let after_cr :=
    AnsatzBuilder.wrapper_config (AnsatzBuilder.add_cr_schedule params pqubits circuit s).2 in
  let amp p := AnsatzBuilder.sin_wrapper ("amp[" +:+ name p +:+ "]") in
  let dur p :=
    AnsatzBuilder.sin_duration_wrapper (AnsatzBuilder._max_duration s)
      ("dur[" +:+ name p +:+ "]") in
  (∀ k e, after_rx !! k = Some e →
     before !! k = Some e ∨
     ∃ p, params !! 0%nat = Some (Symbol p) ∧
          first_index (parameters circuit) p k ∧ e = amp p) ∧
  (∀ k e, after_cr !! k = Some e →
     before !! k = Some e ∨
     (∃ p, params !! 0%nat = Some (Symbol p) ∧
           first_index (parameters circuit) p k ∧ e = dur p) ∨
     (∃ p, params !! 1%nat = Some (Symbol p) ∧
           first_index (parameters circuit) p k ∧ e = amp p)) ∧
  (∀ p k, params !! 0%nat = Some (Symbol p) → first_index (parameters circuit) p k →
     after_rx = <[k := amp p]> before) ∧
  (∀ p0 p1 k0 k1,
     params !! 0%nat = Some (Symbol p0) → params !! 1%nat = Some (Symbol p1) →
     first_index (parameters circuit) p0 k0 → first_index (parameters circuit) p1 k1 →
     after_cr = <[k1 := amp p1]> (<[k0 := dur p0]> before)).
Proof.
  intros before after_rx after_cr amp dur. subst after_rx after_cr.
  rewrite add_rx_schedule_config, add_cr_schedule_config.
  split; [|split; [|split]].
  - intros k e. destruct (params !! 0%nat) as [[v|p]|]; [by left | | by left].
    destruct (AnsatzBuilder._param_idx circuit p) as [idx|err] eqn:E; [|by left].
    apply _param_idx_Return in E.
    destruct (decide (idx = k)) as [->|Hne].
    + rewrite lookup_insert_eq. intros [= <-]. right. by exists p.
    + rewrite lookup_insert_ne by done. by left.
  - intros k e. cbv zeta.
    assert (∀ wc : gmap nat AnsatzBuilder.WrapperEntry,
              (wc !! k = Some e →
               before !! k = Some e ∨
               ∃ p, params !! 0%nat = Some (Symbol p) ∧
                    first_index (parameters circuit) p k ∧ e = dur p) →
              match params !! 1%nat with
              | Some (Symbol p) =>
                  match AnsatzBuilder._param_idx circuit p with
                  | Return idx => <[idx := amp p]> wc
                  | Raise _ => wc
                  end
              | _ => wc
              end !! k = Some e →
              before !! k = Some e ∨
              (∃ p, params !! 0%nat = Some (Symbol p) ∧
                    first_index (parameters circuit) p k ∧ e = dur p) ∨
              (∃ p, params !! 1%nat = Some (Symbol p) ∧
                    first_index (parameters circuit) p k ∧ e = amp p)) as Hamp.
    { intros wc Hwc. destruct (params !! 1%nat) as [[v|p]|];
        [intros H; destruct (Hwc H); [by left | by right; left] |
         | intros H; destruct (Hwc H); [by left | by right; left]].
      destruct (AnsatzBuilder._param_idx circuit p) as [idx|err] eqn:E;
        [|intros H; destruct (Hwc H); [by left | by right; left]].
      apply _param_idx_Return in E.
      destruct (decide (idx = k)) as [->|Hne].
      - rewrite lookup_insert_eq. intros [= <-]. right. right. by exists p.
      - rewrite lookup_insert_ne by done.
        intros H; destruct (Hwc H); [by left | by right; left]. }
    destruct (params !! 0%nat) as [[v|p]|]; [apply Hamp; by left | | by left].
    destruct (AnsatzBuilder._param_idx circuit p) as [idx|err] eqn:E; [|by left].
    apply _param_idx_Return in E. apply Hamp.
    destruct (decide (idx = k)) as [->|Hne].
    + rewrite lookup_insert_eq. intros [= <-]. right. by exists p.
    + rewrite lookup_insert_ne by done. by left.
  - intros p k -> Hk. apply _param_idx_Return in Hk. by rewrite Hk.
  - intros p0 p1 k0 k1 -> -> Hk0 Hk1.
    apply _param_idx_Return in Hk0, Hk1. by rewrite Hk0, Hk1.
Qed.

Lemma C7_wrapper_key_is_param_index_witness :
  let t0 := mkParam "t0" in
  let phi1 := mkParam "phi1" in
  let circuit :=
    mkQuantumCircuit 2 None [(mkGate "cr" 2 [Symbol t0; Symbol phi1] [], [0; 1])] [] in
  let builder :=
    AnsatzBuilder.__init__
      (AnsatzBuilder.mkBackend None None (λ _, Raise (BackendError "no default schedule")))
      [0; 1] None (Qc_of_Z 800) in
  parameters circuit = [phi1; t0] ∧
  AnsatzBuilder.wrapper_config
    (AnsatzBuilder.add_cr_schedule [Symbol t0; Symbol phi1] [0; 1] circuit builder).2
  = <[0%nat := AnsatzBuilder.sin_wrapper "amp[phi1]"]>
      (<[1%nat := AnsatzBuilder.sin_duration_wrapper (Qc_of_Z 800) "dur[t0]"]> ∅).
Proof.
  intros t0 phi1 circuit builder.
  assert (parameters circuit = [phi1; t0]) as Hps by (vm_compute; reflexivity).
  split; [exact Hps|].
  pose proof (C7_wrapper_key_is_param_index [Symbol t0; Symbol phi1] [0; 1] circuit builder)
    as H.
  cbv zeta in H. destruct H as (_ & _ & _ & H).
  apply (H t0 phi1 1%nat 0%nat); [reflexivity | reflexivity | |].
  - rewrite Hps. split; [reflexivity|].
    intros [|j] Hj; [discriminate | lia].
  - rewrite Hps. split; [reflexivity|]. intros j Hj. lia.
Defined.

(** ** [pulse_ansatz.py]: the layer of [CRAnsatz] *)

Section Layout.
Context {P : Type}.

Lemma layout_snoc (c : QuantumCircuit P) gate qs n nm cals :
  layout (mkQuantumCircuit n nm (data c ++ [(gate, qs)]) cals)
    = layout c ++ [(gate_name gate, qs)].
Proof. unfold layout. simpl. by rewrite fmap_app. Qed.

Lemma count_gates_layout nm (c : QuantumCircuit P) :
  count_gates nm c = length (filter (λ entry, entry.1 = nm) (layout c)).
Proof.
  unfold count_gates, layout. induction (data c) as [|inst l IH]; [reflexivity|].
  rewrite fmap_cons, !filter_cons. simpl.
  destruct (decide (gate_name (operation inst) = nm)); simpl; by rewrite IH.
Qed.
End Layout.

Lemma qubit_rotations_no_cr add_rz (qs : list Z) :
  filter (λ entry : string * list Z, entry.1 = "cr") (flat_map (qubit_rotations add_rz) qs)
    = [].
Proof.
  induction qs as [|q qs IH]; [reflexivity|].
  change (flat_map (qubit_rotations add_rz) (q :: qs))
    with (qubit_rotations add_rz q ++ flat_map (qubit_rotations add_rz) qs).
  rewrite filter_app, IH, app_nil_r.
  unfold qubit_rotations. by destruct add_rz.
Qed.

Section CRLayer.
Import AnsatzBuilder.

Lemma add_rx_ok c q s :
  0 ≤ q < num_qubits c →
  add_rx c q s =
    (Return (mkQuantumCircuit (num_qubits c) (circuit_name c)
               (data c ++ [(mkGate "rx" 1
                              [Symbol (mkParam ("phi" +:+ str_nat (length (_params s))))] [],
                            [q])])
               (calibrations c)),
     set_params (_params s ++ [mkParam ("phi" +:+ str_nat (length (_params s)))]) s).
Proof.
  intros Hq. unfold add_rx.
  erewrite bind_Return by apply AnsatzBuilder_new_param_run.
  apply lift_Return. unfold rx. apply append_1; [reflexivity | exact Hq].
Qed.

Lemma add_cr_ok c q1 q2 s :
  0 ≤ q1 < num_qubits c → 0 ≤ q2 < num_qubits c → q1 ≠ q2 →
  ∃ g s', add_cr c (q1, q2) None s =
            (Return (mkQuantumCircuit (num_qubits c) (circuit_name c)
                       (data c ++ [(g, [q1; q2])]) (calibrations c)), s') ∧
          gate_name g = "cr".
Proof.
  intros Hq1 Hq2 Hne. unfold add_cr.
  erewrite bind_Return by apply AnsatzBuilder_new_param_run.
  erewrite bind_Return by apply AnsatzBuilder_new_param_run.
  eexists _, _. split; [|shelve].
  apply lift_Return. apply append_2; [reflexivity | assumption..].
  Unshelve. reflexivity.
Qed.

Lemma add_cr_out_of_range c q1 q2 s :
  0 ≤ q1 < num_qubits c → num_qubits c ≤ q2 →
  (add_cr c (q1, q2) None s).1 = Raise (CircuitError "Index out of range").
Proof.
  intros Hq1 Hq2. unfold add_cr.
  erewrite bind_Return by apply AnsatzBuilder_new_param_run.
  erewrite bind_Return by apply AnsatzBuilder_new_param_run.
  unfold lift. simpl. by apply append_out_of_range.
Qed.

(** The rotation loop of [_layer]: one [rx] per qubit, followed by an [rz]
    when [add_rz] is set. *)
Lemma layer_rotations_ok (add_rz : bool) n c s :
  num_qubits c = n →
  ∃ c' s',
    for_in (range 0 n 1) c (λ qubit ansatz,
      ansatz <- add_rx ansatz qubit;;
      if add_rz then
        (phi <- new_param "phi";; lift (rz (Symbol phi) qubit ansatz))
      else ret ansatz) s = (Return c', s') ∧
    num_qubits c' = n ∧
    layout c' = layout c ++ flat_map (qubit_rotations add_rz) (range 0 n 1).
Proof.
  intros Hn.
  apply (for_in_ind
           (λ done (c' : QuantumCircuit GateParam) (_ : self),
              num_qubits c' = n ∧
              layout c' = layout c ++ flat_map (qubit_rotations add_rz) done)).
  - split; [exact Hn | by rewrite app_nil_r].
  - intros done q rest c1 s1 Hsplit [Hn1 Hl1].
    assert (q ∈ range 0 n 1) as Hq.
    { rewrite Hsplit. apply elem_of_app. right. apply elem_of_cons. by left. }
    apply elem_of_range_1 in Hq.
    erewrite bind_Return by (apply add_rx_ok; lia).
    assert (flat_map (qubit_rotations add_rz) (done ++ [q])
            = flat_map (qubit_rotations add_rz) done ++ qubit_rotations add_rz q) as Hflat.
    { rewrite flat_map_app. simpl. by rewrite app_nil_r. }
    destruct add_rz.
    + erewrite bind_Return by apply AnsatzBuilder_new_param_run.
      eexists _, _.
      split; [apply lift_Return; unfold rz; apply append_1; [reflexivity | simpl; lia]|].
      split; [exact Hn1|].
      rewrite Hflat, !layout_snoc, Hl1, <- !app_assoc. reflexivity.
    + eexists _, _. split; [reflexivity|]. split; [exact Hn1|].
      rewrite Hflat, layout_snoc, Hl1, <- app_assoc. reflexivity.
Qed.

End CRLayer.

Section CRLayerPasses.
Import AnsatzBuilder PulseAnsatz.

(** A pass of cross-resonance gates over qubits [q] whose neighbour
    [q + 1] is in the circuit adds one [cr] gate per qubit. *)
Lemma cr_pass_ok n (qs : list Z) c s :
  num_qubits c = n → Forall (λ q, 0 ≤ q ∧ q + 1 < n) qs →
  ∃ c' s',
    for_in qs c (λ qubit ansatz, add_cr ansatz (qubit, qubit + 1) None) s
      = (Return c', s') ∧
    num_qubits c' = n ∧
    count_gates "cr" c' = (count_gates "cr" c + length qs)%nat.
Proof.
  intros Hn Hqs.
  apply (for_in_ind
           (λ done (c' : QuantumCircuit GateParam) (_ : AnsatzBuilder.self),
              num_qubits c' = n ∧
              count_gates "cr" c' = (count_gates "cr" c + length done)%nat)).
  - split; [exact Hn | simpl; lia].
  - intros done q rest c1 s1 Hsplit [Hn1 Hc1].
    assert (0 ≤ q ∧ q + 1 < n) as Hq.
    { rewrite Forall_forall in Hqs. apply Hqs. rewrite Hsplit.
      apply elem_of_app. right. apply elem_of_cons. by left. }
    destruct (add_cr_ok c1 q (q + 1) s1) as (g & s2 & E & Hg); [lia..|].
    eexists _, s2. split; [exact E|]. split; [exact Hn1|].
    rewrite count_gates_snoc, Hg, decide_True by done.
    rewrite length_app. simpl. lia.
Qed.

Lemma range_up2_neighbours start n :
  0 ≤ start → Forall (λ q, 0 ≤ q ∧ q + 1 < n) (range start (n - 1) 2).
Proof.
  intros Hstart. apply Forall_forall. intros q Hq.
  apply elem_of_range_up2 in Hq as [Hq _]. lia.
Qed.

Lemma range_even_stop n :
  n `mod` 2 = 0 → range 0 n 2 = range 0 (n - 1) 2.
Proof.
  intros Heven. unfold range, range_len.
  destruct (decide (0 < 2)) as [_|?]; [|lia].
  pose proof (Z.div_mod n 2 ltac:(lia)) as Hn. rewrite Heven in Hn.
  replace (n - 0 + 2 - 1) with (1 + (n `div` 2) * 2) by lia.
  replace (n - 1 - 0 + 2 - 1) with (0 + (n `div` 2) * 2) by lia.
  by rewrite !Z.div_add by lia.
Qed.

Lemma range_odd_stop n :
  n `mod` 2 = 1 → 0 < n → range 0 n 2 = range 0 (n - 1) 2 ++ [n - 1].
Proof.
  intros Hodd Hpos. unfold range, range_len.
  destruct (decide (0 < 2)) as [_|?]; [|lia].
  pose proof (Z.div_mod n 2 ltac:(lia)) as Hn. rewrite Hodd in Hn.
  replace (n - 0 + 2 - 1) with (0 + (n `div` 2 + 1) * 2) by lia.
  replace (n - 1 - 0 + 2 - 1) with (1 + (n `div` 2) * 2) by lia.
  rewrite !Z.div_add by lia. change (0 `div` 2) with 0. change (1 `div` 2) with 0.
  replace (Z.to_nat (0 + (n `div` 2 + 1))) with (Datatypes.S (Z.to_nat (0 + n `div` 2)))
    by lia.
  rewrite seq_S, fmap_app. simpl. do 2 f_equal. lia.
Qed.

(** For an even qubit count the interleaved layer returns, with
    [len(range(0, N, 2)) + len(range(1, N - 1, 2))] cross-resonance gates;
    from two qubits on this is [N/2 + (N-1)/2]. *)
Lemma CRAnsatz_layer_interleaved_even this s :
  _entanglement this = EntStr "interleaved" →
  _num_qubits this `mod` 2 = 0 → 0 ≤ _num_qubits this →
  ∃ c s', CRAnsatz._layer this s = (Return c, s') ∧
    count_gates "cr" c
      = (range_len 0 (_num_qubits this) 2 + range_len 1 (_num_qubits this - 1) 2)%nat ∧
    (2 ≤ _num_qubits this →
     Z.of_nat (count_gates "cr" c)
       = _num_qubits this `div` 2 + (_num_qubits this - 1) `div` 2).
Proof.
  intros Hent Heven Hn. unfold CRAnsatz._layer. rewrite Hent.
  set (n := _num_qubits this) in *.
  erewrite bind_Return by (apply lift_Return, new_circuit_ok, Hn).
  destruct (layer_rotations_ok (_add_rz this) n (mkQuantumCircuit n None [] []) s eq_refl)
    as (c1 & s1 & E1 & Hn1 & Hl1).
  erewrite bind_Return by exact E1.
  assert (count_gates "cr" c1 = 0%nat) as Hc1.
  { rewrite count_gates_layout, Hl1. simpl. by rewrite qubit_rotations_no_cr. }
  change (equals_str (EntStr "interleaved") "interleaved") with true. cbv iota.
  destruct (cr_pass_ok n (range 0 n 2) c1 s1 Hn1) as (c2 & s2 & E2 & Hn2 & Hc2).
  { rewrite range_even_stop by exact Heven. by apply range_up2_neighbours. }
  destruct (cr_pass_ok n (range 1 (n - 1) 2) c2 s2 Hn2) as (c3 & s3 & E3 & Hn3 & Hc3).
  { apply range_up2_neighbours. lia. }
  erewrite bind_Return; [|erewrite bind_Return by exact E2; exact E3].
  erewrite bind_Return by reflexivity.
  exists c3, s3. split; [reflexivity|].
  rewrite Hc3, Hc2, Hc1, !length_range. split; [lia|].
  intros Hn2'. unfold range_len. destruct (decide (0 < 2)) as [_|?]; [|lia].
  pose proof (Z.div_mod n 2 ltac:(lia)) as Hdm. rewrite Heven in Hdm.
  replace (n - 0 + 2 - 1) with (1 + (n `div` 2) * 2) by lia.
  replace (n - 1 - 1 + 2 - 1) with (n - 1) by lia.
  rewrite Z.div_add by lia. change (1 `div` 2) with 0.
  assert (0 ≤ (n - 1) `div` 2) by (apply Z.div_pos; lia).
  lia.
Qed.

(** For an odd qubit count the first pass of the interleaved layer ends
    on the pair [(N - 1, N)], whose second qubit is not in the circuit:
    the layer raises. *)
Lemma CRAnsatz_layer_interleaved_odd this s :
  _entanglement this = EntStr "interleaved" →
  _num_qubits this `mod` 2 = 1 → 0 < _num_qubits this →
  (CRAnsatz._layer this s).1 = Raise (CircuitError "Index out of range").
Proof.
  intros Hent Hodd Hn. unfold CRAnsatz._layer. rewrite Hent.
  set (n := _num_qubits this) in *.
  erewrite bind_Return by (apply lift_Return, new_circuit_ok; lia).
  destruct (layer_rotations_ok (_add_rz this) n (mkQuantumCircuit n None [] []) s eq_refl)
    as (c1 & s1 & E1 & Hn1 & _).
  erewrite bind_Return by exact E1.
  change (equals_str (EntStr "interleaved") "interleaved") with true. cbv iota.
  rewrite (range_odd_stop n Hodd Hn).
  destruct (cr_pass_ok n (range 0 (n - 1) 2) c1 s1 Hn1) as (c2 & s2 & E2 & Hn2 & _).
  { apply range_up2_neighbours. lia. }
  pose proof (add_cr_out_of_range c2 (n - 1) (n - 1 + 1) s2 ltac:(lia) ltac:(lia)) as E3.
  destruct (add_cr c2 (n - 1, n - 1 + 1) None s2) as [o3 s3] eqn:E3'.
  simpl in E3. subst o3.
  erewrite bind_Raise; [reflexivity|].
  erewrite bind_Raise; [reflexivity|].
  rewrite for_in_app. erewrite bind_Return by exact E2.
  simpl. erewrite bind_Raise; [reflexivity | exact E3'].
Qed.

End CRLayerPasses.

(** C2, at a failing input: for three qubits the claim counts
    [3/2 + (3-1)/2 = 2] cross-resonance gates, but the first pass of the
    interleaved layer visits the qubits 0 and 2 and puts its second gate on
    the pair (2, 3), outside the circuit: the layer raises and returns no
    circuit. *)
Theorem C2_interleaved_layer_three_qubits_raises
    (reps : Z) (add_rz final_rx : bool) (s : AnsatzBuilder.self) :
  range 0 3 2 = [0; 2] ∧
  range 1 (3 - 1) 2 = [1] ∧
  3 `div` 2 + (3 - 1) `div` 2 = 2 ∧
  (CRAnsatz._layer
     (PulseAnsatz.mkSelf 3 reps (PulseAnsatz.EntStr "interleaved") add_rz final_rx) s).1
    = Raise (CircuitError "Index out of range").
Proof.
  split; [reflexivity|]. split; [reflexivity|]. split; [reflexivity|].
  apply CRAnsatz_layer_interleaved_odd; [reflexivity | reflexivity | simpl; lia].
Qed.

(** C10: when the entanglement is neither the string "interleaved" nor a
    list, [_layer] returns a circuit that holds, for each qubit in turn, its
    [rx] rotation (followed by its [rz] rotation when [add_rz] is set) and
    nothing else: no cross-resonance gate, and no error. *)
Theorem C10_other_entanglement_no_cr (this : PulseAnsatz.self) (s : AnsatzBuilder.self) :
  0 ≤ PulseAnsatz._num_qubits this →
  PulseAnsatz._entanglement this ≠ PulseAnsatz.EntStr "interleaved" →
  (∀ pairs, PulseAnsatz._entanglement this ≠ PulseAnsatz.EntList pairs) →
  ∃ c s', CRAnsatz._layer this s = (Return c, s') ∧
    num_qubits c = PulseAnsatz._num_qubits this ∧
    layout c = flat_map (qubit_rotations (PulseAnsatz._add_rz this))
                 (range 0 (PulseAnsatz._num_qubits this) 1) ∧
    count_gates "cr" c = 0%nat.
Proof.
  intros Hn Hstr Hlist. unfold CRAnsatz._layer.
  erewrite bind_Return by (apply lift_Return, new_circuit_ok, Hn).
  destruct (layer_rotations_ok (PulseAnsatz._add_rz this) (PulseAnsatz._num_qubits this)
              (mkQuantumCircuit (PulseAnsatz._num_qubits this) None [] []) s eq_refl)
    as (c1 & s1 & E1 & Hn1 & Hl1).
  erewrite bind_Return by exact E1.
  assert (PulseAnsatz.equals_str (PulseAnsatz._entanglement this) "interleaved" = false)
    as ->.
  { destruct (PulseAnsatz._entanglement this) as [str| |]; [|reflexivity..].
    simpl. apply bool_decide_eq_false_2. intros ->. by apply Hstr. }
  erewrite bind_Return by reflexivity.
  assert ((match PulseAnsatz._entanglement this with
           | PulseAnsatz.EntList pairs =>
               for_in pairs c1 (λ pr ansatz, AnsatzBuilder.add_cr ansatz pr None)
           | _ => ret c1
           end) s1 = (Return c1, s1)) as E2.
  { destruct (PulseAnsatz._entanglement this) as [str|pairs|]; [reflexivity| |reflexivity].
    by destruct (Hlist pairs). }
  erewrite bind_Return by exact E2.
  exists c1, s1. split; [reflexivity|]. split; [exact Hn1|].
  split; [exact Hl1|].
  rewrite count_gates_layout, Hl1. simpl. by rewrite qubit_rotations_no_cr.
Qed.

Lemma C10_other_entanglement_no_cr_witness :
  ∃ c s',
    CRAnsatz._layer (PulseAnsatz.mkSelf 3 1 (PulseAnsatz.EntStr "linear") true true)
      (AnsatzBuilder.__init__
         (AnsatzBuilder.mkBackend None None (λ _, Raise (BackendError "no default schedule")))
         [0; 1; 2] None (Qc_of_Z 800))
      = (Return c, s') ∧
    num_qubits c = 3 ∧
    layout c = [("rx", [0]); ("rz", [0]); ("rx", [1]); ("rz", [1]); ("rx", [2]); ("rz", [2])] ∧
    count_gates "cr" c = 0%nat.
Proof.
  apply (C10_other_entanglement_no_cr
           (PulseAnsatz.mkSelf 3 1 (PulseAnsatz.EntStr "linear") true true)).
  - simpl. lia.
  - discriminate.
  - discriminate.
Defined.

Lemma C9_param_idx_witness :
  let circuit :=
    mkQuantumCircuit 2 None
      [(mkGate "cr" 2 [Symbol (mkParam "t0"); Symbol (mkParam "phi1")] [], [0; 1])] [] in
  AnsatzBuilder._param_idx circuit (mkParam "t0") = Return 1%nat ∧
  ∃ msg, AnsatzBuilder._param_idx circuit (mkParam "phi0") = Raise (ValueError msg).
Proof.
  intros circuit.
  assert (parameters circuit = [mkParam "phi1"; mkParam "t0"]) as Hps
    by (vm_compute; reflexivity).
  split.
  - apply (C9_param_idx circuit (mkParam "t0")). rewrite Hps.
    split; [reflexivity|]. intros [|j] Hj; [discriminate | lia].
  - apply (C9_param_idx circuit (mkParam "phi0")). rewrite Hps.
    intros Hin. apply elem_of_cons in Hin as [Hin|Hin]; [discriminate|].
    apply elem_of_cons in Hin as [Hin|Hin]; [discriminate|].
    by apply elem_of_nil in Hin.
Defined.

(** ** Relations kept by computations *)

Section Preserves.
Context {S : Type} (R : S → S → Prop).
Hypothesis R_refl : ∀ s, R s s.
Hypothesis R_trans : ∀ s1 s2 s3, R s1 s2 → R s2 s3 → R s1 s3.

Lemma preserves_ret {A} (a : A) : preserves R (ret a).
Proof. intros s. apply R_refl. Qed.

Lemma preserves_raise {A} e : preserves R (raise (A:=A) e).
Proof. intros s. apply R_refl. Qed.

Lemma preserves_lift {A} (o : outcome A) : preserves R (lift o).
Proof. intros s. apply R_refl. Qed.

Lemma preserves_get : preserves R get.
Proof. intros s. apply R_refl. Qed.

Lemma preserves_bind {A B} (c : M S A) (k : A → M S B) :
  preserves R c → (∀ a, preserves R (k a)) → preserves R (bind c k).
Proof.
  intros Hc Hk s. unfold bind. specialize (Hc s).
  destruct (c s) as [[a|e] s1]; simpl in *; [|exact Hc].
  apply (R_trans _ s1); [exact Hc | apply Hk].
Qed.

(** The step "read the state, store an update of it, go on". *)
Lemma preserves_update {B} (f : S → S) (rest : S → M S B) :
  (∀ s, R s (f s)) → (∀ s0, preserves R (rest s0)) →
  preserves R (bind get (λ s, bind (put (f s)) (λ _, rest s))).
Proof.
  intros Hf Hrest s. unfold bind, get, put. simpl.
  apply (R_trans _ (f s)); [apply Hf | apply Hrest].
Qed.

Lemma preserves_for_in {X A} (xs : list X) (a : A) (body : X → A → M S A) :
  (∀ x a', preserves R (body x a')) → preserves R (for_in xs a body).
Proof.
  intros Hbody. revert a. induction xs as [|x0 xs IH]; intros a; simpl.
  - apply preserves_ret.
  - apply preserves_bind; [apply Hbody | intros a'; apply IH].
Qed.
End Preserves.

(** ** [pulse_ansatz.py]: the control channels *)

Section ControlChannels.
Import AnsatzBuilder.

Lemma set_control_channels_id s : set_control_channels (_control_channels s) s = s.
Proof. by destruct s. Qed.

Lemma self_made_channel_run qs s :
  self_made_channel qs s =
    match _control_channels s !! qs with
    | Some chan => (Return chan, s)
    | None =>
        (Return (ControlChannel (Z.of_nat (size (_control_channels s)) + 1)),
         set_control_channels
           (<[qs := ControlChannel (Z.of_nat (size (_control_channels s)) + 1)]>
              (_control_channels s)) s)
    end.
Proof.
  unfold self_made_channel, bind, get, put, ret, raise.
  destruct (_control_channels s !! qs) as [chan|] eqn:E.
  - rewrite decide_False by done. by rewrite E.
  - rewrite decide_True by done. simpl. by rewrite lookup_insert_eq.
Qed.

Lemma _get_control_channel_silent qs s :
  backend_silent (_backend s) qs → _get_control_channel qs s = self_made_channel qs s.
Proof.
  intros [Hmethod Hconf]. unfold _get_control_channel, bind, get. rewrite Hmethod.
  destruct (backend_configuration (_backend s)) as [[cc|]|]; [|reflexivity..].
  by rewrite Hconf.
Qed.

(** A call leaves the builder as it was but for the cache, which it leaves
    alone or extends at the qubits asked for with the next channel. *)
Lemma _get_control_channel_state qs s :
  (_get_control_channel qs s).2 = s ∨
  (_control_channels s !! qs = None ∧
   (_get_control_channel qs s).2 =
     set_control_channels
       (<[qs := ControlChannel (Z.of_nat (size (_control_channels s)) + 1)]>
          (_control_channels s)) s).
Proof.
  assert ((self_made_channel qs s).2 = s ∨
          (_control_channels s !! qs = None ∧
           (self_made_channel qs s).2 =
             set_control_channels
               (<[qs := ControlChannel (Z.of_nat (size (_control_channels s)) + 1)]>
                  (_control_channels s)) s)) as Hmade.
  { rewrite self_made_channel_run.
    destruct (_control_channels s !! qs); [by left | by right]. }
  unfold _get_control_channel, bind, get, lift. simpl.
  destruct (backend_control_channel (_backend s)) as [f|].
  - left. destruct (f qs) as [chans|e]; [|done]. by destruct (subscript chans 0).
  - destruct (backend_configuration (_backend s)) as [[cc|]|]; [|exact Hmade..].
    destruct (cc !! qs) as [chans|]; [|exact Hmade].
    left. by destruct (subscript chans 0).
Qed.

Lemma cache_ok_empty : cache_ok ∅.
Proof. split; intros *; by rewrite lookup_empty. Qed.

Lemma cache_ok_insert (cc : gmap (list Z) Channel) qs :
  cc !! qs = None → cache_ok cc →
  cache_ok (<[qs := ControlChannel (Z.of_nat (size cc) + 1)]> cc).
Proof.
  intros Hfresh [Hnum Hinj]. split.
  - intros qs' chan. rewrite map_size_insert_None by done.
    destruct (decide (qs = qs')) as [<-|Hne].
    + rewrite lookup_insert_eq. intros [= <-]. eexists. split; [reflexivity | lia].
    + rewrite lookup_insert_ne by done. intros Hl.
      destruct (Hnum _ _ Hl) as (i & -> & Hi). exists i. split; [done | lia].
  - intros qs1 qs2 chan.
    destruct (decide (qs = qs1)) as [<-|Hne1]; destruct (decide (qs = qs2)) as [<-|Hne2];
      rewrite ?lookup_insert_eq, ?lookup_insert_ne by done.
    + done.
    + intros [= <-] Hl. destruct (Hnum _ _ Hl) as (i & [= <-] & Hi). lia.
    + intros Hl [= <-]. destruct (Hnum _ _ Hl) as (i & [= <-] & Hi). lia.
    + apply Hinj.
Qed.

(** The relation between the caches of two states of a builder: the later
    one holds every entry of the earlier one, and is well numbered if the
    earlier one is. *)
Lemma cache_grows_refl s :
  _control_channels s ⊆ _control_channels s ∧
  (cache_ok (_control_channels s) → cache_ok (_control_channels s)).
Proof. done. Qed.

Lemma _get_control_channel_cache qs s :
  _control_channels s ⊆ _control_channels (_get_control_channel qs s).2 ∧
  (cache_ok (_control_channels s) →
   cache_ok (_control_channels (_get_control_channel qs s).2)).
Proof.
  destruct (_get_control_channel_state qs s) as [->|[Hfresh ->]]; [done|].
  simpl. split; [by apply insert_subseteq | by apply cache_ok_insert].
Qed.

End ControlChannels.

(** Decomposes a goal [preserves R c] along the structure of [c]; [Hrefl]
    and [Htrans] are the reflexivity and the transitivity of [R].  The
    updates of the state are left as goals. *)
Ltac preserves_step Hrefl Htrans :=
  lazymatch goal with
  | |- preserves _ (ret _) => apply (preserves_ret _ Hrefl)
  | |- preserves _ (raise _) => apply (preserves_raise _ Hrefl)
  | |- preserves _ (lift _) => apply (preserves_lift _ Hrefl)
  | |- preserves _ get => apply (preserves_get _ Hrefl)
  | |- preserves _ (bind get (fun s => bind (put (@?f s)) (fun _ => @?rest s))) =>
      apply (preserves_update _ Htrans f rest); [|intros ?; cbv beta]
  | |- preserves _ (bind _ _) => apply (preserves_bind _ Htrans); [|intros ?]
  | |- preserves _ (for_in _ _ _) => apply (preserves_for_in _ Hrefl Htrans); intros ? ?
  | |- preserves _ (match ?x with _ => _ end) => destruct x
  end.

Ltac preserves_steps Hrefl Htrans :=
  cbv zeta; repeat (preserves_step Hrefl Htrans; cbv zeta).

Section BuilderFrames.
Import AnsatzBuilder.

Lemma cache_grows_refl' s : cache_grows s s.
Proof. by split. Qed.

Lemma cache_grows_trans s1 s2 s3 : cache_grows s1 s2 → cache_grows s2 s3 → cache_grows s1 s3.
Proof.
  intros [Hsub12 Hok12] [Hsub23 Hok23]. split; [by etrans | auto].
Qed.

Lemma only_appends_params_refl s : only_appends_params s s.
Proof. split; [reflexivity | by repeat split]. Qed.

Lemma only_appends_params_trans s1 s2 s3 :
  only_appends_params s1 s2 → only_appends_params s2 s3 → only_appends_params s1 s3.
Proof.
  intros (H1 & H2 & H3 & H4 & H5 & H6) (G1 & G2 & G3 & G4 & G5 & G6).
  repeat split; [by etrans | congruence..].
Qed.

Lemma only_records_refl s : only_records s s.
Proof. repeat split; reflexivity. Qed.

Lemma only_records_trans s1 s2 s3 :
  only_records s1 s2 → only_records s2 s3 → only_records s1 s3.
Proof.
  intros (H1 & H2 & H3 & H4 & H5) (G1 & G2 & G3 & G4 & G5).
  repeat split; [congruence.. | by etrans].
Qed.

Lemma _get_control_channel_grows qs : preserves cache_grows (_get_control_channel qs).
Proof. intros s. apply _get_control_channel_cache. Qed.

Lemma _get_control_channel_records qs : preserves only_records (_get_control_channel qs).
Proof.
  intros s. destruct (_get_control_channel_state qs s) as [->|[_ ->]];
    [apply only_records_refl | by repeat split].
Qed.

Lemma add_rx_schedule_grows params pqubits circuit :
  preserves cache_grows (add_rx_schedule params pqubits circuit).
Proof.
  unfold add_rx_schedule. preserves_steps cache_grows_refl' cache_grows_trans.
  intros s. by split.
Qed.

Lemma add_cr_schedule_grows params pqubits circuit :
  preserves cache_grows (add_cr_schedule params pqubits circuit).
Proof.
  unfold add_cr_schedule. preserves_steps cache_grows_refl' cache_grows_trans;
    try apply _get_control_channel_grows; intros s; by split.
Qed.

Lemma add_schedules_grows circuit : preserves cache_grows (add_schedules circuit).
Proof.
  unfold add_schedules. preserves_steps cache_grows_refl' cache_grows_trans;
    try apply add_cr_schedule_grows; try apply add_rx_schedule_grows.
  all: case_match; preserves_steps cache_grows_refl' cache_grows_trans;
    try apply add_cr_schedule_grows; try apply add_rx_schedule_grows.
  all: case_match; preserves_steps cache_grows_refl' cache_grows_trans;
    try apply add_cr_schedule_grows; try apply add_rx_schedule_grows.
Qed.

End BuilderFrames.

(** X1: when the backend offers no control channel for a qubit tuple, the
    builder makes one up, numbered one past the size of its cache, and
    remembers it: asking again returns the same channel and changes
    nothing. *)
Theorem X1_control_channel_made_up_once (qs : list Z) (s : AnsatzBuilder.self) :
  backend_silent (AnsatzBuilder._backend s) qs →
  ∃ chan s',
    AnsatzBuilder._get_control_channel qs s = (Return chan, s') ∧
    AnsatzBuilder._control_channels s' !! qs = Some chan ∧
    AnsatzBuilder._get_control_channel qs s' = (Return chan, s') ∧
    (AnsatzBuilder._control_channels s !! qs = None →
       chan = ControlChannel (Z.of_nat (size (AnsatzBuilder._control_channels s)) + 1) ∧
       size (AnsatzBuilder._control_channels s')
         = Datatypes.S (size (AnsatzBuilder._control_channels s))) ∧
    (∀ chan0, AnsatzBuilder._control_channels s !! qs = Some chan0 →
       chan = chan0 ∧ s' = s).
Proof.
  intros Hsilent. rewrite (_get_control_channel_silent qs s Hsilent).
  rewrite self_made_channel_run.
  destruct (AnsatzBuilder._control_channels s !! qs) as [chan0|] eqn:E.
  - exists chan0, s. split; [reflexivity|]. split; [exact E|]. split.
    + rewrite (_get_control_channel_silent qs s Hsilent), self_made_channel_run.
      by rewrite E.
    + split; [discriminate|]. by intros ? [= <-].
  - eexists _, _. split; [reflexivity|]. simpl. split; [apply lookup_insert_eq|].
    split.
    + rewrite _get_control_channel_silent by exact Hsilent.
      rewrite self_made_channel_run. simpl. by rewrite lookup_insert_eq.
    + split; [|discriminate]. intros _. split; [reflexivity|].
      by apply map_size_insert_None.
Qed.

Lemma X1_control_channel_made_up_once_witness :
  let builder :=
    AnsatzBuilder.__init__
      (AnsatzBuilder.mkBackend None None (λ _, Raise (BackendError "no default schedule")))
      [0; 1] None (Qc_of_Z 800) in
  ∃ s', AnsatzBuilder._get_control_channel [0; 1] builder = (Return (ControlChannel 1), s') ∧
        AnsatzBuilder._get_control_channel [0; 1] s' = (Return (ControlChannel 1), s').
Proof.
  intros builder.
  destruct (X1_control_channel_made_up_once [0; 1] builder) as (chan & s' & E & _ & E' & Hnew & _).
  { split; reflexivity. }
  destruct (Hnew eq_refl) as [-> _]. by exists s'.
Defined.

(** X2: attaching schedules never evicts a cached control channel, and the
    self-made channels stay pairwise distinct: starting from the empty cache
    of a new builder, no two qubit tuples ever share a channel. *)
Theorem X2_cache_only_grows (circuit : QuantumCircuit GateParam) (qs : list Z)
    (params : list GateParam) (s : AnsatzBuilder.self) :
  cache_ok (AnsatzBuilder._control_channels s) →
  let kept (s' : AnsatzBuilder.self) :=
    AnsatzBuilder._control_channels s ⊆ AnsatzBuilder._control_channels s' ∧
    cache_ok (AnsatzBuilder._control_channels s') ∧
    ∀ qs1 qs2 chan,
      AnsatzBuilder._control_channels s' !! qs1 = Some chan →
      AnsatzBuilder._control_channels s' !! qs2 = Some chan → qs1 = qs2 in
  kept (AnsatzBuilder._get_control_channel qs s).2 ∧
  kept (AnsatzBuilder.add_cr_schedule params qs circuit s).2 ∧
  kept (AnsatzBuilder.add_schedules circuit s).2.
Proof.
  intros Hok kept.
  assert (∀ s', cache_grows s s' → kept s') as Hkept.
  { intros s' [Hsub Hok']. split; [exact Hsub|]. split; [auto|]. by apply Hok'. }
  split; [|split]; apply Hkept.
  - apply _get_control_channel_grows.
  - apply add_cr_schedule_grows.
  - apply add_schedules_grows.
Qed.

Lemma X2_cache_only_grows_witness :
  let builder :=
    AnsatzBuilder.__init__
      (AnsatzBuilder.mkBackend None None (λ _, Return (160, Qc_of_Z 40, Qc_of_Z 1)))
      [0; 1] None (Qc_of_Z 800) in
  let circuit :=
    mkQuantumCircuit 2 None
      [(mkGate "cr" 2 [Symbol (mkParam "t0"); Symbol (mkParam "phi1")] [], [0; 1]);
       (mkGate "cr" 2 [Symbol (mkParam "t2"); Symbol (mkParam "phi3")] [], [1; 0])] [] in
  cache_ok (AnsatzBuilder._control_channels (AnsatzBuilder.add_schedules circuit builder).2) ∧
  AnsatzBuilder._control_channels (AnsatzBuilder.add_schedules circuit builder).2
    = <[[1; 0] := ControlChannel 2]> (<[[0; 1] := ControlChannel 1]> ∅).
Proof.
  intros builder circuit.
  split; [|vm_compute; reflexivity].
  apply (X2_cache_only_grows circuit [] [] builder cache_ok_empty).
Defined.

Section BuilderFrames2.
Import AnsatzBuilder.

Lemma new_param_appends paramstr : preserves only_appends_params (new_param paramstr).
Proof.
  unfold new_param. preserves_steps only_appends_params_refl only_appends_params_trans.
  intros s. split; [by apply prefix_app_r | by repeat split].
Qed.

Lemma add_rx_appends circuit qubit : preserves only_appends_params (add_rx circuit qubit).
Proof.
  unfold add_rx. preserves_steps only_appends_params_refl only_appends_params_trans.
  apply new_param_appends.
Qed.

Lemma add_cr_appends circuit pq duration :
  preserves only_appends_params (add_cr circuit pq duration).
Proof.
  unfold add_cr. preserves_steps only_appends_params_refl only_appends_params_trans;
    apply new_param_appends.
Qed.

Lemma _layer_appends this : preserves only_appends_params (CRAnsatz._layer this).
Proof.
  unfold CRAnsatz._layer.
  preserves_steps only_appends_params_refl only_appends_params_trans;
    first [apply add_rx_appends | apply add_cr_appends | apply new_param_appends].
Qed.

Lemma circuit_appends this : preserves only_appends_params (CRAnsatz.circuit this).
Proof.
  unfold CRAnsatz.circuit, PulseAnsatz.circuit.
  preserves_steps only_appends_params_refl only_appends_params_trans;
    first [apply add_rx_appends | apply _layer_appends].
Qed.

Lemma record_entry idx entry s :
  only_records s (set_wrapper_config (<[idx := entry]> (_wrapper_config s)) s).
Proof. repeat split. simpl. apply dom_insert_subseteq. Qed.

Lemma add_rx_schedule_records params pqubits circuit :
  preserves only_records (add_rx_schedule params pqubits circuit).
Proof.
  unfold add_rx_schedule. preserves_steps only_records_refl only_records_trans.
  intros s. apply record_entry.
Qed.

Lemma add_cr_schedule_records params pqubits circuit :
  preserves only_records (add_cr_schedule params pqubits circuit).
Proof.
  unfold add_cr_schedule. preserves_steps only_records_refl only_records_trans;
    try apply _get_control_channel_records; intros s; apply record_entry.
Qed.

Lemma add_schedules_records circuit : preserves only_records (add_schedules circuit).
Proof.
  unfold add_schedules. preserves_steps only_records_refl only_records_trans;
    try apply add_cr_schedule_records; try apply add_rx_schedule_records.
  all: case_match; preserves_steps only_records_refl only_records_trans;
    try apply add_cr_schedule_records; try apply add_rx_schedule_records.
  all: case_match; preserves_steps only_records_refl only_records_trans;
    try apply add_cr_schedule_records; try apply add_rx_schedule_records.
Qed.

End BuilderFrames2.

(** X3: building a circuit only appends to the builder's parameter list:
    the parameters created before stay in place, and the backend, the qubit
    map, the channel cache and the wrapper config are left untouched, whether
    the construction returns or raises. *)
Theorem X3_building_only_appends_parameters (this : PulseAnsatz.self)
    (circuit : QuantumCircuit GateParam) (qubit : Z) (pq : Z * Z)
    (duration : option Param) (s : AnsatzBuilder.self) :
  only_appends_params s (AnsatzBuilder.add_rx circuit qubit s).2 ∧
  only_appends_params s (AnsatzBuilder.add_cr circuit pq duration s).2 ∧
  only_appends_params s (CRAnsatz._layer this s).2 ∧
  only_appends_params s (CRAnsatz.circuit this s).2.
Proof.
  split; [apply add_rx_appends|]. split; [apply add_cr_appends|].
  split; [apply _layer_appends | apply circuit_appends].
Qed.

(** X4: attaching schedules creates no parameter and drops no wrapper entry:
    the parameter list, the backend, the qubit map and the maximal duration
    are left untouched, and every key of the wrapper config remains a key,
    whether the attachment returns or raises. *)
Theorem X4_scheduling_only_records (circuit : QuantumCircuit GateParam)
    (params : list GateParam) (pqubits : list Z) (s : AnsatzBuilder.self) :
  only_records s (AnsatzBuilder.add_rx_schedule params pqubits circuit s).2 ∧
  only_records s (AnsatzBuilder.add_cr_schedule params pqubits circuit s).2 ∧
  only_records s (AnsatzBuilder.add_schedules circuit s).2.
Proof.
  split; [apply add_rx_schedule_records|].
  split; [apply add_cr_schedule_records | apply add_schedules_records].
Qed.

(** ** [pulse_ansatz.py]: attaching schedules *)

Section Scheduling.
Import AnsatzBuilder.

Lemma parameters_data (c c' : QuantumCircuit GateParam) :
  data c = data c' → parameters c = parameters c'.
Proof. unfold parameters. by intros ->. Qed.

(** A symbolic parameter of an instruction of the circuit is one of the
    circuit's parameters. *)
Lemma symbol_in_parameters (c : QuantumCircuit GateParam) inst p :
  inst ∈ data c → Symbol p ∈ gate_params (operation inst) → p ∈ parameters c.
Proof.
  intros Hinst Hp. unfold parameters. rewrite merge_sort_Permutation.
  apply elem_of_remove_dups, list_elem_of_In, in_flat_map.
  exists inst. split; [by apply list_elem_of_In|].
  unfold instruction_parameters. apply in_flat_map.
  exists (Symbol p). split; [by apply list_elem_of_In | by left].
Qed.

Lemma recorded_soundly_refl ps s : recorded_soundly ps s s.
Proof. repeat split. intros k e Hk. by left. Qed.

Lemma recorded_soundly_trans ps s1 s2 s3 :
  recorded_soundly ps s1 s2 → recorded_soundly ps s2 s3 → recorded_soundly ps s1 s3.
Proof.
  intros (Hmd & Hb & Hq & H12) (Hmd' & Hb' & Hq' & H23).
  split; [congruence|]. split; [congruence|]. split; [congruence|].
  intros k e Hk. destruct (H23 k e Hk) as [Hk2|(p & Hp & He)].
  - apply H12, Hk2.
  - right. exists p. split; [exact Hp|]. by rewrite <- Hmd.
Qed.

Lemma recorded_soundly_insert ps s k p e :
  first_index ps p k → e = amp_entry p ∨ e = dur_entry (_max_duration s) p →
  recorded_soundly ps s (set_wrapper_config (<[k := e]> (_wrapper_config s)) s).
Proof.
  intros Hk He. repeat split. simpl. intros k' e'.
  destruct (decide (k = k')) as [<-|Hne].
  - rewrite lookup_insert_eq. intros [= <-]. right. by exists p.
  - rewrite lookup_insert_ne by done. by left.
Qed.

Lemma wrapped_insert_new wc md (c : QuantumCircuit GateParam) p k e :
  first_index (parameters c) p k → e = amp_entry p ∨ e = dur_entry md p →
  wrapped (<[k := e]> wc) md c p.
Proof.
  intros Hk He. exists k. split; [exact Hk|]. rewrite lookup_insert_eq.
  destruct He as [-> | ->]; [by left | by right].
Qed.

Lemma wrapped_insert_other wc md (c : QuantumCircuit GateParam) p q k e :
  wrapped wc md c p → first_index (parameters c) q k →
  e = amp_entry q ∨ e = dur_entry md q →
  wrapped (<[k := e]> wc) md c p.
Proof.
  intros (kp & Hkp & Hwc) Hk He.
  destruct (decide (k = kp)) as [->|Hne].
  - assert (q = p) as -> by (destruct Hk as [Hk _], Hkp as [Hkp _]; congruence).
    by apply wrapped_insert_new.
  - exists kp. split; [exact Hkp|]. by rewrite lookup_insert_ne.
Qed.

(** A control channel lookup fails only as the backend fails, or on an
    empty list of channels. *)
Lemma _get_control_channel_raises qs s e s' :
  _get_control_channel qs s = (Raise e, s') →
  (∃ msg, e = IndexError msg) ∨ backend_raises (_backend s) e.
Proof.
  assert (∀ (chans : list Channel) e0, subscript chans 0 = Raise e0 → ∃ msg, e0 = IndexError msg)
    as Hsub.
  { intros chans e0. unfold subscript. destruct (chans !! 0%nat); [discriminate|].
    intros [= <-]. by eexists. }
  assert (∀ s0 e0 s1, self_made_channel qs s0 ≠ (Raise e0, s1)) as Hmade.
  { intros s0 e0 s1. rewrite self_made_channel_run.
    by destruct (_control_channels s0 !! qs). }
  unfold _get_control_channel, bind, get, lift. simpl.
  destruct (backend_control_channel (_backend s)) as [f|] eqn:Ef.
  - destruct (f qs) as [chans|e0] eqn:Eq.
    + destruct (subscript chans 0) as [chan|e0] eqn:Es; [discriminate|].
      intros [= <- _]. left. by apply (Hsub chans).
    + intros [= <- _]. right. right. by exists f, qs.
  - destruct (backend_configuration (_backend s)) as [[cc|]|];
      [|intros H; by destruct (Hmade _ _ _ H)..].
    destruct (cc !! qs) as [chans|]; [|intros H; by destruct (Hmade _ _ _ H)].
    destruct (subscript chans 0) as [chan|e0] eqn:Es; [discriminate|].
    intros [= <- _]. left. by apply (Hsub chans).
Qed.

(** What [add_rx_schedule] returns and how it fails. *)
Lemma add_rx_schedule_spec params pqubits c s :
  match (add_rx_schedule params pqubits c s).1 with
  | Return c' =>
      data c' = data c ∧ num_qubits c' = num_qubits c ∧
      length (calibrations c') = Datatypes.S (length (calibrations c)) ∧
      ∀ p, params !! 0%nat = Some (Symbol p) → ∃ k, _param_idx c p = Return k
  | Raise e =>
      (∃ msg, e = IndexError msg) ∨ backend_raises (_backend s) e ∨
      ∃ p, params !! 0%nat = Some (Symbol p) ∧ p ∉ parameters c
  end.
Proof.
  unfold add_rx_schedule, subscript, bind, lift, get, put, ret.
  destruct (params !! 0%nat) as [[v|p]|]; simpl; [| |left; by eexists].
  - destruct (backend_x_pulse (_backend s) pqubits) as [[[d sg] bt]|e] eqn:Ex; simpl;
      [|right; left; left; by exists pqubits].
    destruct (pqubits !! 0%nat); simpl; [|left; by eexists].
    rewrite length_app. simpl. repeat split; [lia | discriminate].
  - destruct (_param_idx c p) as [idx|e] eqn:E; simpl.
    + destruct (backend_x_pulse (_backend s) pqubits) as [[[d sg] bt]|e] eqn:Ex; simpl;
        [|right; left; left; by exists pqubits].
      destruct (pqubits !! 0%nat); simpl; [|left; by eexists].
      rewrite length_app. simpl. repeat split; [lia|].
      intros p' [= <-]. by exists idx.
    + apply _param_idx_Raise in E as [Hnot _]. right. right. by exists p.
Qed.

Lemma add_rx_schedule_sound params pqubits c s :
  recorded_soundly (parameters c) s (add_rx_schedule params pqubits c s).2.
Proof.
  destruct (add_rx_schedule_records params pqubits c s) as (_ & Hb & Hq & Hmd & _).
  split; [exact Hmd|]. split; [exact Hb|]. split; [exact Hq|].
  pose proof (add_rx_schedule_config params pqubits c s) as Hwc.
  unfold wrapper_config in Hwc. rewrite Hwc. intros k e.
  destruct (params !! 0%nat) as [[v|p]|]; [by left | | by left].
  destruct (_param_idx c p) as [idx|err] eqn:E; [|by left].
  apply _param_idx_Return in E.
  destruct (decide (idx = k)) as [->|Hne].
  - rewrite lookup_insert_eq. intros [= <-]. right. exists p. split; [exact E | by left].
  - rewrite lookup_insert_ne by done. by left.
Qed.

End Scheduling.

Section Scheduling2.
Import AnsatzBuilder.

(** What [add_cr_schedule] returns and how it fails. *)
Lemma add_cr_schedule_spec params pqubits c s :
  match (add_cr_schedule params pqubits c s).1 with
  | Return c' =>
      data c' = data c ∧ num_qubits c' = num_qubits c ∧
      length (calibrations c') = Datatypes.S (length (calibrations c)) ∧
      (∀ p, params !! 0%nat = Some (Symbol p) → ∃ k, _param_idx c p = Return k) ∧
      (∀ p, params !! 1%nat = Some (Symbol p) → ∃ k, _param_idx c p = Return k)
  | Raise e =>
      (∃ msg, e = IndexError msg) ∨ backend_raises (_backend s) e ∨
      ∃ p, (params !! 0%nat = Some (Symbol p) ∨ params !! 1%nat = Some (Symbol p)) ∧
           p ∉ parameters c
  end.
Proof.
  unfold add_cr_schedule, subscript, bind, lift, get, put, ret.
  destruct (params !! 0%nat) as [[v0|p0]|]; cbn -[_get_control_channel];
    [| |left; by eexists].
  all: try (destruct (_param_idx c p0) as [idx0|e0] eqn:E0; cbn -[_get_control_channel];
            [|apply _param_idx_Raise in E0 as [? _]; right; right; exists p0;
              split; [by left | done]]).
  all: destruct (params !! 1%nat) as [[v1|p1]|]; cbn -[_get_control_channel];
    [| |left; by eexists].
  all: try (destruct (_param_idx c p1) as [idx1|e1] eqn:E1; cbn -[_get_control_channel];
            [|apply _param_idx_Raise in E1 as [? _]; right; right; exists p1;
              split; [by right | done]]).
  all: match goal with
       | |- context [_get_control_channel ?q ?st] =>
           destruct (_get_control_channel q st) as [[chan|e] s2] eqn:Ecc
       end; cbn.
  all: try (apply _get_control_channel_raises in Ecc as [?|?]; [by left | by right; left]).
  all: rewrite length_app; simpl; split; [done|]; split; [done|]; split; [lia|].
  all: split; intros p' Hp'; first [discriminate Hp' | injection Hp' as <-; eauto].
Qed.

Lemma add_cr_schedule_sound params pqubits c s :
  recorded_soundly (parameters c) s (add_cr_schedule params pqubits c s).2.
Proof.
  destruct (add_cr_schedule_records params pqubits c s) as (_ & Hb & Hq & Hmd & _).
  split; [exact Hmd|]. split; [exact Hb|]. split; [exact Hq|].
  pose proof (add_cr_schedule_config params pqubits c s) as Hwc.
  unfold wrapper_config in Hwc. rewrite Hwc. cbv zeta. intros k e.
  assert (∀ wc : gmap nat WrapperEntry,
            (wc !! k = Some e →
             _wrapper_config s !! k = Some e ∨
             ∃ p, first_index (parameters c) p k ∧
                  (e = amp_entry p ∨ e = dur_entry (_max_duration s) p)) →
            match params !! 1%nat with
            | Some (Symbol p) =>
                match _param_idx c p with
                | Return idx => <[idx := sin_wrapper ("amp[" +:+ name p +:+ "]")]> wc
                | Raise _ => wc
                end
            | _ => wc
            end !! k = Some e →
            _wrapper_config s !! k = Some e ∨
            ∃ p, first_index (parameters c) p k ∧
                 (e = amp_entry p ∨ e = dur_entry (_max_duration s) p)) as Hamp.
  { intros wc Hwc'. destruct (params !! 1%nat) as [[v|p]|]; [exact Hwc'| |exact Hwc'].
    destruct (_param_idx c p) as [idx|err] eqn:E; [|exact Hwc'].
    apply _param_idx_Return in E.
    destruct (decide (idx = k)) as [->|Hne].
    - rewrite lookup_insert_eq. intros [= <-]. right. exists p. split; [exact E | by left].
    - by rewrite lookup_insert_ne. }
  destruct (params !! 0%nat) as [[v|p]|]; [apply Hamp; by left | | by left].
  destruct (_param_idx c p) as [idx|err] eqn:E; [|by left].
  apply _param_idx_Return in E. apply Hamp.
  destruct (decide (idx = k)) as [->|Hne].
  - rewrite lookup_insert_eq. intros [= <-]. right. exists p. split; [exact E | by right].
  - rewrite lookup_insert_ne by done. by left.
Qed.

End Scheduling2.

Section Scheduling3.
Import AnsatzBuilder.

Lemma add_schedules_unfold circuit :
  add_schedules circuit =
    ((if decide (num_qubits circuit = 0) then raise (IndexError "list index out of range")
      else ret tt);;;
     for_in (data circuit) circuit schedule_instruction).
Proof. reflexivity. Qed.

Lemma _param_idx_present (c : QuantumCircuit GateParam) p :
  p ∈ parameters c → ∃ idx, _param_idx c p = Return idx ∧ first_index (parameters c) p idx.
Proof.
  intros Hin. destruct (_param_idx c p) as [idx|e] eqn:E.
  - exists idx. split; [reflexivity | by apply _param_idx_Return].
  - apply _param_idx_Raise in E as [Hnot _]. by destruct Hnot.
Qed.

Lemma add_rx_schedule_wrapped params pqubits c s :
  let wc' := _wrapper_config (add_rx_schedule params pqubits c s).2 in
  (∀ p, wrapped (_wrapper_config s) (_max_duration s) c p →
        wrapped wc' (_max_duration s) c p) ∧
  (∀ p, params !! 0%nat = Some (Symbol p) → p ∈ parameters c →
        wrapped wc' (_max_duration s) c p).
Proof.
  pose proof (add_rx_schedule_config params pqubits c s) as Hwc.
  unfold wrapper_config in Hwc. cbv zeta. rewrite Hwc. split.
  - intros p Hp. destruct (params !! 0%nat) as [[v|q]|]; [done| |done].
    destruct (_param_idx c q) as [idx|e] eqn:E; [|done].
    apply _param_idx_Return in E. apply (wrapped_insert_other _ _ _ _ q); [done..|by left].
  - intros p -> Hin. destruct (_param_idx_present c p Hin) as (idx & -> & Hidx).
    apply wrapped_insert_new; [exact Hidx | by left].
Qed.

Lemma add_cr_schedule_wrapped params pqubits c s :
  let wc' := _wrapper_config (add_cr_schedule params pqubits c s).2 in
  (∀ p, wrapped (_wrapper_config s) (_max_duration s) c p →
        wrapped wc' (_max_duration s) c p) ∧
  ((∀ q, Symbol q ∈ params → q ∈ parameters c) →
   ∀ p, params !! 0%nat = Some (Symbol p) ∨ params !! 1%nat = Some (Symbol p) →
        wrapped wc' (_max_duration s) c p).
Proof.
  pose proof (add_cr_schedule_config params pqubits c s) as Hwc.
  unfold wrapper_config in Hwc. cbv zeta in *. rewrite Hwc.
  assert (∀ (wc : gmap nat WrapperEntry) p,
            wrapped wc (_max_duration s) c p →
            wrapped
              (match params !! 1%nat with
               | Some (Symbol q) =>
                   match _param_idx c q with
                   | Return idx => <[idx := sin_wrapper ("amp[" +:+ name q +:+ "]")]> wc
                   | Raise _ => wc
                   end
               | _ => wc
               end) (_max_duration s) c p) as Hkeep.
  { intros wc p Hp. destruct (params !! 1%nat) as [[v|q]|]; [done| |done].
    destruct (_param_idx c q) as [idx|e] eqn:E; [|done].
    apply _param_idx_Return in E. apply (wrapped_insert_other _ _ _ _ q); [done..|by left]. }
  split.
  - intros p Hp. destruct (params !! 0%nat) as [[v|q]|]; [by apply Hkeep| |done].
    destruct (_param_idx c q) as [idx|e] eqn:E; [|done].
    apply _param_idx_Return in E. apply Hkeep.
    apply (wrapped_insert_other _ _ _ _ q); [done..|by right].
  - intros Hall p [Hp|Hp].
    + rewrite Hp.
      destruct (_param_idx_present c p) as (idx & -> & Hidx).
      { apply Hall. by apply list_elem_of_lookup_2 in Hp. }
      apply Hkeep. apply wrapped_insert_new; [exact Hidx | by right].
    + assert (∃ g, params !! 0%nat = Some g) as [g Hg].
      { apply lookup_lt_is_Some. apply lookup_lt_Some in Hp. lia. }
      assert (∀ wc : gmap nat WrapperEntry,
                wrapped
                  (match params !! 1%nat with
                   | Some (Symbol q) =>
                       match _param_idx c q with
                       | Return idx => <[idx := sin_wrapper ("amp[" +:+ name q +:+ "]")]> wc
                       | Raise _ => wc
                       end
                   | _ => wc
                   end) (_max_duration s) c p) as Hnew.
      { intros wc. rewrite Hp.
        destruct (_param_idx_present c p) as (idx & -> & Hidx).
        { apply Hall. by apply list_elem_of_lookup_2 in Hp. }
        apply wrapped_insert_new; [exact Hidx | by left]. }
      rewrite Hg. destruct g as [v|q]; [apply Hnew|].
      destruct (_param_idx_present c q) as (idx & -> & Hidx).
      { apply Hall. by apply list_elem_of_lookup_2 in Hg. }
      apply Hnew.
Qed.

End Scheduling3.

Section Scheduling4.
Import AnsatzBuilder.

Lemma scheduled_parameters_rx inst p :
  gate_name (operation inst) = "rx" → p ∈ scheduled_parameters inst →
  gate_params (operation inst) !! 0%nat = Some (Symbol p).
Proof.
  intros Hnm. unfold scheduled_parameters. rewrite Hnm.
  rewrite bool_decide_eq_true_2 by done.
  destruct (gate_params (operation inst)) as [|[v|q] ps]; simpl; intros Hp.
  - by apply elem_of_nil in Hp.
  - by apply elem_of_nil in Hp.
  - by apply list_elem_of_singleton in Hp as ->.
Qed.

Lemma scheduled_parameters_cr inst p :
  gate_name (operation inst) = "cr" → p ∈ scheduled_parameters inst →
  gate_params (operation inst) !! 0%nat = Some (Symbol p) ∨
  gate_params (operation inst) !! 1%nat = Some (Symbol p).
Proof.
  intros Hnm. unfold scheduled_parameters. rewrite Hnm.
  rewrite bool_decide_eq_false_2 by done. rewrite bool_decide_eq_true_2 by done.
  destruct (gate_params (operation inst)) as [|g0 [|g1 ps]]; simpl; intros Hp.
  - by apply elem_of_nil in Hp.
  - destruct g0; simpl in Hp; [by apply elem_of_nil in Hp|].
    apply list_elem_of_singleton in Hp as ->. by left.
  - destruct g0, g1; simpl in Hp.
    + by apply elem_of_nil in Hp.
    + apply list_elem_of_singleton in Hp as ->. by right.
    + apply list_elem_of_singleton in Hp as ->. by left.
    + apply elem_of_cons in Hp as [->|Hp]; [by left|].
      apply list_elem_of_singleton in Hp as ->. by right.
Qed.

Lemma scheduled_parameters_other inst :
  gate_name (operation inst) ≠ "rx" → gate_name (operation inst) ≠ "cr" →
  scheduled_parameters inst = [].
Proof.
  intros Hrx Hcr. unfold scheduled_parameters.
  by rewrite !bool_decide_eq_false_2 by done.
Qed.

(** One iteration of [add_schedules] on an instruction of the circuit: the
    instructions stay, an [rx] or a [cr] gets one calibration and its
    symbolic parameters get their entries, and the only failures are index
    errors and failures of the backend. *)
Lemma schedule_instruction_spec inst (c : QuantumCircuit GateParam) s :
  inst ∈ data c →
  recorded_soundly (parameters c) s (schedule_instruction inst c s).2 ∧
  (∀ p, wrapped (_wrapper_config s) (_max_duration s) c p →
        wrapped (_wrapper_config (schedule_instruction inst c s).2) (_max_duration s) c p) ∧
  match (schedule_instruction inst c s).1 with
  | Return c' =>
      data c' = data c ∧ num_qubits c' = num_qubits c ∧
      length (calibrations c')
        = (length (calibrations c)
           + (if bool_decide (gate_name (operation inst) = "rx")
                 || bool_decide (gate_name (operation inst) = "cr") then 1 else 0))%nat ∧
      ∀ p, p ∈ scheduled_parameters inst →
           wrapped (_wrapper_config (schedule_instruction inst c s).2) (_max_duration s) c p
  | Raise e => (∃ msg, e = IndexError msg) ∨ backend_raises (_backend s) e
  end.
Proof.
  intros Hinst.
  assert (∀ q, Symbol q ∈ gate_params (operation inst) → q ∈ parameters c) as Hall.
  { intros q Hq. by apply (symbol_in_parameters c inst). }
  assert (∀ p, wrapped (_wrapper_config s) (_max_duration s) c p →
               wrapped (_wrapper_config s) (_max_duration s) c p) as Hsame by done.
  unfold schedule_instruction. cbv zeta.
  destruct (decide (gate_name (operation inst) = "cr")) as [Hcr|Hncr];
    [|destruct (decide (gate_name (operation inst) = "rx")) as [Hrx|Hnrx]].
  - (* a cross-resonance gate *)
    pose proof (scheduled_parameters_cr inst) as Hsched.
    rewrite Hcr in *. clear Hcr.
    rewrite (bool_decide_eq_true_2 ("cr" ∈ ["ccr"; "cr"; "rx"])) by by_decide.
    rewrite (bool_decide_eq_true_2 ("cr" = "cr")) by done.
    rewrite (bool_decide_eq_false_2 ("cr" = "rx")) by done.
    erewrite bind_Return by reflexivity.
    destruct (mapM (λ q, _physical_qubits_map s !! Z.to_nat q) (qubits inst)) as [pq|].
    + erewrite bind_Return by reflexivity.
      pose proof (add_cr_schedule_spec (gate_params (operation inst)) pq c s) as Hspec.
      pose proof (add_cr_schedule_sound (gate_params (operation inst)) pq c s) as Hsound.
      pose proof (add_cr_schedule_wrapped (gate_params (operation inst)) pq c s)
        as [Hkeep Hnew].
      destruct (add_cr_schedule (gate_params (operation inst)) pq c s) as [[c'|e] s'] eqn:E.
      * erewrite bind_Return by exact E. simpl in *.
        split; [exact Hsound|]. split; [exact Hkeep|].
        destruct Hspec as (Hd & Hn & Hl & _).
        split; [exact Hd|]. split; [exact Hn|]. split; [lia|].
        intros p Hp. apply (Hnew Hall). by apply Hsched.
      * erewrite bind_Raise by exact E. simpl in *.
        split; [exact Hsound|]. split; [exact Hkeep|].
        destruct Hspec as [?|[?|(p & [Hp|Hp] & Hnot)]]; [by left | by right | |];
          destruct Hnot; apply Hall; by apply list_elem_of_lookup_2 in Hp.
    + erewrite bind_Raise by reflexivity. simpl.
      split; [apply recorded_soundly_refl|]. split; [exact Hsame|]. left. by eexists.
  - (* an rx gate *)
    pose proof (scheduled_parameters_rx inst) as Hsched.
    rewrite Hrx in *. clear Hrx.
    rewrite (bool_decide_eq_true_2 ("rx" ∈ ["ccr"; "cr"; "rx"])) by by_decide.
    rewrite (bool_decide_eq_false_2 ("rx" = "cr")) by done.
    rewrite (bool_decide_eq_true_2 ("rx" = "rx")) by done.
    erewrite bind_Return by reflexivity.
    destruct (mapM (λ q, _physical_qubits_map s !! Z.to_nat q) (qubits inst)) as [pq|].
    + erewrite bind_Return by reflexivity. erewrite bind_Return by reflexivity.
      pose proof (add_rx_schedule_spec (gate_params (operation inst)) pq c s) as Hspec.
      pose proof (add_rx_schedule_sound (gate_params (operation inst)) pq c s) as Hsound.
      pose proof (add_rx_schedule_wrapped (gate_params (operation inst)) pq c s)
        as [Hkeep Hnew].
      destruct (add_rx_schedule (gate_params (operation inst)) pq c s) as [[c'|e] s'] eqn:E;
        simpl in *.
      * split; [exact Hsound|]. split; [exact Hkeep|].
        destruct Hspec as (Hd & Hn & Hl & _).
        split; [exact Hd|]. split; [exact Hn|]. split; [lia|].
        intros p Hp. apply Hnew; [by apply Hsched|].
        apply Hall. apply (list_elem_of_lookup_2 _ 0%nat). by apply Hsched.
      * split; [exact Hsound|]. split; [exact Hkeep|].
        destruct Hspec as [?|[?|(p & Hp & Hnot)]]; [by left | by right |].
        destruct Hnot; apply Hall; by apply list_elem_of_lookup_2 in Hp.
    + erewrite bind_Raise by reflexivity. simpl.
      split; [apply recorded_soundly_refl|]. split; [exact Hsame|]. left. by eexists.
  - (* any other gate, [ccr] included *)
    rewrite (bool_decide_eq_false_2 (gate_name (operation inst) = "cr")) by done.
    rewrite (bool_decide_eq_false_2 (gate_name (operation inst) = "rx")) by done.
    rewrite (scheduled_parameters_other inst Hnrx Hncr).
    destruct (bool_decide (gate_name (operation inst) ∈ ["ccr"; "cr"; "rx"])).
    + erewrite bind_Return by reflexivity.
      destruct (mapM (λ q, _physical_qubits_map s !! Z.to_nat q) (qubits inst)) as [pq|].
      * erewrite bind_Return by reflexivity. erewrite bind_Return by reflexivity.
        simpl. split; [apply recorded_soundly_refl|]. split; [exact Hsame|].
        repeat split; [lia|]. intros p Hp. by apply elem_of_nil in Hp.
      * erewrite bind_Raise by reflexivity. simpl.
        split; [apply recorded_soundly_refl|]. split; [exact Hsame|]. left. by eexists.
    + simpl. split; [apply recorded_soundly_refl|]. split; [exact Hsame|].
      repeat split; [lia|]. intros p Hp. by apply elem_of_nil in Hp.
Qed.

End Scheduling4.

Section Scheduling5.
Import AnsatzBuilder.

Lemma wrapped_data wc md (c c' : QuantumCircuit GateParam) p :
  data c = data c' → wrapped wc md c p → wrapped wc md c' p.
Proof.
  intros Hd (k & Hk & Hwc). exists k. by rewrite <- (parameters_data c c' Hd).
Qed.

Lemma scheduled_count_snoc (done : list (CircuitInstruction GateParam)) inst :
  scheduled_count (mkQuantumCircuit 0 None (done ++ [inst]) [])
    = (scheduled_count (mkQuantumCircuit 0 None done [])
       + (if bool_decide (gate_name (operation inst) = "rx")
             || bool_decide (gate_name (operation inst) = "cr") then 1 else 0))%nat.
Proof.
  destruct inst as [gate qs]. unfold scheduled_count.
  change (mkQuantumCircuit 0 None (done ++ [(gate, qs)]) [])
    with (mkQuantumCircuit 0 None
            (data (mkQuantumCircuit 0 None done [] : QuantumCircuit GateParam)
             ++ [(gate, qs)]) []).
  rewrite !count_gates_snoc. unfold operation. simpl.
  destruct (decide (gate_name gate = "rx")) as [Hrx|Hrx];
    destruct (decide (gate_name gate = "cr")) as [Hcr|Hcr].
  - rewrite Hrx in Hcr. discriminate.
  - rewrite (bool_decide_eq_true_2 _ Hrx). simpl. lia.
  - rewrite (bool_decide_eq_false_2 _ Hrx), (bool_decide_eq_true_2 _ Hcr). simpl. lia.
  - rewrite (bool_decide_eq_false_2 _ Hrx), (bool_decide_eq_false_2 _ Hcr). simpl. lia.
Qed.

(** What [add_schedules] does to a circuit and to the builder. *)
Lemma add_schedules_spec circuit s :
  match add_schedules circuit s with
  | (Return c', s') =>
      data c' = data circuit ∧ num_qubits c' = num_qubits circuit ∧
      length (calibrations c')
        = (length (calibrations circuit) + scheduled_count circuit)%nat ∧
      recorded_soundly (parameters circuit) s s' ∧
      ∀ inst p, inst ∈ data circuit → p ∈ scheduled_parameters inst →
                wrapped (_wrapper_config s') (_max_duration s) circuit p
  | (Raise e, s') =>
      ((∃ msg, e = IndexError msg) ∨ backend_raises (_backend s) e) ∧
      recorded_soundly (parameters circuit) s s'
  end.
Proof.
  rewrite add_schedules_unfold.
  destruct (decide (num_qubits circuit = 0)) as [Hz|Hnz].
  { erewrite bind_Raise by reflexivity.
    split; [left; by eexists | apply recorded_soundly_refl]. }
  erewrite bind_Return by reflexivity.
  apply (for_in_partial
    (λ done (c : QuantumCircuit GateParam) s1,
       data c = data circuit ∧ num_qubits c = num_qubits circuit ∧
       length (calibrations c)
         = (length (calibrations circuit)
            + scheduled_count (mkQuantumCircuit 0 None done []))%nat ∧
       recorded_soundly (parameters circuit) s s1 ∧
       ∀ inst p, inst ∈ done → p ∈ scheduled_parameters inst →
                 wrapped (_wrapper_config s1) (_max_duration s) circuit p)
    (λ e s1, ((∃ msg, e = IndexError msg) ∨ backend_raises (_backend s) e) ∧
             recorded_soundly (parameters circuit) s s1)).
  - split; [done|]. split; [done|].
    split; [unfold scheduled_count, count_gates; simpl; lia|].
    split; [apply recorded_soundly_refl|]. intros inst p Hin. by apply elem_of_nil in Hin.
  - intros done inst rest c s1 Hsplit (Hd & Hn & Hl & Hs & Hw).
    assert (inst ∈ data c) as Hinst.
    { rewrite Hd, Hsplit. apply elem_of_app. right. apply elem_of_cons. by left. }
    destruct (schedule_instruction_spec inst c s1 Hinst) as (Hs1 & Hkeep & Hout).
    rewrite (parameters_data c circuit Hd) in Hs1.
    pose proof Hs as (Hmd & Hb & _). rewrite Hmd in Hkeep, Hout.
    destruct (schedule_instruction inst c s1) as [[c1|e1] s2]; simpl in *.
    + destruct Hout as (Hd1 & Hn1 & Hl1 & Hnew).
      split; [congruence|]. split; [congruence|].
      split; [rewrite scheduled_count_snoc; lia|].
      split; [by apply (recorded_soundly_trans _ _ s1)|].
      intros inst' p Hin Hp. apply elem_of_app in Hin as [Hin|Hin].
      * apply (wrapped_data _ _ c); [exact Hd|]. apply Hkeep.
        apply (wrapped_data _ _ circuit); [done|]. by apply (Hw inst').
      * apply list_elem_of_singleton in Hin as ->.
        apply (wrapped_data _ _ c); [exact Hd|]. by apply Hnew.
    + split; [by rewrite <- Hb | by apply (recorded_soundly_trans _ _ s1)].
Qed.

End Scheduling5.





(** X7: when [add_schedules] returns, every symbolic parameter it read (the
    amplitude of each [rx], the duration and the amplitude of each [cr]) has
    a wrapper entry under its index in [circuit.parameters], labelled with
    its name. *)
Theorem X7_add_schedules_wraps_parameters (circuit c' : QuantumCircuit GateParam)
    (s s' : AnsatzBuilder.self) :
  AnsatzBuilder.add_schedules circuit s = (Return c', s') →
  ∀ inst p, inst ∈ data circuit → p ∈ scheduled_parameters inst →
    wrapped (AnsatzBuilder.wrapper_config s') (AnsatzBuilder._max_duration s) circuit p.
Proof.
  intros E. pose proof (add_schedules_spec circuit s) as H. rewrite E in H.
  destruct H as (_ & _ & _ & _ & Hw). exact Hw.
Qed.

Lemma X7_add_schedules_wraps_parameters_witness :
  let builder :=
    AnsatzBuilder.__init__
      (AnsatzBuilder.mkBackend None None (λ _, Return (160, Qc_of_Z 40, Qc_of_Z 1)))
      [5; 7] None (Qc_of_Z 800) in
  let cr := (mkGate "cr" 2 [Symbol (mkParam "t1"); Symbol (mkParam "phi2")] [], [0; 1]) in
  let circuit :=
    mkQuantumCircuit 2 None [(mkGate "rx" 1 [Symbol (mkParam "phi0")] [], [0]); cr] [] in
  ∃ c' s', AnsatzBuilder.add_schedules circuit builder = (Return c', s') ∧
           wrapped (AnsatzBuilder.wrapper_config s') (Qc_of_Z 800) circuit (mkParam "t1").
Proof.
  intros builder cr circuit.
  assert (∃ c' s', AnsatzBuilder.add_schedules circuit builder = (Return c', s'))
    as (c' & s' & E) by (eexists _, _; vm_compute; reflexivity).
  exists c', s'. split; [exact E|].
  apply (X7_add_schedules_wraps_parameters circuit c' builder s' E cr).
  - apply elem_of_cons. right. apply elem_of_cons. by left.
  - apply elem_of_cons. by left.
Defined.

(** X8: whatever [add_schedules] does, each wrapper entry it leaves is an
    entry that was there before or the entry of a parameter of the circuit,
    stored under that parameter's index; so from an empty wrapper config
    every key is a valid position in [circuit.parameters]. *)
Theorem X8_wrapper_keys_are_parameter_positions (circuit : QuantumCircuit GateParam)
    (s : AnsatzBuilder.self) :
  let s' := (AnsatzBuilder.add_schedules circuit s).2 in
  recorded_soundly (parameters circuit) s s' ∧
  (AnsatzBuilder.wrapper_config s = ∅ →
   ∀ k, k ∈ dom (AnsatzBuilder.wrapper_config s') →
        (k < length (parameters circuit))%nat).
Proof.
  intros s'. subst s'.
  assert (recorded_soundly (parameters circuit) s (AnsatzBuilder.add_schedules circuit s).2)
    as Hsound.
  { pose proof (add_schedules_spec circuit s) as H.
    destruct (AnsatzBuilder.add_schedules circuit s) as [[c'|e] s']; simpl.
    - by destruct H as (_ & _ & _ & H & _).
    - by destruct H as [_ H]. }
  split; [exact Hsound|].
  intros Hempty k Hk. apply elem_of_dom in Hk as [entry Hk].
  destruct Hsound as (_ & _ & _ & Hkeys).
  destruct (Hkeys k entry Hk) as [Hold|(p & [Hp _] & _)].
  - unfold AnsatzBuilder.wrapper_config in Hempty. rewrite Hempty in Hold.
    by rewrite lookup_empty in Hold.
  - by apply lookup_lt_Some in Hp.
Qed.

Lemma X8_wrapper_keys_are_parameter_positions_witness :
  let builder :=
    AnsatzBuilder.__init__
      (AnsatzBuilder.mkBackend None None (λ _, Return (160, Qc_of_Z 40, Qc_of_Z 1)))
      [5; 7] None (Qc_of_Z 800) in
  let circuit :=
    mkQuantumCircuit 2 None
      [(mkGate "rx" 1 [Symbol (mkParam "phi0")] [], [0]);
       (mkGate "cr" 2 [Symbol (mkParam "t1"); Symbol (mkParam "phi2")] [], [0; 1])] [] in
  recorded_soundly (parameters circuit) builder
    (AnsatzBuilder.add_schedules circuit builder).2 ∧
  ∀ k, k ∈ dom (AnsatzBuilder.wrapper_config
                  (AnsatzBuilder.add_schedules circuit builder).2) →
       (k < 3)%nat.
Proof.
  intros builder circuit.
  destruct (X8_wrapper_keys_are_parameter_positions circuit builder) as [Hsound Hkeys].
  split; [exact Hsound | exact (Hkeys eq_refl)].
Defined.

(** ** [pulse_ansatz.py]: the layout of the ansatz *)

Section AnsatzLayout.
Import AnsatzBuilder PulseAnsatz.

Lemma for_in_fmap {S X Y A} (f : X → Y) (xs : list X) (a : A) (body : Y → A → M S A) s :
  for_in (f <$> xs) a body s = for_in xs a (λ x, body (f x)) s.
Proof.
  revert a s. induction xs as [|x0 xs IH]; intros a s; [reflexivity|].
  rewrite fmap_cons. simpl. unfold bind.
  destruct (body (f x0) a s) as [[a'|e] s']; [apply IH | reflexivity].
Qed.

(** [add_cr] on a pair of distinct qubits of the circuit: the gate holds the
    duration, given or new, then a new amplitude. *)
Lemma add_cr_run c q1 q2 duration s :
  0 ≤ q1 < num_qubits c → 0 ≤ q2 < num_qubits c → q1 ≠ q2 →
  let len := length (_params s) in
  let created :=
    match duration with
    | None => [mkParam ("t" +:+ str_nat len); mkParam ("phi" +:+ str_nat (len + 1))]
    | Some _ => [mkParam ("phi" +:+ str_nat len)]
    end in
  let dur := match duration with
             | None => mkParam ("t" +:+ str_nat len)
             | Some d => d
             end in
  let phi := match duration with
             | None => mkParam ("phi" +:+ str_nat (len + 1))
             | Some _ => mkParam ("phi" +:+ str_nat len)
             end in
  add_cr c (q1, q2) duration s =
    (Return (mkQuantumCircuit (num_qubits c) (circuit_name c)
               (data c ++ [(mkGate "cr" 2 [Symbol dur; Symbol phi] [], [q1; q2])])
               (calibrations c)),
     set_params (_params s ++ created) s).
Proof.
  intros Hq1 Hq2 Hne len created dur phi. unfold add_cr.
  destruct duration as [d|]; subst created dur phi len.
  - erewrite bind_Return by reflexivity.
    erewrite bind_Return by apply AnsatzBuilder_new_param_run.
    by erewrite lift_Return by (apply append_2; [reflexivity | assumption..]).
  - erewrite bind_Return by apply AnsatzBuilder_new_param_run.
    erewrite bind_Return by apply AnsatzBuilder_new_param_run.
    erewrite lift_Return by (apply append_2; [reflexivity | assumption..]).
    simpl. rewrite length_app, <- app_assoc. reflexivity.
Qed.

(** A pass of [add_cr] over valid pairs adds one [cr] per pair, in order,
    and two parameters per pair. *)
Lemma cr_pairs_pass n (pairs : list (Z * Z)) c s :
  num_qubits c = n → Forall (valid_pair n) pairs →
  ∃ c' s',
    for_in pairs c (λ pr ansatz, add_cr ansatz pr None) s = (Return c', s') ∧
    num_qubits c' = n ∧
    layout c' = layout c ++ cr_entries pairs ∧
    length (_params s') = (length (_params s) + 2 * length pairs)%nat.
Proof.
  intros Hn Hpairs.
  apply (for_in_ind
           (λ done (c' : QuantumCircuit GateParam) (s' : AnsatzBuilder.self),
              num_qubits c' = n ∧
              layout c' = layout c ++ cr_entries done ∧
              length (_params s') = (length (_params s) + 2 * length done)%nat)).
  - split; [exact Hn|]. split; [by rewrite app_nil_r | simpl; lia].
  - intros done [q1 q2] rest c1 s1 Hsplit (Hn1 & Hl1 & Hp1).
    assert (valid_pair n (q1, q2)) as (Hq1 & Hq2 & Hne).
    { rewrite Forall_forall in Hpairs. apply Hpairs. rewrite Hsplit.
      apply elem_of_app. right. apply elem_of_cons. by left. }
    simpl in Hq1, Hq2, Hne.
    eexists _, _. split; [apply add_cr_run; [lia | lia | done]|].
    split; [exact Hn1|]. split.
    + rewrite layout_snoc, Hl1. unfold cr_entries. rewrite fmap_app, <- app_assoc.
      reflexivity.
    + simpl. rewrite !length_app, Hp1. simpl. lia.
Qed.

(** The rotation loop, with the parameters it creates. *)
Lemma layer_rotations_run (add_rz : bool) n c s :
  num_qubits c = n →
  ∃ c' s',
    for_in (range 0 n 1) c (λ qubit ansatz,
      ansatz <- add_rx ansatz qubit;;
      if add_rz then
        (phi <- new_param "phi";; lift (rz (Symbol phi) qubit ansatz))
      else ret ansatz) s = (Return c', s') ∧
    num_qubits c' = n ∧
    layout c' = layout c ++ flat_map (qubit_rotations add_rz) (range 0 n 1) ∧
    length (_params s')
      = (length (_params s) + range_len 0 n 1 * (if add_rz then 2 else 1))%nat.
Proof.
  intros Hn. rewrite <- (length_range 0 n 1).
  apply (for_in_ind
           (λ done (c' : QuantumCircuit GateParam) (s' : AnsatzBuilder.self),
              num_qubits c' = n ∧
              layout c' = layout c ++ flat_map (qubit_rotations add_rz) done ∧
              length (_params s')
                = (length (_params s) + length done * (if add_rz then 2 else 1))%nat)).
  - split; [exact Hn|]. split; [by rewrite app_nil_r | simpl; lia].
  - intros done q rest c1 s1 Hsplit (Hn1 & Hl1 & Hp1).
    assert (q ∈ range 0 n 1) as Hq.
    { rewrite Hsplit. apply elem_of_app. right. apply elem_of_cons. by left. }
    apply elem_of_range_1 in Hq.
    erewrite bind_Return by (apply add_rx_ok; lia).
    assert (flat_map (qubit_rotations add_rz) (done ++ [q])
            = flat_map (qubit_rotations add_rz) done ++ qubit_rotations add_rz q) as Hflat.
    { rewrite flat_map_app. simpl. by rewrite app_nil_r. }
    destruct add_rz.
    + erewrite bind_Return by apply AnsatzBuilder_new_param_run.
      eexists _, _.
      split; [apply lift_Return; unfold rz; apply append_1; [reflexivity | simpl; lia]|].
      split; [exact Hn1|]. split.
      * rewrite Hflat, !layout_snoc, Hl1, <- !app_assoc. reflexivity.
      * simpl. rewrite !length_app, Hp1. simpl. lia.
    + eexists _, _. split; [reflexivity|]. split; [exact Hn1|]. split.
      * rewrite Hflat, layout_snoc, Hl1, <- app_assoc. reflexivity.
      * simpl. rewrite !length_app, Hp1. simpl. lia.
Qed.

(** One layer, for any entanglement whose pairs fit the circuit. *)
Lemma _layer_run this s :
  0 ≤ _num_qubits this → Forall (valid_pair (_num_qubits this)) (entangling_pairs this) →
  ∃ c s', CRAnsatz._layer this s = (Return c, s') ∧
    num_qubits c = _num_qubits this ∧
    layout c = layer_layout this ∧
    length (_params s') = (length (_params s) + layer_param_count this)%nat.
Proof.
  intros Hn Hvalid. unfold CRAnsatz._layer, layer_layout, layer_param_count.
  set (n := _num_qubits this) in *.
  erewrite bind_Return by (apply lift_Return, new_circuit_ok, Hn).
  destruct (layer_rotations_run (_add_rz this) n (mkQuantumCircuit n None [] []) s eq_refl)
    as (c1 & s1 & E1 & Hn1 & Hl1 & Hp1).
  erewrite bind_Return by exact E1.
  unfold entangling_pairs in *. fold n in Hvalid |- *.
  destruct (_entanglement this) as [str|pairs|]; simpl.
  - destruct (bool_decide (str = "interleaved")).
    + unfold interleaved_pairs in *. apply Forall_app in Hvalid as [Hv1 Hv2].
      destruct (cr_pairs_pass n _ c1 s1 Hn1 Hv1) as (c2 & s2 & E2 & Hn2 & Hl2 & Hp2).
      destruct (cr_pairs_pass n _ c2 s2 Hn2 Hv2) as (c3 & s3 & E3 & Hn3 & Hl3 & Hp3).
      rewrite for_in_fmap in E2, E3.
      erewrite bind_Return; [|erewrite bind_Return by exact E2; exact E3].
      erewrite bind_Return by reflexivity.
      exists c3, s3. split; [reflexivity|]. split; [exact Hn3|]. split.
      * rewrite Hl3, Hl2, Hl1. unfold cr_entries. rewrite fmap_app, <- !app_assoc.
        reflexivity.
      * rewrite Hp3, Hp2, Hp1, length_app. lia.
    + erewrite bind_Return by reflexivity. erewrite bind_Return by reflexivity.
      exists c1, s1. split; [reflexivity|]. split; [exact Hn1|]. split.
      * rewrite Hl1. unfold cr_entries. simpl. by rewrite app_nil_r.
      * rewrite Hp1. simpl. lia.
  - erewrite bind_Return by reflexivity.
    destruct (cr_pairs_pass n pairs c1 s1 Hn1 Hvalid) as (c2 & s2 & E2 & Hn2 & Hl2 & Hp2).
    erewrite bind_Return by exact E2.
    exists c2, s2. split; [reflexivity|]. split; [exact Hn2|]. split.
    + by rewrite Hl2, Hl1.
    + rewrite Hp2, Hp1. lia.
  - erewrite bind_Return by reflexivity. erewrite bind_Return by reflexivity.
    exists c1, s1. split; [reflexivity|]. split; [exact Hn1|]. split.
    + rewrite Hl1. unfold cr_entries. simpl. by rewrite app_nil_r.
    + rewrite Hp1. simpl. lia.
Qed.

End AnsatzLayout.

Section AnsatzLayout2.
Import AnsatzBuilder PulseAnsatz.

Lemma elem_of_range_up2_iff x start stop :
  x ∈ range start stop 2 ↔ start ≤ x < stop ∧ (x - start) `mod` 2 = 0.
Proof.
  split; [apply elem_of_range_up2|]. intros [Hx Hmod].
  apply elem_of_range. exists (Z.to_nat ((x - start) `div` 2)).
  pose proof (Z.div_mod (x - start) 2 ltac:(lia)) as Hdm. rewrite Hmod in Hdm.
  assert (0 ≤ (x - start) `div` 2) by (apply Z.div_pos; lia).
  split; [|lia]. unfold range_len. destruct (decide (0 < 2)) as [_|?]; [|lia].
  assert ((x - start) `div` 2 + 1 ≤ (stop - start + 2 - 1) `div` 2)
    by (apply Z.div_le_lower_bound; lia).
  lia.
Qed.

Lemma NoDup_range start stop step : step ≠ 0 → NoDup (range start stop step).
Proof.
  intros Hstep. unfold range. apply NoDup_fmap_2_strong; [|apply NoDup_seq].
  intros k1 k2 _ _ Heq. nia.
Qed.

(** For an even qubit count the two interleaved passes stay inside the
    circuit. *)
Lemma interleaved_pairs_valid n :
  n `mod` 2 = 0 → Forall (valid_pair n) (interleaved_pairs n).
Proof.
  intros Heven. unfold interleaved_pairs. rewrite (range_even_stop n Heven).
  apply Forall_app. split; apply Forall_fmap;
    (eapply Forall_impl; [apply range_up2_neighbours; lia|]);
    intros q [Hq0 Hq1]; unfold valid_pair; simpl; lia.
Qed.

(** Together the two passes visit every pair of neighbours once. *)
Lemma interleaved_pairs_neighbours n :
  n `mod` 2 = 0 →
  interleaved_pairs n ≡ₚ (λ q, (q, q + 1)) <$> range 0 (n - 1) 1.
Proof.
  intros Heven. unfold interleaved_pairs. rewrite <- fmap_app. apply fmap_Permutation.
  rewrite (range_even_stop n Heven).
  apply NoDup_Permutation.
  - apply NoDup_app. split; [by apply NoDup_range|]. split; [|by apply NoDup_range].
    intros x [_ H0]%elem_of_range_up2 [_ H1]%elem_of_range_up2.
    rewrite Z.sub_0_r in H0.
    replace (x - 1) with (x + (-1) * 2 + 1) in H1 by lia.
    rewrite <- Z.add_assoc, (Z.add_comm ((-1) * 2)), Z.add_assoc in H1.
    rewrite Z.mod_add in H1 by lia.
    rewrite <- Zplus_mod_idemp_l, H0 in H1. discriminate H1.
  - by apply NoDup_range.
  - intros x. rewrite elem_of_app, !elem_of_range_up2_iff, elem_of_range_1. split.
    + intros [[Hx _]|[Hx _]]; lia.
    + intros Hx. destruct (Z.eq_dec (x `mod` 2) 0) as [H0|H1].
      * left. split; [lia|]. by rewrite Z.sub_0_r.
      * right. split; [|].
        -- assert (x ≠ 0) by (intros ->; by apply H1). lia.
        -- pose proof (Z.mod_pos_bound x 2 ltac:(lia)).
           pose proof (Z.div_mod x 2 ltac:(lia)).
           replace (x - 1) with (0 + (x `div` 2) * 2) by lia.
           by rewrite Z.mod_add by lia.
Qed.

Lemma compose_ok (layer ansatz : QuantumCircuit GateParam) :
  num_qubits layer ≤ num_qubits ansatz →
  compose layer ansatz =
    Return (mkQuantumCircuit (num_qubits ansatz) (circuit_name ansatz)
              (data ansatz ++ data layer) (calibrations ansatz ++ calibrations layer)).
Proof. intros Hn. unfold compose. by rewrite decide_False by lia. Qed.

Lemma layout_compose (layer ansatz : QuantumCircuit GateParam) n nm cals :
  layout (mkQuantumCircuit n nm (data ansatz ++ data layer) cals)
    = layout ansatz ++ layout layer.
Proof. unfold layout. simpl. by rewrite fmap_app. Qed.

Lemma concat_replicate_snoc {A} (l : list A) k :
  concat (replicate (k + 1) l) = concat (replicate k l) ++ l.
Proof.
  induction k as [|k IH]; simpl; [by rewrite app_nil_r|].
  by rewrite IH, app_assoc.
Qed.

(** The closing rotations of [circuit]. *)
Lemma final_rx_run n c s :
  num_qubits c = n →
  ∃ c' s',
    for_in (range 0 n 1) c (λ qubit ansatz, add_rx ansatz qubit) s = (Return c', s') ∧
    num_qubits c' = n ∧
    layout c' = layout c ++ flat_map (qubit_rotations false) (range 0 n 1) ∧
    length (_params s') = (length (_params s) + range_len 0 n 1)%nat.
Proof.
  intros Hn. rewrite <- (length_range 0 n 1).
  apply (for_in_ind
           (λ done (c' : QuantumCircuit GateParam) (s' : AnsatzBuilder.self),
              num_qubits c' = n ∧
              layout c' = layout c ++ flat_map (qubit_rotations false) done ∧
              length (_params s') = (length (_params s) + length done)%nat)).
  - split; [exact Hn|]. split; [by rewrite app_nil_r | simpl; lia].
  - intros done q rest c1 s1 Hsplit (Hn1 & Hl1 & Hp1).
    assert (q ∈ range 0 n 1) as Hq.
    { rewrite Hsplit. apply elem_of_app. right. apply elem_of_cons. by left. }
    apply elem_of_range_1 in Hq.
    eexists _, _. split; [apply add_rx_ok; lia|]. split; [exact Hn1|]. split.
    + rewrite layout_snoc, Hl1, flat_map_app, <- app_assoc. simpl. reflexivity.
    + simpl. rewrite !length_app, Hp1. simpl. lia.
Qed.

(** The whole ansatz, for any entanglement whose pairs fit the circuit. *)
Lemma circuit_run this s :
  0 ≤ _num_qubits this → Forall (valid_pair (_num_qubits this)) (entangling_pairs this) →
  ∃ c s', CRAnsatz.circuit this s = (Return c, s') ∧
    num_qubits c = _num_qubits this ∧
    layout c = ansatz_layout this ∧
    length (_params s')
      = (length (_params s) + range_len 0 (_reps this) 1 * layer_param_count this
         + (if _final_rx this then range_len 0 (_num_qubits this) 1 else 0))%nat.
Proof.
  intros Hn Hvalid. unfold CRAnsatz.circuit, PulseAnsatz.circuit, ansatz_layout.
  set (n := _num_qubits this) in *.
  erewrite bind_Return by (apply lift_Return, new_circuit_ok, Hn).
  destruct (for_in_ind
              (λ done (c : QuantumCircuit GateParam) (s' : AnsatzBuilder.self),
                 num_qubits c = n ∧
                 layout c = concat (replicate (length done) (layer_layout this)) ∧
                 length (_params s')
                   = (length (_params s) + length done * layer_param_count this)%nat)
              (range 0 (_reps this) 1)
              (λ (_ : Z) ansatz, layer <- CRAnsatz._layer this;; lift (compose layer ansatz))
              (mkQuantumCircuit n None [] []) s)
    as (c1 & s1 & E1 & Hn1 & Hl1 & Hp1).
  - split; [reflexivity|]. split; [reflexivity | simpl; lia].
  - intros done k rest c0 s0 _ (Hn0 & Hl0 & Hp0).
    destruct (_layer_run this s0 Hn Hvalid) as (layer & s2 & E & Hnl & Hll & Hpl).
    erewrite bind_Return by exact E.
    eexists _, _. split; [apply lift_Return, compose_ok; fold n in Hnl; lia|].
    split; [exact Hn0|]. split.
    + rewrite layout_compose, Hl0, Hll, length_app. simpl.
      by rewrite concat_replicate_snoc.
    + rewrite Hpl, Hp0, length_app. simpl. lia.
  - erewrite bind_Return by exact E1. rewrite length_range in Hl1, Hp1.
    destruct (_final_rx this).
    + destruct (final_rx_run n c1 s1 Hn1) as (c2 & s2 & E2 & Hn2 & Hl2 & Hp2).
      erewrite bind_Return by exact E2.
      exists c2, s2. split; [reflexivity|]. split; [exact Hn2|]. split.
      * by rewrite Hl2, Hl1.
      * rewrite Hp2, Hp1. lia.
    + erewrite bind_Return by reflexivity.
      exists c1, s1. split; [reflexivity|]. split; [exact Hn1|]. split.
      * by rewrite Hl1, app_nil_r.
      * rewrite Hp1. lia.
Qed.

End AnsatzLayout2.

(** Picking the cross-resonance entries out of a layout. *)
Lemma filter_cr_rotations b l :
  filter (λ e : string * list Z, e.1 = "cr") (flat_map (qubit_rotations b) l) = [].
Proof.
  induction l as [|q l IH]; [reflexivity|].
  change (flat_map (qubit_rotations b) (q :: l))
    with (qubit_rotations b q ++ flat_map (qubit_rotations b) l).
  rewrite filter_app, IH, app_nil_r. by destruct b.
Qed.

Lemma filter_cr_entries pairs :
  filter (λ e : string * list Z, e.1 = "cr") (cr_entries pairs) = cr_entries pairs.
Proof.
  unfold cr_entries. induction pairs as [|pq l IH]; [reflexivity|].
  rewrite fmap_cons, filter_cons_True by reflexivity. by rewrite IH.
Qed.

(** X9: a layer whose entangling pairs are pairs of distinct qubits of the
    register is built without an exception; it holds the rotations of the
    qubits in order, then one cross-resonance gate per pair in the order of
    the loops, and creates one parameter per rotation and two per pair. *)
Theorem X9_layer_layout (this : PulseAnsatz.self) (s : AnsatzBuilder.self) :
  0 ≤ PulseAnsatz._num_qubits this →
  Forall (valid_pair (PulseAnsatz._num_qubits this)) (entangling_pairs this) →
  ∃ c s', CRAnsatz._layer this s = (Return c, s') ∧
    num_qubits c = PulseAnsatz._num_qubits this ∧
    layout c = layer_layout this ∧
    length (AnsatzBuilder._params s')
      = (length (AnsatzBuilder._params s) + layer_param_count this)%nat.
Proof. apply _layer_run. Qed.

Lemma X9_layer_layout_witness :
  let this := PulseAnsatz.mkSelf 3 1 (PulseAnsatz.EntList [(0, 2); (2, 1)]) true false in
  let builder :=
    AnsatzBuilder.__init__
      (AnsatzBuilder.mkBackend None None (λ _, Raise (BackendError "no default schedule")))
      [0; 1; 2] None (Qc_of_Z 800) in
  ∃ c s', CRAnsatz._layer this builder = (Return c, s') ∧
    layout c = [("rx", [0]); ("rz", [0]); ("rx", [1]); ("rz", [1]); ("rx", [2]); ("rz", [2]);
                ("cr", [0; 2]); ("cr", [2; 1])] ∧
    length (AnsatzBuilder._params s') = 10%nat.
Proof.
  intros this builder.
  destruct (X9_layer_layout this builder) as (c & s' & E & _ & Hl & Hp).
  { simpl. lia. }
  { repeat constructor; simpl; lia. }
  exists c, s'. split; [exact E|]. split; [exact Hl | exact Hp].
Defined.

(** X10: with an even qubit count the two interleaved passes stay inside the
    register and visit each pair of neighbouring qubits [(q, q + 1)],
    [0 ≤ q < N - 1], exactly once, so the layer is built and holds one
    cross-resonance gate per neighbouring pair. *)
Theorem X10_interleaved_covers_neighbours (this : PulseAnsatz.self) (s : AnsatzBuilder.self) :
  PulseAnsatz._entanglement this = PulseAnsatz.EntStr "interleaved" →
  PulseAnsatz._num_qubits this `mod` 2 = 0 → 0 ≤ PulseAnsatz._num_qubits this →
  ∃ c s' pairs, CRAnsatz._layer this s = (Return c, s') ∧
    filter (λ e, e.1 = "cr") (layout c) = cr_entries pairs ∧
    Forall (valid_pair (PulseAnsatz._num_qubits this)) pairs ∧
    pairs ≡ₚ (λ q, (q, q + 1)) <$> range 0 (PulseAnsatz._num_qubits this - 1) 1.
Proof.
  intros Hent Heven Hn.
  assert (entangling_pairs this = interleaved_pairs (PulseAnsatz._num_qubits this)) as Hpairs
    by (unfold entangling_pairs; by rewrite Hent).
  destruct (_layer_run this s Hn) as (c & s' & E & _ & Hl & _).
  { rewrite Hpairs. by apply interleaved_pairs_valid. }
  exists c, s', (interleaved_pairs (PulseAnsatz._num_qubits this)).
  split; [exact E|]. split; [|split].
  - rewrite Hl. unfold layer_layout.
    by rewrite filter_app, Hpairs, filter_cr_rotations, filter_cr_entries.
  - by apply interleaved_pairs_valid.
  - by apply interleaved_pairs_neighbours.
Qed.

Lemma X10_interleaved_covers_neighbours_witness :
  let this := PulseAnsatz.mkSelf 4 1 (PulseAnsatz.EntStr "interleaved") false false in
  let builder :=
    AnsatzBuilder.__init__
      (AnsatzBuilder.mkBackend None None (λ _, Raise (BackendError "no default schedule")))
      [0; 1; 2; 3] None (Qc_of_Z 800) in
  ∃ c s' pairs, CRAnsatz._layer this builder = (Return c, s') ∧
    filter (λ e, e.1 = "cr") (layout c) = cr_entries pairs ∧
    pairs ≡ₚ [(0, 1); (1, 2); (2, 3)].
Proof.
  intros this builder.
  destruct (X10_interleaved_covers_neighbours this builder) as (c & s' & pairs & E & Hl & _ & Hp).
  { reflexivity. }
  { reflexivity. }
  { simpl. lia. }
  exists c, s', pairs. split; [exact E|]. split; [exact Hl | exact Hp].
Defined.

(** X11: the ansatz is [reps] copies of the layer followed, when [final_rx]
    is set, by one rx rotation per qubit; it creates the parameters of the
    layers and one per closing rotation.  A negative [reps] counts as
    zero. *)
Theorem X11_ansatz_layout (this : PulseAnsatz.self) (s : AnsatzBuilder.self) :
  0 ≤ PulseAnsatz._num_qubits this →
  Forall (valid_pair (PulseAnsatz._num_qubits this)) (entangling_pairs this) →
  ∃ c s', CRAnsatz.circuit this s = (Return c, s') ∧
    num_qubits c = PulseAnsatz._num_qubits this ∧
    layout c
      = concat (replicate (Z.to_nat (PulseAnsatz._reps this)) (layer_layout this))
        ++ (if PulseAnsatz._final_rx this
            then (λ q, ("rx", [q])) <$> range 0 (PulseAnsatz._num_qubits this) 1
            else []) ∧
    length (AnsatzBuilder._params s')
      = (length (AnsatzBuilder._params s)
         + Z.to_nat (PulseAnsatz._reps this) * layer_param_count this
         + (if PulseAnsatz._final_rx this
            then Z.to_nat (PulseAnsatz._num_qubits this) else 0))%nat.
Proof.
  intros Hn Hvalid.
  destruct (circuit_run this s Hn Hvalid) as (c & s' & E & Hnc & Hl & Hp).
  exists c, s'. split; [exact E|]. split; [exact Hnc|].
  rewrite !range_len_1, !Z.sub_0_r in Hp. unfold ansatz_layout in Hl.
  rewrite range_len_1, Z.sub_0_r in Hl.
  split; [|exact Hp]. rewrite Hl. f_equal.
Qed.

Lemma X11_ansatz_layout_witness :
  let this := PulseAnsatz.mkSelf 2 2 (PulseAnsatz.EntStr "interleaved") false true in
  let builder :=
    AnsatzBuilder.__init__
      (AnsatzBuilder.mkBackend None None (λ _, Raise (BackendError "no default schedule")))
      [0; 1] None (Qc_of_Z 800) in
  ∃ c s', CRAnsatz.circuit this builder = (Return c, s') ∧
    layout c = [("rx", [0]); ("rx", [1]); ("cr", [0; 1]);
                ("rx", [0]); ("rx", [1]); ("cr", [0; 1]);
                ("rx", [0]); ("rx", [1])] ∧
    length (AnsatzBuilder._params s') = 10%nat.
Proof.
  intros this builder.
  destruct (X11_ansatz_layout this builder) as (c & s' & E & _ & Hl & Hp).
  { simpl. lia. }
  { repeat constructor; simpl; lia. }
  exists c, s'. split; [exact E|]. split; [exact Hl | exact Hp].
Defined.

Section OddInterleaved.
Import AnsatzBuilder PulseAnsatz.

(** A loop whose body raises on its first round raises. *)
Lemma for_in_first_raises {S X A} (xs : list X) (a : A) (body : X → A → M S A) s e :
  xs ≠ [] → (∀ x, (body x a s).1 = Raise e) → (for_in xs a body s).1 = Raise e.
Proof.
  intros Hxs Hbody. destruct xs as [|x xs]; [done|].
  simpl. unfold bind. specialize (Hbody x).
  destruct (body x a s) as [[a'|e'] s']; simpl in Hbody; [discriminate | exact Hbody].
Qed.

Lemma range_1_nonempty n : 0 < n → range 0 n 1 ≠ [].
Proof.
  intros Hn Hnil. apply (f_equal length) in Hnil.
  rewrite length_range, range_len_1 in Hnil. simpl in Hnil. lia.
Qed.

Lemma circuit_interleaved_odd this s :
  _entanglement this = EntStr "interleaved" →
  _num_qubits this `mod` 2 = 1 → 0 < _num_qubits this → 0 < _reps this →
  (CRAnsatz.circuit this s).1 = Raise (CircuitError "Index out of range").
Proof.
  intros Hent Hodd Hn Hreps. unfold CRAnsatz.circuit, PulseAnsatz.circuit.
  erewrite bind_Return by (apply lift_Return, new_circuit_ok; lia).
  pose proof (for_in_first_raises (range 0 (_reps this) 1)
                (mkQuantumCircuit (_num_qubits this) None [] [])
                (λ (_ : Z) ansatz, layer <- CRAnsatz._layer this;; lift (compose layer ansatz))
                s (CircuitError "Index out of range")
                (range_1_nonempty _ Hreps)) as Hloop.
  unfold bind at 1.
  destruct (for_in _ _ _ s) as [[a|e] s1]; simpl in *.
  - exfalso. enough (Return a = Raise (CircuitError "Index out of range")) by discriminate.
    apply Hloop. intros _. unfold bind.
    pose proof (CRAnsatz_layer_interleaved_odd this s Hent Hodd Hn) as Hlayer.
    destruct (CRAnsatz._layer this s) as [[l|e] s2]; simpl in *; [discriminate | exact Hlayer].
  - apply Hloop. intros _. unfold bind.
    pose proof (CRAnsatz_layer_interleaved_odd this s Hent Hodd Hn) as Hlayer.
    destruct (CRAnsatz._layer this s) as [[l|e'] s2]; simpl in *; [discriminate | exact Hlayer].
Qed.

Lemma circuit_no_reps this s :
  0 ≤ _num_qubits this → _reps this ≤ 0 →
  ∃ c s', CRAnsatz.circuit this s = (Return c, s') ∧
    layout c = (if _final_rx this
                then (λ q, ("rx", [q])) <$> range 0 (_num_qubits this) 1 else []).
Proof.
  intros Hn Hreps. unfold CRAnsatz.circuit, PulseAnsatz.circuit.
  erewrite bind_Return by (apply lift_Return, new_circuit_ok; lia).
  rewrite (range_nil 0 (_reps this) 1) by (rewrite range_len_1; lia).
  erewrite bind_Return by reflexivity.
  destruct (_final_rx this).
  - destruct (final_rx_run (_num_qubits this)
                (mkQuantumCircuit (_num_qubits this) None [] []) s eq_refl)
      as (c & s' & E & _ & Hl & _).
    erewrite bind_Return by exact E. exists c, s'. split; [reflexivity|].
    rewrite Hl. simpl. clear. induction (range 0 _ 1) as [|q l IH]; [reflexivity|].
    simpl. by rewrite IH.
  - erewrite bind_Return by reflexivity. by eexists _, _.
Qed.

End OddInterleaved.

(** X12: with the interleaved entanglement and an odd qubit count the ansatz
    cannot be built as soon as it has a layer: the first layer raises and
    [circuit] passes the exception on.  Without a layer ([reps ≤ 0]) the
    layer code is never run and the ansatz is the closing rotations. *)
Theorem X12_odd_interleaved_ansatz (this : PulseAnsatz.self) (s : AnsatzBuilder.self) :
  PulseAnsatz._entanglement this = PulseAnsatz.EntStr "interleaved" →
  PulseAnsatz._num_qubits this `mod` 2 = 1 → 0 < PulseAnsatz._num_qubits this →
  (0 < PulseAnsatz._reps this →
     (CRAnsatz.circuit this s).1 = Raise (CircuitError "Index out of range")) ∧
  (PulseAnsatz._reps this ≤ 0 →
     ∃ c s', CRAnsatz.circuit this s = (Return c, s') ∧
       layout c = (if PulseAnsatz._final_rx this
                   then (λ q, ("rx", [q])) <$> range 0 (PulseAnsatz._num_qubits this) 1
                   else [])).
Proof.
  intros Hent Hodd Hn. split.
  - by apply circuit_interleaved_odd.
  - apply circuit_no_reps. lia.
Qed.

Lemma X12_odd_interleaved_ansatz_witness :
  let builder :=
    AnsatzBuilder.__init__
      (AnsatzBuilder.mkBackend None None (λ _, Raise (BackendError "no default schedule")))
      [0; 1; 2] None (Qc_of_Z 800) in
  (CRAnsatz.circuit (PulseAnsatz.mkSelf 3 1 (PulseAnsatz.EntStr "interleaved") false true)
     builder).1 = Raise (CircuitError "Index out of range") ∧
  ∃ c s',
    CRAnsatz.circuit (PulseAnsatz.mkSelf 3 0 (PulseAnsatz.EntStr "interleaved") false true)
      builder = (Return c, s') ∧
    layout c = [("rx", [0]); ("rx", [1]); ("rx", [2])].
Proof.
  intros builder. split.
  - apply (X12_odd_interleaved_ansatz
             (PulseAnsatz.mkSelf 3 1 (PulseAnsatz.EntStr "interleaved") false true) builder);
      [reflexivity | reflexivity | simpl; lia | simpl; lia].
  - apply (X12_odd_interleaved_ansatz
             (PulseAnsatz.mkSelf 3 0 (PulseAnsatz.EntStr "interleaved") false true) builder);
      [reflexivity | reflexivity | simpl; lia | simpl; lia].
Defined.

(** ** [pulse_ansatz.py]: the instructions of the ansatz *)

Section Yields.
Context {S : Type}.

Lemma yields_ret {A} (I : A → Prop) a : I a → yields (S:=S) I (ret a).
Proof. intros Ha s. exact Ha. Qed.

Lemma yields_lift {A} (I : A → Prop) (o : outcome A) :
  (∀ a, o = Return a → I a) → yields (S:=S) I (lift o).
Proof. intros Ho s. unfold lift. simpl. destruct o as [a|e]; [by apply Ho | exact Logic.I]. Qed.

Lemma yields_bind {A B} (I1 : A → Prop) (I2 : B → Prop) (c : M S A) (k : A → M S B) :
  yields I1 c → (∀ a, I1 a → yields I2 (k a)) → yields I2 (bind c k).
Proof.
  intros Hc Hk s. unfold bind. specialize (Hc s).
  destruct (c s) as [[a|e] s1]; simpl in *; [|exact Logic.I].
  by apply Hk.
Qed.

Lemma yields_for_in {X A} (I : A → Prop) (xs : list X) (a : A) (body : X → A → M S A) :
  I a → (∀ x a', I a' → yields I (body x a')) → yields I (for_in xs a body).
Proof.
  intros Ha Hbody. revert a Ha. induction xs as [|x0 xs IH]; intros a Ha; simpl.
  - by apply yields_ret.
  - apply (yields_bind I); [by apply Hbody | intros a'; apply IH].
Qed.

Lemma yields_True {A} (c : M S A) : yields (λ _, True) c.
Proof. intros s. by destruct (c s).1. Qed.

End Yields.

Section AnsatzInstructions.
Import AnsatzBuilder PulseAnsatz.

Lemma resolve_qubit_range (c : QuantumCircuit GateParam) q q' :
  resolve_qubit c q = Some q' → 0 ≤ q' < num_qubits c.
Proof. unfold resolve_qubit. repeat case_decide; intros [= <-]; lia. Qed.

(** What a successful [append] has done. *)
Lemma append_Return (g : Gate GateParam) qs (c c' : QuantumCircuit GateParam) :
  append g qs c = Return c' →
  ∃ qs', Forall2 (λ q q', resolve_qubit c q = Some q') qs qs' ∧
         c' = mkQuantumCircuit (num_qubits c) (circuit_name c)
                (data c ++ [(g, qs')]) (calibrations c).
Proof.
  unfold append, resolve_qubits.
  destruct (mapM (resolve_qubit c) qs) as [qs'|] eqn:E; [|discriminate].
  destruct (negb _); [discriminate|]. destruct (negb _); [discriminate|].
  intros [= <-]. exists qs'. split; [by apply mapM_Some_1 | reflexivity].
Qed.

Lemma ansatz_circuit_snoc add_rz n (c : QuantumCircuit GateParam) inst nm cals :
  ansatz_circuit add_rz n c → ansatz_instruction add_rz n inst →
  ansatz_circuit add_rz n (mkQuantumCircuit (num_qubits c) nm (data c ++ [inst]) cals).
Proof.
  intros [Hn Hall] Hinst. split; [exact Hn|]. simpl.
  apply Forall_app. split; [exact Hall | by apply Forall_singleton].
Qed.

Lemma rotation_yields add_rz n nm p q (c : QuantumCircuit GateParam) :
  nm = "rx" ∨ (nm = "rz" ∧ add_rz = true) → ansatz_circuit add_rz n c →
  yields (S:=AnsatzBuilder.self) (ansatz_circuit add_rz n)
    (lift (append (mkGate nm 1 [Symbol p] []) [q] c)).
Proof.
  intros Hnm Hc. apply yields_lift. intros c' E.
  apply append_Return in E as (qs' & Hqs & ->).
  apply Forall2_cons_inv_l in Hqs as (q' & qs'' & Hq & Hnil & ->).
  apply Forall2_nil_inv_l in Hnil as ->.
  apply ansatz_circuit_snoc; [exact Hc|]. left. exists nm, p, q'.
  split; [exact Hnm|]. split; [|reflexivity].
  destruct Hc as [<- _]. by apply (resolve_qubit_range c q).
Qed.

Lemma add_rx_yields add_rz n c q :
  ansatz_circuit add_rz n c → yields (ansatz_circuit add_rz n) (add_rx c q).
Proof.
  intros Hc. unfold add_rx. apply (yields_bind (λ _, True)); [apply yields_True|].
  intros p _. unfold rx. apply rotation_yields; [by left | exact Hc].
Qed.

Lemma add_cr_yields add_rz n c pq duration :
  ansatz_circuit add_rz n c → yields (ansatz_circuit add_rz n) (add_cr c pq duration).
Proof.
  intros Hc. unfold add_cr. apply (yields_bind (λ _, True)); [apply yields_True|].
  intros d _. apply (yields_bind (λ _, True)); [apply yields_True|].
  intros p _. apply yields_lift. intros c' E.
  apply append_Return in E as (qs' & Hqs & ->).
  apply Forall2_cons_inv_l in Hqs as (q1 & qs1 & Hq1 & Hqs & ->).
  apply Forall2_cons_inv_l in Hqs as (q2 & qs2 & Hq2 & Hnil & ->).
  apply Forall2_nil_inv_l in Hnil as ->.
  apply ansatz_circuit_snoc; [exact Hc|]. right. exists d, p, q1, q2.
  destruct Hc as [<- _].
  split; [by apply (resolve_qubit_range c pq.1)|].
  split; [by apply (resolve_qubit_range c pq.2) | reflexivity].
Qed.

Lemma new_circuit_yields add_rz n nm :
  yields (S:=AnsatzBuilder.self) (ansatz_circuit add_rz n) (lift (new_circuit n nm)).
Proof.
  apply yields_lift. intros c. unfold new_circuit. case_decide; [discriminate|].
  intros [= <-]. split; [reflexivity | constructor].
Qed.

Lemma _layer_yields this :
  yields (ansatz_circuit (_add_rz this) (_num_qubits this)) (CRAnsatz._layer this).
Proof.
  unfold CRAnsatz._layer.
  set (I := ansatz_circuit (_add_rz this) (_num_qubits this)).
  apply (yields_bind I); [apply new_circuit_yields|]. intros c0 Hc0.
  apply (yields_bind I).
  { apply yields_for_in; [exact Hc0|]. intros q c Hc.
    apply (yields_bind I); [by apply add_rx_yields|]. intros c1 Hc1.
    destruct (_add_rz this) eqn:Erz; [|by apply yields_ret].
    apply (yields_bind (λ _, True)); [apply yields_True|]. intros p _.
    unfold rz. apply rotation_yields; [by right | exact Hc1]. }
  intros c1 Hc1. apply (yields_bind I).
  { destruct (equals_str _ _); [|by apply yields_ret].
    apply (yields_bind I).
    - apply yields_for_in; [exact Hc1|]. intros q c Hc. by apply add_cr_yields.
    - intros c2 Hc2. apply yields_for_in; [exact Hc2|]. intros q c Hc.
      by apply add_cr_yields. }
  intros c2 Hc2. apply (yields_bind I); [|intros c3 Hc3; by apply yields_ret].
  destruct (_entanglement this); [by apply yields_ret| |by apply yields_ret].
  apply yields_for_in; [exact Hc2|]. intros q c Hc. by apply add_cr_yields.
Qed.

Lemma circuit_yields this :
  yields (ansatz_circuit (_add_rz this) (_num_qubits this)) (CRAnsatz.circuit this).
Proof.
  unfold CRAnsatz.circuit, PulseAnsatz.circuit.
  set (I := ansatz_circuit (_add_rz this) (_num_qubits this)).
  apply (yields_bind I); [apply new_circuit_yields|]. intros c0 Hc0.
  apply (yields_bind I).
  { apply yields_for_in; [exact Hc0|]. intros _ c Hc.
    apply (yields_bind I); [apply _layer_yields|]. intros layer Hlayer.
    apply yields_lift. intros c'. unfold compose. case_decide; [discriminate|].
    intros [= <-]. destruct Hc as [Hn Hall], Hlayer as [_ Hall'].
    split; [exact Hn|]. simpl. apply Forall_app. by split. }
  intros c1 Hc1. apply (yields_bind I); [|intros c2 Hc2; by apply yields_ret].
  destruct (_final_rx this); [|by apply yields_ret].
  apply yields_for_in; [exact Hc1|]. intros q c Hc. by apply add_rx_yields.
Qed.

End AnsatzInstructions.

(** ** [pulse_ansatz.py]: when attaching the schedules succeeds *)

Section SchedulingReturns.
Import AnsatzBuilder.







End SchedulingReturns.

Section AnsatzParameters.
Import AnsatzBuilder PulseAnsatz.



End AnsatzParameters.

(** X13: whenever [circuit] returns, whatever the entanglement, the ansatz
    has the qubit count asked for and holds nothing but rotations with one
    symbolic angle ([rx], and [rz] only if [add_rz] is set) and
    cross-resonance gates with a symbolic duration and a symbolic amplitude,
    all on qubits of the register; a negative qubit index of an entangling
    pair has been resolved from the end of the register. *)
Theorem X13_ansatz_instructions (this : PulseAnsatz.self) (s s' : AnsatzBuilder.self)
    (c : QuantumCircuit GateParam) :
  CRAnsatz.circuit this s = (Return c, s') →
  num_qubits c = PulseAnsatz._num_qubits this ∧
  Forall (ansatz_instruction (PulseAnsatz._add_rz this) (PulseAnsatz._num_qubits this))
         (data c).
Proof.
  intros E. pose proof (circuit_yields this s) as H. rewrite E in H. exact H.
Qed.

Lemma X13_ansatz_instructions_witness :
  let this := PulseAnsatz.mkSelf 3 1 (PulseAnsatz.EntList [(0, -1)]) false false in
  let builder :=
    AnsatzBuilder.__init__
      (AnsatzBuilder.mkBackend None None (λ _, Raise (BackendError "no default schedule")))
      [0; 1; 2] None (Qc_of_Z 800) in
  ∃ c s', CRAnsatz.circuit this builder = (Return c, s') ∧
          layout c = [("rx", [0]); ("rx", [1]); ("rx", [2]); ("cr", [0; 2])] ∧
          Forall (ansatz_instruction false 3) (data c).
Proof.
  intros this builder.
  assert (∃ c s', CRAnsatz.circuit this builder = (Return c, s') ∧
                  layout c = [("rx", [0]); ("rx", [1]); ("rx", [2]); ("cr", [0; 2])])
    as (c & s' & E & Hl) by (eexists _, _; split; vm_compute; reflexivity).
  exists c, s'. split; [exact E|]. split; [exact Hl|].
  apply (X13_ansatz_instructions this builder s' c E).
Defined.





(** ** [custom_ansatz.py]: the layout for every qubit count *)

Section LayoutLoops.
Context {S X P : Type} (len : S → nat) (n : Z).

(** A loop whose body appends the entries [g x] and creates [k] parameters
    appends the entries of all its rounds and creates [k] parameters per
    round. *)
Lemma for_in_layout (g : X → list (string * list Z)) (k : nat) (xs : list X)
    (body : X → QuantumCircuit P → M S (QuantumCircuit P)) (c : QuantumCircuit P) (s : S) :
  num_qubits c = n →
  (∀ x c s, x ∈ xs → num_qubits c = n →
     ∃ c' s', body x c s = (Return c', s') ∧ num_qubits c' = n ∧
              layout c' = layout c ++ g x ∧ len s' = (len s + k)%nat) →
  ∃ c' s', for_in xs c body s = (Return c', s') ∧ num_qubits c' = n ∧
           layout c' = layout c ++ flat_map g xs ∧
           len s' = (len s + length xs * k)%nat.
Proof.
  intros Hn Hbody.
  apply (for_in_ind
           (λ done (c' : QuantumCircuit P) (s' : S),
              num_qubits c' = n ∧ layout c' = layout c ++ flat_map g done ∧
              len s' = (len s + length done * k)%nat)).
  - split; [exact Hn|]. split; [by rewrite app_nil_r | simpl; lia].
  - intros done x rest c1 s1 Hsplit (Hn1 & Hl1 & Hp1).
    destruct (Hbody x c1 s1) as (c2 & s2 & E & Hn2 & Hl2 & Hp2); [|exact Hn1|].
    { rewrite Hsplit. apply elem_of_app. right. apply elem_of_cons. by left. }
    exists c2, s2. split; [exact E|]. split; [exact Hn2|]. split.
    + rewrite Hl2, Hl1, flat_map_app, <- app_assoc. simpl. by rewrite app_nil_r.
    + rewrite Hp2, Hp1, length_app. simpl. lia.
Qed.

End LayoutLoops.

(** Runs the loop at the head of the goal with [for_in_layout]. *)
Ltac run_layout len n g k :=
  match goal with
  | |- context [bind (for_in ?xs ?a ?body) ?cont ?s] =>
      let c' := fresh "cL" in
      let s' := fresh "sL" in
      let E := fresh "EL" in
      let Hn := fresh "HLn" in
      let Hl := fresh "HLl" in
      let Hp := fresh "HLp" in
      destruct (for_in_layout len n g k xs body a s) as (c' & s' & E & Hn & Hl & Hp);
      [ | | rewrite (bind_Return (for_in xs a body) cont s c' s' E) ]
  end.

Section ListFacts.

Lemma flat_map_singleton {A B} (f : A → B) (l : list A) :
  flat_map (λ x, [f x]) l = f <$> l.
Proof. induction l as [|x l IH]; [reflexivity|]. simpl. by rewrite IH. Qed.

Lemma flat_map_const {A B} (k : list B) (l : list A) :
  flat_map (λ _, k) l = concat (replicate (length l) k).
Proof. induction l as [|x l IH]; [reflexivity|]. simpl. by rewrite IH. Qed.

Lemma count_concat_replicate {A} (P : A → Prop) `{∀ x, Decision (P x)} (l : list A) k :
  length (filter P (concat (replicate k l))) = (k * length (filter P l))%nat.
Proof.
  induction k as [|k IH]; [reflexivity|].
  simpl. by rewrite filter_app, length_app, IH.
Qed.

Lemma count_pair_entries nm nm' pairs :
  length (filter (λ e : string * list Z, e.1 = nm) (pair_entries nm' pairs))
    = if decide (nm' = nm) then length pairs else 0%nat.
Proof.
  unfold pair_entries. induction pairs as [|pq l IH]; [by destruct (decide _)|].
  rewrite fmap_cons, filter_cons. simpl.
  destruct (decide (nm' = nm)); simpl; by rewrite IH.
Qed.

Lemma count_x_entries nm (l : list Z) :
  length (filter (λ e : string * list Z, e.1 = nm) ((λ i, ("x", [i])) <$> l))
    = if decide ("x" = nm) then length l else 0%nat.
Proof.
  induction l as [|i l IH]; [by destruct (decide _)|].
  rewrite fmap_cons, filter_cons. simpl.
  destruct (decide ("x" = nm)); simpl; by rewrite IH.
Qed.

Lemma count_bell_entries nm n :
  nm ≠ "h" → nm ≠ "cx" →
  length (filter (λ e : string * list Z, e.1 = nm) (bell_entries n)) = 0%nat.
Proof.
  intros Hh Hcx. unfold bell_entries.
  induction (range 0 n 1) as [|j l IH]; [reflexivity|].
  change (flat_map ?f (j :: l)) with (f j ++ flat_map f l).
  rewrite filter_app, length_app, IH.
  destruct (j `mod` 2 =? 0); [|reflexivity].
  rewrite filter_cons_False by (simpl; congruence).
  by rewrite filter_cons_False by (simpl; congruence).
Qed.

Lemma count_rotation_entries nm pairs :
  nm ∈ ["rzz"; "ryy"; "rxx"] →
  length (filter (λ e : string * list Z, e.1 = nm) (rotation_entries pairs)) = length pairs.
Proof.
  intros Hnm. unfold rotation_entries.
  induction pairs as [|pq l IH]; [reflexivity|].
  change (flat_map ?f (pq :: l)) with (f pq ++ flat_map f l).
  rewrite filter_app, length_app, IH. simpl. f_equal.
  repeat (apply elem_of_cons in Hnm as [->|Hnm]; [reflexivity|]).
  by apply elem_of_nil in Hnm.
Qed.

(** The lengths of the passes for an even qubit count. *)
Lemma length_odd_layer_pairs n :
  n `mod` 2 = 0 → 0 ≤ n → length (odd_layer_pairs n) = Z.to_nat (n `div` 2).
Proof.
  intros Heven Hn. unfold odd_layer_pairs. rewrite length_fmap, length_range.
  unfold range_len. rewrite decide_False by lia. rewrite decide_True by lia.
  f_equal. replace (n - 1 - 0 - -2 - 1) with n by lia. reflexivity.
Qed.

Lemma length_even_layer_pairs n :
  n `mod` 2 = 0 → 0 ≤ n → length (even_layer_pairs n) = Z.to_nat (n `div` 2).
Proof.
  intros Heven Hn. unfold even_layer_pairs. rewrite length_fmap, length_range.
  unfold range_len. rewrite decide_True by lia. f_equal.
  pose proof (Z.div_mod n 2 ltac:(lia)) as Hdm. rewrite Heven in Hdm.
  replace (n - 0 + 2 - 1) with (1 + (n `div` 2) * 2) by lia.
  rewrite Z.div_add by lia. reflexivity.
Qed.

Lemma length_rvb_pairs n :
  n `mod` 2 = 0 → 0 ≤ n → length (rvb_pairs n) = Z.to_nat n.
Proof.
  intros Heven Hn. unfold rvb_pairs.
  rewrite length_app, (length_odd_layer_pairs n Heven Hn), length_fmap, length_range.
  unfold range_len. rewrite decide_True by lia.
  replace (n - 1 - 0 + 2 - 1) with n by lia.
  pose proof (Z.div_mod n 2 ltac:(lia)) as Hdm. rewrite Heven in Hdm.
  assert (0 ≤ n `div` 2) by (apply Z.div_pos; lia). lia.
Qed.

Lemma length_hva_pairs n :
  n `mod` 2 = 0 → 0 ≤ n →
  length (odd_layer_pairs n ++ even_layer_pairs n) = Z.to_nat n.
Proof.
  intros Heven Hn.
  rewrite length_app, (length_odd_layer_pairs n Heven Hn),
    (length_even_layer_pairs n Heven Hn).
  pose proof (Z.div_mod n 2 ltac:(lia)) as Hdm. rewrite Heven in Hdm.
  assert (0 ≤ n `div` 2) by (apply Z.div_pos; lia). lia.
Qed.

End ListFacts.

Section RVBLayout.

Lemma RVB_block_ok n (c : QuantumCircuit ParameterExpression) q1 q2 s :
  num_qubits c = n → 0 ≤ q1 < n → 0 ≤ q2 < n → q1 ≠ q2 →
  ∃ c' s', (g <- RVB.add_eSWAP;; lift (append g [q1; q2] c)) s = (Return c', s') ∧
    num_qubits c' = n ∧
    layout c' = layout c ++ [("eSWAP", [q1; q2])] ∧
    length (RVB._params s') = (length (RVB._params s) + 2)%nat.
Proof.
  intros <- Hq1 Hq2 Hne.
  destruct (RVB_add_eSWAP_ok s) as (g & p1 & p2 & Eg & Hg & Hnm).
  erewrite bind_Return by exact Eg.
  eexists _, _. split; [apply lift_Return, append_2; [exact Hg | assumption..]|].
  split; [reflexivity|]. split.
  - by rewrite layout_snoc, Hnm.
  - simpl. rewrite length_app. simpl. lia.
Qed.

(** [RVB.circuit] for every even qubit count and every repetition count. *)
Lemma RVB_circuit_layout s :
  RVB._num_qubits s `mod` 2 = 0 → 0 ≤ RVB._num_qubits s →
  ∃ c s', RVB.circuit s = (Return c, s') ∧
    num_qubits c = RVB._num_qubits s ∧
    layout c = rvb_layout (RVB._num_qubits s) (RVB._reps s) ∧
    length (RVB._params s')
      = (length (RVB._params s)
         + Z.to_nat (RVB._reps s) * (2 * length (rvb_pairs (RVB._num_qubits s))))%nat.
Proof.
  intros Heven Hn. unfold RVB.circuit.
  erewrite bind_Return by reflexivity. cbv beta zeta.
  rewrite (parity_test_even _ Heven).
  set (n := RVB._num_qubits s) in *.
  erewrite bind_Return by (apply lift_Return, new_circuit_ok, Hn).
  pose (len := λ s0 : RVB.self, length (RVB._params s0)).
  (* build initial state *)
  run_layout len n (λ i : Z, [("x", [i])]) 0%nat; [reflexivity | |].
  { intros i c s0 Hi Hc. apply elem_of_range_1 in Hi.
    eexists _, _.
    split; [apply lift_Return; unfold x; apply append_1; [reflexivity | lia]|].
    split; [exact Hc|]. split; [apply layout_snoc | lia]. }
  (* build bell state *)
  run_layout len n
    (λ j : Z, if j `mod` 2 =? 0 then [("h", [j]); ("cx", [j; j + 1])] else [])
    0%nat; [exact HLn | |].
  { intros j c' s' Hj Hc. apply elem_of_range_1 in Hj.
    destruct (Z.eqb_spec (j `mod` 2) 0) as [Hje|_].
    - pose proof (even_succ_lt j n Hje Heven ltac:(lia)).
      erewrite bind_Return
        by (apply lift_Return; unfold h; apply append_1; [reflexivity | lia]).
      eexists _, _.
      split; [apply lift_Return; unfold cx; apply append_2; simpl; [reflexivity | lia..]|].
      split; [exact Hc|]. split; [|lia].
      rewrite !layout_snoc, <- app_assoc. reflexivity.
    - eexists _, _. split; [reflexivity|]. split; [exact Hc|].
      split; [by rewrite app_nil_r | lia]. }
  (* the repetitions *)
  run_layout len n
    (λ _ : Z, pair_entries "eSWAP" (rvb_pairs n))
    (2 * length (rvb_pairs n))%nat; [exact HLn0 | |].
  { intros k c' s' _ Hc.
    run_layout len n
      (λ l : Z, [("eSWAP", [(if l <? n - 1 then (l, l + 1) else (l, 0)).1;
                            (if l <? n - 1 then (l, l + 1) else (l, 0)).2])])
      2%nat; [exact Hc | |].
    { intros l c'' s'' Hl Hc'. apply elem_of_range_down2 in Hl as [Hl _].
      destruct (Z.ltb_spec l (n - 1)); apply RVB_block_ok; simpl; lia. }
    destruct (for_in_layout len n (λ l : Z, [("eSWAP", [l; l + 1])]) 2%nat
                (range 0 (n - 1) 2)
                (λ l ansatz, g <- RVB.add_eSWAP;; lift (append g [l; l + 1] ansatz))
                cL1 sL1 HLn1) as (c3 & s3 & E3 & Hn3 & Hl3 & Hp3).
    { intros l c'' s'' Hl Hc'. apply elem_of_range_up2 in Hl as [Hl _].
      apply RVB_block_ok; lia. }
    exists c3, s3. split; [exact E3|]. split; [exact Hn3|]. split.
    - rewrite Hl3, HLl1, <- app_assoc. f_equal.
      unfold pair_entries, rvb_pairs, odd_layer_pairs.
      rewrite fmap_app, <- !list_fmap_compose, !flat_map_singleton. reflexivity.
    - rewrite Hp3, HLp1. unfold rvb_pairs, odd_layer_pairs.
      rewrite length_app, !length_fmap. lia. }
  eexists _, _. split; [reflexivity|]. split; [exact HLn1|]. split.
  - rewrite HLl1, HLl0, HLl. unfold rvb_layout, bell_entries.
    rewrite flat_map_singleton, flat_map_const, length_range, range_len_1, Z.sub_0_r.
    by rewrite <- !app_assoc.
  - unfold len in *. rewrite HLp1, HLp0, HLp, !length_range, !range_len_1, !Z.sub_0_r. lia.
Qed.

End RVBLayout.

Lemma flat_map_fmap {A B C} (f : A → B) (g : B → list C) (l : list A) :
  flat_map g (f <$> l) = flat_map (λ x, g (f x)) l.
Proof. induction l as [|x l IH]; [reflexivity|]. rewrite fmap_cons. simpl. by rewrite IH. Qed.

Section HVALayout.

Lemma HVA_initial_state_layout n (c : QuantumCircuit ParameterExpression) s :
  num_qubits c = n →
  ∃ c', HVAnsatz.initial_state n c s = (Return (c', last (range 0 n 1)), s) ∧
        num_qubits c' = n ∧
        layout c' = layout c ++ ((λ i, ("x", [i])) <$> range 0 n 1).
Proof.
  intros Hc. unfold HVAnsatz.initial_state.
  destruct (for_in_ind (S:=HVAnsatz.self)
              (λ done (a : QuantumCircuit ParameterExpression * option Z) s',
                 (num_qubits a.1 = n ∧
                  layout a.1 = layout c ++ ((λ i, ("x", [i])) <$> done)) ∧
                 a.2 = last done ∧ s' = s)
              (range 0 n 1)
              (λ i '(ansatz, _), ansatz <- lift (x i ansatz);; ret (ansatz, Some i))
              (c, None) s) as ([c' i'] & s' & E & [Hn' Hl'] & Hi & ->).
  - split; [split; [exact Hc | by rewrite app_nil_r] | done].
  - intros done i rest [c0 i0] s0 Hsplit ([Hn0 Hl0] & _ & ->). simpl in Hn0, Hl0.
    assert (i ∈ range 0 n 1) as Hi.
    { rewrite Hsplit. apply elem_of_app. right. apply elem_of_cons. by left. }
    apply elem_of_range_1 in Hi.
    erewrite bind_Return by (apply lift_Return; unfold x; apply append_1; [reflexivity | lia]).
    eexists _, _. split; [reflexivity|]. simpl. rewrite last_snoc.
    split; [|split; reflexivity]. split; [exact Hn0|].
    by rewrite layout_snoc, Hl0, fmap_app, <- app_assoc.
  - simpl in *. subst i'. by exists c'.
Qed.

Lemma HVA_rotations_layout n paramstr q1 q2 (c : QuantumCircuit ParameterExpression) s :
  num_qubits c = n → 0 ≤ q1 < n → 0 ≤ q2 < n → q1 ≠ q2 →
  ∃ c' s', HVAnsatz.rotations paramstr q1 q2 c s = (Return c', s') ∧
    num_qubits c' = n ∧
    layout c' = layout c ++ [("rzz", [q1; q2]); ("ryy", [q1; q2]); ("rxx", [q1; q2])] ∧
    length (HVAnsatz._params s') = (length (HVAnsatz._params s) + 3)%nat.
Proof.
  intros <- Hq1 Hq2 Hne.
  destruct (HVA_rotations_ok paramstr q1 q2 c s Hq1 Hq2 Hne) as (c' & s' & E & Hn & Hd & Hp).
  exists c', s'. split; [exact E|]. split; [exact Hn|]. split; [|exact Hp].
  unfold layout. by rewrite Hd, fmap_app.
Qed.

(** [HVAnsatz.circuit] for every even qubit count and every repetition
    count. *)
Lemma HVA_circuit_layout s :
  HVAnsatz._num_qubits s `mod` 2 = 0 → 0 ≤ HVAnsatz._num_qubits s →
  ∃ c s', HVAnsatz.circuit s = (Return c, s') ∧
    num_qubits c = HVAnsatz._num_qubits s ∧
    layout c = hva_layout (HVAnsatz._num_qubits s) (HVAnsatz._reps s) ∧
    length (HVAnsatz._params s')
      = (length (HVAnsatz._params s)
         + Z.to_nat (HVAnsatz._reps s)
           * (3 * length (odd_layer_pairs (HVAnsatz._num_qubits s)
                          ++ even_layer_pairs (HVAnsatz._num_qubits s))))%nat.
Proof.
  intros Heven Hn. unfold HVAnsatz.circuit.
  erewrite bind_Return by reflexivity. cbv beta zeta.
  rewrite (parity_test_even _ Heven).
  set (n := HVAnsatz._num_qubits s) in *.
  erewrite bind_Return by (apply lift_Return, new_circuit_ok, Hn).
  destruct (HVA_initial_state_layout n (mkQuantumCircuit n (Some "HVA") [] []) s eq_refl)
    as (c1 & E1 & Hn1 & Hl1).
  erewrite bind_Return by exact E1. cbv beta iota zeta.
  assert (HVAnsatz.bell_state n (last (range 0 n 1)) c1 s = (Return c1, s)) as E2.
  { destruct (decide (n = 0)) as [->|Hn0]; [reflexivity|].
    rewrite last_range_1 by lia. apply HVA_bell_state_skips, odd_pred, Heven. }
  erewrite bind_Return by exact E2.
  pose (len := λ s0 : HVAnsatz.self, length (HVAnsatz._params s0)).
  run_layout len n
    (λ _ : Z, rotation_entries (odd_layer_pairs n ++ even_layer_pairs n))
    (3 * length (odd_layer_pairs n ++ even_layer_pairs n))%nat; [exact Hn1 | |].
  { intros j c' s' _ Hc.
    run_layout len n
      (λ i : Z,
         let pq := if i <? n - 1 then (i, i + 1) else (i, 0) in
         [("rzz", [pq.1; pq.2]); ("ryy", [pq.1; pq.2]); ("rxx", [pq.1; pq.2])])
      3%nat; [exact Hc | |].
    { intros i c'' s'' Hi Hc'. apply elem_of_range_down2 in Hi as [Hi _].
      destruct (Z.ltb_spec i (n - 1)); apply HVA_rotations_layout; simpl; lia. }
    destruct (for_in_layout len n
                (λ i : Z, [("rzz", [i; i + 1]); ("ryy", [i; i + 1]); ("rxx", [i; i + 1])])
                3%nat (range 0 n 2)
                (λ i ansatz, HVAnsatz.rotations "gamma" i (i + 1) ansatz)
                cL sL HLn) as (c3 & s3 & E3 & Hn3 & Hl3 & Hp3).
    { intros i c'' s'' Hi Hc'. apply elem_of_range_up2 in Hi as [Hi Hie].
      rewrite Z.sub_0_r in Hie. pose proof (even_succ_lt i n Hie Heven ltac:(lia)).
      apply HVA_rotations_layout; lia. }
    exists c3, s3. split; [exact E3|]. split; [exact Hn3|]. split.
    - rewrite Hl3, HLl, <- app_assoc. f_equal.
      unfold rotation_entries, odd_layer_pairs, even_layer_pairs.
      rewrite flat_map_app. f_equal.
      + by rewrite flat_map_fmap.
      + by rewrite flat_map_fmap.
    - unfold len in *. rewrite Hp3, HLp. unfold odd_layer_pairs, even_layer_pairs.
      rewrite length_app, !length_fmap. lia. }
  eexists _, _. split; [reflexivity|]. split; [exact HLn|]. split.
  - rewrite HLl, Hl1. unfold hva_layout.
    by rewrite flat_map_const, length_range, range_len_1, Z.sub_0_r.
  - unfold len in *. rewrite HLp, length_range, range_len_1, Z.sub_0_r. lia.
Qed.

End HVALayout.

(** X16: for every even qubit count [n ≥ 0] and every repetition count,
    [RVB.circuit] returns the circuit with an [x] on each qubit, a Hadamard
    and a CNOT from each even qubit, and per repetition one eSWAP block on
    each pair of the descending pass and of the ascending pass.  That makes
    [n] blocks per repetition and two new parameters per block; a negative
    repetition count counts as zero. *)
Theorem X16_rvb_layout (s : RVB.self) :
  RVB._num_qubits s `mod` 2 = 0 → 0 ≤ RVB._num_qubits s →
  ∃ c s', RVB.circuit s = (Return c, s') ∧
    num_qubits c = RVB._num_qubits s ∧
    layout c = rvb_layout (RVB._num_qubits s) (RVB._reps s) ∧
    count_gates "eSWAP" c = (Z.to_nat (RVB._reps s) * Z.to_nat (RVB._num_qubits s))%nat ∧
    count_gates "x" c = Z.to_nat (RVB._num_qubits s) ∧
    length (RVB._params s')
      = (length (RVB._params s)
         + 2 * (Z.to_nat (RVB._reps s) * Z.to_nat (RVB._num_qubits s)))%nat.
Proof.
  intros Heven Hn.
  destruct (RVB_circuit_layout s Heven Hn) as (c & s' & E & Hnc & Hl & Hp).
  exists c, s'. split; [exact E|]. split; [exact Hnc|]. split; [exact Hl|].
  rewrite (length_rvb_pairs _ Heven Hn) in Hp.
  rewrite !count_gates_layout, Hl. unfold rvb_layout.
  rewrite !filter_app, !length_app, !count_x_entries, !count_bell_entries by discriminate.
  rewrite !count_concat_replicate, !count_pair_entries.
  rewrite (length_rvb_pairs _ Heven Hn), length_range, range_len_1, Z.sub_0_r.
  split; [reflexivity|]. split; [simpl; lia | lia].
Qed.

Lemma X16_rvb_layout_witness :
  ∃ c s', RVB.circuit (RVB.__init__ 2 3) = (Return c, s') ∧
    count_gates "eSWAP" c = 6%nat ∧ length (RVB._params s') = 12%nat.
Proof.
  destruct (X16_rvb_layout (RVB.__init__ 2 3)) as (c & s' & E & _ & _ & He & _ & Hp);
    [reflexivity | simpl; lia |].
  exists c, s'. split; [exact E|]. split; [exact He | exact Hp].
Defined.

(** X17: for every even qubit count [n ≥ 0] and every repetition count,
    [HVAnsatz.circuit] returns the circuit with an [x] on each qubit and,
    per repetition, the rotations [rzz], [ryy], [rxx] on each pair of the
    odd layer and then of the even layer.  That makes [n] rotations of each
    kind per repetition and three new parameters per pair. *)
Theorem X17_hva_layout (s : HVAnsatz.self) :
  HVAnsatz._num_qubits s `mod` 2 = 0 → 0 ≤ HVAnsatz._num_qubits s →
  ∃ c s', HVAnsatz.circuit s = (Return c, s') ∧
    num_qubits c = HVAnsatz._num_qubits s ∧
    layout c = hva_layout (HVAnsatz._num_qubits s) (HVAnsatz._reps s) ∧
    (∀ nm, nm ∈ ["rzz"; "ryy"; "rxx"] →
       count_gates nm c
         = (Z.to_nat (HVAnsatz._reps s) * Z.to_nat (HVAnsatz._num_qubits s))%nat) ∧
    length (HVAnsatz._params s')
      = (length (HVAnsatz._params s)
         + 3 * (Z.to_nat (HVAnsatz._reps s) * Z.to_nat (HVAnsatz._num_qubits s)))%nat.
Proof.
  intros Heven Hn.
  destruct (HVA_circuit_layout s Heven Hn) as (c & s' & E & Hnc & Hl & Hp).
  exists c, s'. split; [exact E|]. split; [exact Hnc|]. split; [exact Hl|].
  rewrite (length_hva_pairs _ Heven Hn) in Hp. split; [|lia].
  intros nm Hnm. rewrite count_gates_layout, Hl. unfold hva_layout.
  rewrite filter_app, length_app, count_x_entries, count_concat_replicate.
  rewrite (count_rotation_entries nm _ Hnm), (length_hva_pairs _ Heven Hn).
  rewrite decide_False; [reflexivity|].
  intros <-. revert Hnm. apply (bool_decide_eq_false_1 _). reflexivity.
Qed.

Lemma X17_hva_layout_witness :
  ∃ c s', HVAnsatz.circuit (HVAnsatz.__init__ 2 2) = (Return c, s') ∧
    layout c = [("x", [0]); ("x", [1]);
                ("rzz", [1; 0]); ("ryy", [1; 0]); ("rxx", [1; 0]);
                ("rzz", [0; 1]); ("ryy", [0; 1]); ("rxx", [0; 1]);
                ("rzz", [1; 0]); ("ryy", [1; 0]); ("rxx", [1; 0]);
                ("rzz", [0; 1]); ("ryy", [0; 1]); ("rxx", [0; 1])] ∧
    length (HVAnsatz._params s') = 12%nat.
Proof.
  destruct (X17_hva_layout (HVAnsatz.__init__ 2 2)) as (c & s' & E & _ & Hl & _ & Hp);
    [reflexivity | simpl; lia |].
  exists c, s'. split; [exact E|]. split; [exact Hl | exact Hp].
Defined.

(** ** [heisenberg_model.py]: the labels of the Hamiltonian *)

Section HeisenbergLabels.
Context {W : Type}.
Import HeisenbergModel.

(** [str] of a non-negative [int] is a non-empty string of digits. *)
Lemma str_nonneg z : 0 ≤ z → str z = str_nat (Z.to_nat z).
Proof.
  intros Hz. unfold str, str_nat. destruct z as [|p|p]; [reflexivity| |lia].
  unfold pretty at 1, pretty_Z, pretty at 1, pretty_positive, pretty at 2, pretty_nat.
  by rewrite Z2Nat.inj_pos, positive_nat_N.
Qed.

Lemma str_nonneg_digits z : 0 ≤ z → all_digits (str z) = true.
Proof. intros Hz. rewrite (str_nonneg z Hz). apply str_nat_digits. Qed.

(** A string splits in one way only into digits and a rest that does not go
    on with a digit. *)
Lemma digits_split d1 d2 r1 r2 :
  all_digits d1 = true → all_digits d2 = true →
  no_digit_head r1 → no_digit_head r2 →
  d1 +:+ r1 = d2 +:+ r2 → d1 = d2 ∧ r1 = r2.
Proof.
  revert d2. induction d1 as [|c1 d1 IH]; intros [|c2 d2] Hd1 Hd2 Hr1 Hr2 Heq.
  - done.
  - rewrite append_nil_l, append_cons in Heq. subst r1. simpl in Hr1, Hd2.
    apply andb_true_iff in Hd2 as [Hc _]. congruence.
  - rewrite append_nil_l, append_cons in Heq. subst r2. simpl in Hr2, Hd1.
    apply andb_true_iff in Hd1 as [Hc _]. congruence.
  - rewrite !append_cons in Heq. injection Heq as -> Heq. simpl in Hd1, Hd2.
    apply andb_true_iff in Hd1 as [_ Hd1]. apply andb_true_iff in Hd2 as [_ Hd2].
    by destruct (IH d2 Hd1 Hd2 Hr1 Hr2 Heq) as [-> ->].
Qed.

(** A label determines its letter, its node and its rest. *)
Lemma spin_label_inj k1 k2 a1 a2 r1 r2 :
  0 ≤ a1 → 0 ≤ a2 → no_digit_head r1 → no_digit_head r2 →
  spin_label k1 a1 r1 = spin_label k2 a2 r2 → k1 = k2 ∧ a1 = a2 ∧ r1 = r2.
Proof.
  intros Ha1 Ha2 Hr1 Hr2 Heq. unfold spin_label in Heq. injection Heq as -> Heq.
  destruct (digits_split _ _ _ _ (str_nonneg_digits a1 Ha1) (str_nonneg_digits a2 Ha2)
              Hr1 Hr2 Heq) as [Ha ->].
  split; [done|]. split; [|done]. unfold str in Ha. by apply (inj pretty) in Ha.
Qed.

(** The labels of one edge, in the form of [spin_label]. *)
Lemma edge_labels a b (w : W) :
  (edge_terms (a, b, w)).*1 =
    if decide (a = b) then [spin_label "X" a ""]
    else [spin_label "X" a (" X_" +:+ str b); spin_label "Y" a (" Y_" +:+ str b);
          spin_label "Z" a (" Z_" +:+ str b)].
Proof.
  unfold edge_terms, spin_label. destruct (decide (a = b)); simpl.
  - by rewrite append_nil_r.
  - reflexivity.
Qed.

Lemma edge_label_form a b (w : W) lbl :
  lbl ∈ (edge_terms (a, b, w)).*1 →
  ∃ k r, lbl = spin_label k a r ∧ no_digit_head r ∧
         ((r = "" ∧ a = b) ∨ r = String " " (String k (String "_" (str b)))).
Proof.
  rewrite edge_labels. destruct (decide (a = b)) as [Hab|Hab]; intros Hin.
  - apply list_elem_of_singleton in Hin as ->. exists "X"%char, "". by repeat split; try left.
  - repeat (apply elem_of_cons in Hin as [->|Hin];
            [eexists _, _; split; [reflexivity|]; split; [reflexivity | by right]|]).
    by apply elem_of_nil in Hin.
Qed.

(** A label belongs to the edges of one ordered pair of nodes only. *)
Lemma edge_label_nodes a b (w : W) a' b' (w' : W) lbl :
  0 ≤ a → 0 ≤ a' →  0 ≤ b → 0 ≤ b' →
  lbl ∈ (edge_terms (a, b, w)).*1 → lbl ∈ (edge_terms (a', b', w')).*1 →
  a = a' ∧ b = b'.
Proof.
  intros Ha Ha' Hb Hb' (k & r & -> & Hr & Hform)%edge_label_form
         (k' & r' & Heq & Hr' & Hform')%edge_label_form.
  destruct (spin_label_inj _ _ _ _ _ _ Ha Ha' Hr Hr' Heq) as (-> & -> & ->).
  split; [reflexivity|].
  destruct Hform as [[Hnil Hab]|Hrb]; destruct Hform' as [[Hnil' Hab']|Hrb'].
  - congruence.
  - rewrite Hnil in Hrb'. discriminate Hrb'.
  - rewrite Hnil' in Hrb. discriminate Hrb.
  - rewrite Hrb in Hrb'. injection Hrb' as Hstr. unfold str in Hstr.
    by apply (inj pretty) in Hstr.
Qed.

Lemma edge_labels_NoDup a b (w : W) : NoDup (edge_terms (a, b, w)).*1.
Proof.
  rewrite edge_labels. destruct (decide (a = b)); [apply NoDup_singleton|].
  unfold spin_label. repeat apply NoDup_cons_2; try apply NoDup_nil_2;
    rewrite ?elem_of_cons, elem_of_nil; intros H;
    repeat (destruct H as [H|H]; [discriminate H|]); exact H.
Qed.

Lemma labels_NoDup (edges : list (Z * Z * W)) :
  simple_edges edges → NoDup (flat_map edge_terms edges).*1.
Proof.
  intros [Hpos Hnd]. induction edges as [|[[a b] w] edges IH]; [apply NoDup_nil_2|].
  apply Forall_cons in Hpos as [[Ha Hb] Hpos]. simpl in Ha, Hb.
  rewrite fmap_cons in Hnd. apply NoDup_cons in Hnd as [Hnew Hnd]. simpl in Hnew.
  change (flat_map edge_terms ((a, b, w) :: edges))
    with (edge_terms (a, b, w) ++ flat_map edge_terms edges).
  rewrite fmap_app. apply NoDup_app. split; [apply edge_labels_NoDup|].
  split; [|by apply IH].
  intros lbl Hin Hin'. apply Hnew.
  apply list_elem_of_fmap in Hin' as ([lbl' w'] & -> & Hin'%list_elem_of_In%in_flat_map).
  destruct Hin' as ([[a' b'] w''] & He%list_elem_of_In & Ht%list_elem_of_In).
  rewrite Forall_forall in Hpos. destruct (Hpos _ He) as [Ha' Hb']. simpl in Ha', Hb'.
  destruct (edge_label_nodes a b w a' b' w'' lbl' Ha Ha' Hb Hb' Hin) as [-> ->].
  { apply list_elem_of_fmap. by exists (lbl', w'). }
  apply list_elem_of_fmap. by exists (a', b', w'').
Qed.

End HeisenbergLabels.

(** X18: when the nodes of the lattice have non-negative indices and no two
    weighted edges go from the same node to the same node, no two terms of
    the Hamiltonian share a label: the node indices are read back from a
    label in one way only, and the terms of one edge differ in their
    operator letter. *)
Theorem X18_heisenberg_labels_distinct {W : Type} (lattice : HeisenbergModel.Lattice W) :
  simple_edges (HeisenbergModel.weighted_edge_list lattice) →
  ∃ op, HeisenbergModel.second_q_ops (HeisenbergModel.mkSelf lattice) None = Return op ∧
        NoDup (HeisenbergModel.spin_terms op).*1 ∧
        HeisenbergModel.register_length op = HeisenbergModel.num_nodes lattice.
Proof.
  intros Hsimple. eexists. split; [reflexivity|]. simpl.
  split; [|reflexivity]. rewrite foldl_kinetic_term, app_nil_l. by apply labels_NoDup.
Qed.

Lemma X18_heisenberg_labels_distinct_witness :
  ∃ op, HeisenbergModel.second_q_ops
          (HeisenbergModel.mkSelf
             (HeisenbergModel.mkLattice [(0, 0, 5); (0, 1, 7); (1, 0, 7); (1, 12, 3)] 13))
          None = Return op ∧
        (HeisenbergModel.spin_terms op).*1
          = ["X_0"; "X_0 X_1"; "Y_0 Y_1"; "Z_0 Z_1"; "X_1 X_0"; "Y_1 Y_0"; "Z_1 Z_0";
             "X_1 X_12"; "Y_1 Y_12"; "Z_1 Z_12"] ∧
        NoDup (HeisenbergModel.spin_terms op).*1.
Proof.
  destruct (X18_heisenberg_labels_distinct
              (HeisenbergModel.mkLattice [(0, 0, 5); (0, 1, 7); (1, 0, 7); (1, 12, 3)] 13))
    as (op & E & Hnd & _).
  { split; [repeat constructor; simpl; lia|].
    apply (bool_decide_unpack _). vm_compute. exact I. }
  exists op. split; [exact E|]. split; [|exact Hnd].
  injection E as <-. vm_compute. reflexivity.
Defined.
